(** * Planet simulation: a shallow embedding of [src/main.ts]

    The simulation keeps a global array [planets] of [Planet] objects and
    advances it one tick per animation frame.  TypeScript's [number] is an
    IEEE-754 binary64 value, so numbers are modelled by Rocq's primitive
    floats: [+ - * /] and the comparisons are the operations the JavaScript
    engine performs, and [Math.sqrt] is the correctly rounded square root
    engines compute.  [Math.atan2], [Math.cos] and [Math.sin] differ between
    engines; they are parameters of the model ([MathLib]).

    JavaScript objects have identity and are mutated in place: a [Planet]
    removed from [planets] is still the receiver [this] of a running
    [update].  The model therefore keeps an object store ([heap], a list
    indexed by reference, which never shrinks) next to the array of
    references [planets].  Drawing is left out; what [animate] needs of it
    is whether [planets[i].draw()] can be called at all. *)

From Stdlib Require Import ZArith QArith Qabs Qpower Lqa Floats String Lia.
From stdpp Require Import base list.

Set Warnings "-inexact-float".
Local Open Scope float_scope.

(** ** Numbers *)

(** [Math.max(a, b)]: NaN if either argument is NaN, otherwise the larger
    one, [+0] counting as larger than [-0]. *)
Definition Math_max (a b : float) : float :=
  if (is_nan a || is_nan b)%bool then nan
  else if a <? b then b
  else if b <? a then a
  else if get_sign a then b else a.

(** [isNaN(x)] on a number. *)
Definition isNaN (a : float) : bool := is_nan a.

(** The part of [Math] the simulation calls and ECMAScript leaves to the
    implementation. *)
Record MathLib := mkMathLib {
  Math_atan2 : float -> float -> float;
  Math_cos : float -> float;
  Math_sin : float -> float
}.

(** The arithmetic of the merge formula [(q1*m1 + q2*m2) / newMass], kept
    generic so that the same formula can be read over binary64 (what the
    code runs) and over exact rationals. *)
Class Arith (N : Type) := mkArith {
  nadd : N -> N -> N;
  nmul : N -> N -> N;
  ndiv : N -> N -> N
}.

#[global] Instance float_Arith : Arith float :=
  {| nadd := PrimFloat.add; nmul := PrimFloat.mul; ndiv := PrimFloat.div |}.

#[global] Instance Q_Arith : Arith Q :=
  {| nadd := Qplus; nmul := Qmult; ndiv := Qdiv |}.

Definition weightedMean {N : Type} `{Arith N} (q1 m1 q2 m2 newMass : N) : N :=
  ndiv (nadd (nmul q1 m1) (nmul q2 m2)) newMass.

(** ** Constants ([main.ts] lines 6-8) *)

Definition G : float := 6.67430e-11.
Definition distanceScale : float := 1e9.

(** ** Data model *)

Record Velocity := mkVelocity { vel_x : float; vel_y : float }.

Record TrailPoint := mkTrailPoint { tp_x : float; tp_y : float; life : float }.

Record Planet := mkPlanet {
  x : float;
  y : float;
  radius : float;
  color : string;
  mass : float;
  velocity : Velocity;
  name : string;
  trail : list TrailPoint;
  fadeSpeed : float
}.

(** [new Planet(x, y, radius, color, mass, velocity, name)]. *)
Definition newPlanet (x0 y0 radius0 : float) (color0 : string) (mass0 : float)
    (velocity0 : Velocity) (name0 : string) : Planet :=
  {| x := x0; y := y0; radius := radius0; color := color0; mass := mass0;
     velocity := velocity0; name := name0; trail := []; fadeSpeed := 0.005 |}.

Definition setVelocity (v : Velocity) (p : Planet) : Planet :=
  {| x := x p; y := y p; radius := radius p; color := color p; mass := mass p;
     velocity := v; name := name p; trail := trail p; fadeSpeed := fadeSpeed p |}.

Definition setPositionTrail (x0 y0 : float) (t : list TrailPoint) (p : Planet) : Planet :=
  {| x := x0; y := y0; radius := radius p; color := color p; mass := mass p;
     velocity := velocity p; name := name p; trail := t; fadeSpeed := fadeSpeed p |}.

(** A reference to a [Planet] object: its index in the object store. *)
Abbreviation ref := nat (only parsing).

(** What [logMessage] is given.  Numbers that the source formats with
    [toExponential] are kept as numbers. *)
Inductive Message :=
| MsgCollision (thisName otherName : string)
| MsgNewPlanet (fusedMass : float)
| MsgInvalidInput
| MsgSpawned (newName : string) (distancePx distanceFromCenter : float) (centerName : string)
| MsgSpawnedCenter
| MsgSolarSystem
| MsgPaused
| MsgResumed.

(** Instrumentation: the calls [update] makes, in order. *)
Inductive Call :=
| CallGravity (this other : ref)
| CallCollision (this other : ref).

#[global] Instance Call_eq_dec : EqDecision Call.
Proof. solve_decision. Defined.
Arguments Call_eq_dec : simpl never.

Record World := mkWorld {
  heap : list Planet;
  planets : list ref;
  dt : float;
  isPaused : bool;
  canvasWidth : float;
  canvasHeight : float;
  log : list Message;
  calls : list Call
}.

Definition setHeap (h : list Planet) (w : World) : World :=
  {| heap := h; planets := planets w; dt := dt w; isPaused := isPaused w;
     canvasWidth := canvasWidth w; canvasHeight := canvasHeight w;
     log := log w; calls := calls w |}.

Definition setPlanets (ps : list ref) (w : World) : World :=
  {| heap := heap w; planets := ps; dt := dt w; isPaused := isPaused w;
     canvasWidth := canvasWidth w; canvasHeight := canvasHeight w;
     log := log w; calls := calls w |}.

(** [logMessage(message)] appends a paragraph to the log. *)
Definition logMessage (m : Message) (w : World) : World :=
  {| heap := heap w; planets := planets w; dt := dt w; isPaused := isPaused w;
     canvasWidth := canvasWidth w; canvasHeight := canvasHeight w;
     log := log w ++ [m]; calls := calls w |}.

Definition recordCall (c : Call) (w : World) : World :=
  {| heap := heap w; planets := planets w; dt := dt w; isPaused := isPaused w;
     canvasWidth := canvasWidth w; canvasHeight := canvasHeight w;
     log := log w; calls := calls w ++ [c] |}.

(** ** Array operations on [planets] *)

Fixpoint indexOfFrom (r : ref) (l : list ref) (i : Z) : Z :=
  match l with
  | [] => (-1)%Z
  | h :: t => if Nat.eqb h r then i else indexOfFrom r t (i + 1)%Z
  end.

(** [l.indexOf(r)]: the first index holding [r], or [-1]. *)
Definition indexOf (r : ref) (l : list ref) : Z := indexOfFrom r l 0%Z.

(** [l.splice(start, deleteCount, ...items)] for [start >= 0]; a [start]
    beyond the end is clamped to the length, as [take] and [drop] do. *)
Definition splice (start deleteCount : nat) (items : list ref) (l : list ref) : list ref :=
  take start l ++ items ++ drop (start + deleteCount) l.

(** ** Planet.applyGravity ([main.ts] lines 176-189) *)

Section Simulation.

Context (Math : MathLib).

Definition gravityVelocity (this other : Planet) (dt0 : float) : Velocity :=
  let dx := x other - x this in
  let dy := y other - y this in
  let distance := sqrt (dx * dx + dy * dy) in
  let distance := Math_max distance 1e7 in
  let force := (G * mass this * mass other) / (distance * distance) in
  let angle := Math_atan2 Math dy dx in
  let forceX := Math_cos Math angle * force in
  let forceY := Math_sin Math angle * force in
  {| vel_x := vel_x (velocity this) + (forceX / mass this) * dt0;
     vel_y := vel_y (velocity this) + (forceY / mass this) * dt0 |}.

Definition applyGravity (this other : ref) (w : World) : World :=
  match heap w !! this, heap w !! other with
  | Some a, Some b =>
      let w := recordCall (CallGravity this other) w in
      setHeap (<[this := setVelocity (gravityVelocity a b (dt w)) a]> (heap w)) w
  | _, _ => w
  end.

(** ** Planet.checkCollision ([main.ts] lines 191-214) *)

(** Lines 192-194: the distance between the two bodies. *)
Definition separation (this other : Planet) : float :=
  let dx := x other - x this in
  let dy := y other - y this in
  sqrt (dx * dx + dy * dy).

(** Line 195: the collision test. *)
Definition collides (this other : Planet) : bool :=
  let distance := separation this other in
  distance <=? (radius this + radius other) * distanceScale.

Definition fusedPlanet (this other : Planet) : Planet :=
  let newMass := mass this + mass other in
  let newRadius := sqrt (radius this * radius this + radius other * radius other) in
  let newVelocity :=
    {| vel_x := weightedMean (vel_x (velocity this)) (mass this)
                             (vel_x (velocity other)) (mass other) newMass;
       vel_y := weightedMean (vel_y (velocity this)) (mass this)
                             (vel_y (velocity other)) (mass other) newMass |} in
  let newX := weightedMean (x this) (mass this) (x other) (mass other) newMass in
  let newY := weightedMean (y this) (mass this) (y other) (mass other) newMass in
  newPlanet newX newY newRadius (color this) newMass newVelocity
            (name this ++ "+" ++ name other)%string.

Definition checkCollision (this other : ref) (w : World) : World :=
  match heap w !! this, heap w !! other with
  | Some a, Some b =>
      let w := recordCall (CallCollision this other) w in
      if collides a b then
        let w := logMessage (MsgCollision (name a) (name b)) w in
        let fused : ref := length (heap w) in
        let w := setHeap (heap w ++ [fusedPlanet a b]) w in
        let w := logMessage (MsgNewPlanet (mass (fusedPlanet a b))) w in
        let indexThis := indexOf this (planets w) in
        let indexOther := indexOf other (planets w) in
        let w := if (indexOther >? -1)%Z
                 then setPlanets (splice (Z.to_nat indexOther) 1 [] (planets w)) w
                 else w in
        let w := if (indexThis >? -1)%Z
                 then setPlanets (splice (Z.to_nat indexThis) 1 [fused] (planets w)) w
                 else w in
        w
      else w
  | _, _ => w
  end.

(** ** Planet.update ([main.ts] lines 216-233) *)

(** The loop body: [if (other !== this) { this.applyGravity(other);
    this.checkCollision(other); }]. *)
Definition visit (this other : ref) (w : World) : World :=
  if Nat.eqb other this then w
  else checkCollision this other (applyGravity this other w).

(** [for (let other of planets) { ... }].  The array
    iterator holds an index [k] and reads [planets.length] and [planets[k]]
    afresh at every step, while the body may splice [planets].  [fuel]
    bounds the number of steps; [update] passes the length at loop entry,
    which is enough because no step makes the array longer
    ([update_loop_fuel]). *)
Fixpoint update_loop (fuel : nat) (this : ref) (k : nat) (w : World) : World :=
  match fuel with
  | O => w
  | S fuel' =>
      match planets w !! k with
      | None => w
      | Some other => update_loop fuel' this (S k) (visit this other w)
      end
  end.

(** [this.trail[i].life -= this.fadeSpeed]. *)
Definition fade (fs : float) (p : TrailPoint) : TrailPoint :=
  {| tp_x := tp_x p; tp_y := tp_y p; life := life p - fs |}.

(** [while (this.trail.length && this.trail[0].life <= 0) this.trail.shift()]. *)
Fixpoint evict (t : list TrailPoint) : list TrailPoint :=
  match t with
  | [] => []
  | p :: t' => if life p <=? 0 then evict t' else t
  end.

(** Lines 226-232: push the new point, fade every point, evict at the front. *)
Definition maintainTrail (x0 y0 fs : float) (t : list TrailPoint) : list TrailPoint :=
  evict (map (fade fs) (t ++ [{| tp_x := x0; tp_y := y0; life := 1.0 |}])).

Definition integrate (dt0 : float) (p : Planet) : Planet :=
  let x' := x p + vel_x (velocity p) * dt0 in
  let y' := y p + vel_y (velocity p) * dt0 in
  setPositionTrail x' y' (maintainTrail x' y' (fadeSpeed p) (trail p)) p.

Definition update (this : ref) (w : World) : World :=
  let w := update_loop (length (planets w)) this 0 w in
  match heap w !! this with
  | Some p => setHeap (<[this := integrate (dt w) p]> (heap w)) w
  | None => w
  end.

(** ** getMostMassivePlanet ([main.ts] lines 29-31) *)

(** The reducer [(max, p) => (p.mass > max.mass ? p : max)]. *)
Definition heavier (h : list Planet) (max p : ref) : ref :=
  match h !! p, h !! max with
  | Some pp, Some pm => if mass pm <? mass pp then p else max
  | _, _ => max
  end.

(** [planets.reduce(..., planets[0])]: on an empty array the initial value
    [planets[0]] is [undefined] and is returned as it is. *)
Definition getMostMassivePlanet (w : World) : option ref :=
  match planets w !! 0%nat with
  | None => None
  | Some p0 => Some (fold_left (heavier (heap w)) (planets w) p0)
  end.

(** ** animate ([main.ts] lines 101-110) *)

Inductive Completion := Normal | TypeError.

(** [for (let i = 0; i < planets.length; i++) { planets[i].update();
    planets[i].draw(); }].  [planets[i]] is read again for [draw]: when
    [update] has shortened the array below [i + 1] it is [undefined] and the
    call throws.  [draw] itself only paints (the array is not empty when it
    runs, so its anchor lookup succeeds) and leaves the world as it is. *)
Fixpoint animate_loop (fuel : nat) (i : nat) (w : World) : Completion * World :=
  match fuel with
  | O => (Normal, w)
  | S fuel' =>
      match planets w !! i with
      | None => (Normal, w)
      | Some p =>
          let w := update p w in
          match planets w !! i with
          | None => (TypeError, w)
          | Some _ => animate_loop fuel' (S i) w
          end
      end
  end.

Definition animate (w : World) : Completion * World :=
  if isPaused w then (Normal, w)
  else animate_loop (length (planets w)) 0 w.

End Simulation.

(** ** The spawn button's click handler ([main.ts] lines 253-288) *)

(** The parsed input fields and the colour [generateRandomColor] drew. *)
Record SpawnInput := mkSpawnInput {
  in_mass : float;
  in_radius : float;
  in_velocityX : float;
  in_velocityY : float;
  in_distancePx : float;
  in_name : string;
  in_color : string
}.

Definition spawnPlanet (i : SpawnInput) (w : World) : World :=
  if (isNaN (in_mass i) || isNaN (in_radius i) || isNaN (in_velocityX i)
      || isNaN (in_velocityY i) || isNaN (in_distancePx i))%bool
  then logMessage MsgInvalidInput w
  else
    let centerPlanet := getMostMassivePlanet w in
    let distanceFromCenter := in_distancePx i * distanceScale in
    let posX := match centerPlanet ≫= (fun c => heap w !! c) with
                | Some c => x c + distanceFromCenter
                | None => canvasWidth w / 2 + distanceFromCenter
                end in
    let posY := match centerPlanet ≫= (fun c => heap w !! c) with
                | Some c => y c
                | None => canvasHeight w / 2
                end in
    let p := newPlanet posX posY (in_radius i) (in_color i) (in_mass i)
               {| vel_x := in_velocityX i; vel_y := in_velocityY i |} (in_name i) in
    let r : ref := length (heap w) in
    let w' := setPlanets (planets w ++ [r]) (setHeap (heap w ++ [p]) w) in
    match centerPlanet ≫= (fun c => heap w !! c) with
    | Some c => logMessage (MsgSpawned (name p) (in_distancePx i) distanceFromCenter (name c)) w'
    | None => logMessage MsgSpawnedCenter w'
    end.

(** ** spawnSolarSystem ([main.ts] lines 66-91) *)

Definition solarSystem : list Planet :=
  [ newPlanet 0 0 20 "yellow" 1.989e30 {| vel_x := 10000; vel_y := 0 |} "Sun";
    newPlanet 5.79e10 0 2 "gray" 3.285e23 {| vel_x := 0; vel_y := 47870 |} "Mercury";
    newPlanet 1.082e11 0 5 "orange" 4.867e24 {| vel_x := 0; vel_y := 35020 |} "Venus";
    newPlanet 1.496e11 0 5 "blue" 5.972e24 {| vel_x := 0; vel_y := 29780 |} "Earth";
    newPlanet 2.279e11 0 3 "red" 6.39e23 {| vel_x := 0; vel_y := 24070 |} "Mars" ].

Definition spawnSolarSystem (w : World) : World :=
  let r : ref := length (heap w) in
  logMessage MsgSolarSystem
    (setPlanets (seq r (length solarSystem)) (setHeap (heap w ++ solarSystem) w)).

(** ** The play/pause button ([main.ts] lines 242-247) *)

Definition togglePause (w : World) : World :=
  let paused := negb (isPaused w) in
  logMessage (if paused then MsgPaused else MsgResumed)
    {| heap := heap w; planets := planets w; dt := dt w; isPaused := paused;
       canvasWidth := canvasWidth w; canvasHeight := canvasHeight w;
       log := log w; calls := calls w |}.

(** ** Worlds the page can be in *)

(** The page starts with no planet.  Frames run [animate]; the buttons
    spawn planets and pause or resume.  The remaining handlers (reset,
    delete by click, time-step input, resize) never touch a [Planet]
    object: they drop entries of [planets] or change [dt], the canvas size
    or the log. *)
Inductive reachable (Math : MathLib) : World -> Prop :=
| reach_load (w : World) :
    heap w = [] -> planets w = [] -> reachable Math w
| reach_animate (w : World) :
    reachable Math w -> reachable Math (animate Math w).2
| reach_spawn (i : SpawnInput) (w : World) :
    reachable Math w -> reachable Math (spawnPlanet i w)
| reach_solar (w : World) :
    reachable Math w -> reachable Math (spawnSolarSystem w)
| reach_pause (w : World) :
    reachable Math w -> reachable Math (togglePause w)
| reach_controls (w w' : World) :
    reachable Math w -> heap w' = heap w -> sublist (planets w') (planets w) ->
    reachable Math w'.

(** ** Vocabulary of the properties *)

(** How many velocity updates [this] received from [other] in a call list. *)
Definition gravityUpdates (this other : ref) (cs : list Call) : nat :=
  count_occ Call_eq_dec cs (CallGravity this other).

(** The calls made during one tick started in [w]. *)
Definition tickCalls (Math : MathLib) (w : World) : list Call :=
  drop (length (calls w)) (calls (animate Math w).2).

(** Every pair of distinct bodies among [bodies] contributes exactly one
    velocity update to each member during the tick started in [w]. *)
Definition pairingExactOn (Math : MathLib) (w : World) (bodies : list ref) : Prop :=
  forall a b : ref, a ∈ bodies -> b ∈ bodies -> a <> b ->
    gravityUpdates a b (tickCalls Math w) = 1%nat.

(** The same for the bodies in the collection when the tick starts. *)
Definition pairingExact (Math : MathLib) (w : World) : Prop :=
  pairingExactOn Math w (planets w).

(** The calls of one pass of the loop body, of one [update] and (by
    [flat_map]) of one tick, over a collection that does not change. *)
Definition visitCalls (this other : ref) : list Call :=
  if Nat.eqb other this then [] else [CallGravity this other; CallCollision this other].

Definition updateCalls (ps : list ref) (this : ref) : list Call :=
  flat_map (visitCalls this) ps.

(** A call whose receiver and argument are two different objects. *)
Definition distinctCall (c : Call) : Prop :=
  match c with
  | CallGravity this other | CallCollision this other => this <> other
  end.

(** The life of a trail point that has been faded [k] times. *)
Definition lifeAfter (k : nat) : float := Nat.iter k (fun l => l - 0.005) 1.0.
Arguments lifeAfter : simpl never.

(** The lives of a trail holding the points of the last [n] updates, oldest
    first. *)
Fixpoint agedLives (n : nat) : list float :=
  match n with
  | O => []
  | S k => lifeAfter (S k) :: agedLives k
  end.

(** What holds of every [Planet] object the page ever creates: its fade
    speed is the constructor's, and its trail holds the points of its last
    [n] updates, none of them faded out. *)
Definition wellAged (p : Planet) : Prop :=
  fadeSpeed p = 0.005 /\ exists n : nat, (n <= 199)%nat /\ map life (trail p) = agedLives n.

Definition worldAged (w : World) : Prop := Forall wellAged (heap w).

(** [p'] is [p] up to its velocity. *)
Definition sameBody (p p' : Planet) : Prop := setVelocity (velocity p) p' = p.

(** *** Exact values of binary64 numbers *)

(** [2^e] as a rational. *)
Definition pow2 (e : Z) : Q := (2 ^ e)%Q.

(** The rational a binary64 number stands for; NaN and the infinities
    stand for none. *)
Definition SF2Q (f : spec_float) : option Q :=
  match f with
  | S754_zero _ => Some 0%Q
  | S754_finite s m e => Some (inject_Z (if s then Z.neg m else Z.pos m) * pow2 e)%Q
  | _ => None
  end.

Definition valueOf (a : float) : option Q := SF2Q (Prim2SF a).

(** Normal numbers: finite, not zero, with a full 53-bit significand. *)
Definition isNormal (a : float) : bool :=
  match classify a with PNormal | NNormal => true | _ => false end.

(** Finite and not zero. *)
Definition finiteNonzero (a : float) : bool := (is_finite a && negb (is_zero a))%bool.

(** [p] is within relative distance [tol] of [s], both read exactly. *)
Definition closeTo (tol : Q) (p s : float) : Prop :=
  exists vp vs : Q,
    valueOf p = Some vp /\ valueOf s = Some vs /\ (Qabs (vp - vs) <= tol * Qabs vp)%Q.

(** The sign bit as a factor. *)
Definition sgn (s : bool) : Q := if s then (-1)%Q else 1%Q.

(** What a shift record of the rounding specification ([SpecFloat]) stands
    for: [x] lies in [[m, m+1)], the round bit tells whether [x] has
    reached [m + 1/2], the sticky bit whether [x] is off both [m] and
    [m + 1/2]. *)
Definition repr (r : shr_record) (x : Q) : Prop :=
  (inject_Z (shr_m r) <= x)%Q /\ (x < inject_Z (shr_m r) + 1)%Q /\
  (shr_r r = true <-> (inject_Z (shr_m r) + (1#2) <= x)%Q) /\
  (shr_s r = false <-> (x == inject_Z (shr_m r) \/ x == inject_Z (shr_m r) + (1#2))%Q).

(** ** Sample worlds *)

(** The page as loaded, with an 800 x 600 canvas. *)
Definition emptyWorld : World :=
  {| heap := []; planets := []; dt := 86400; isPaused := false;
     canvasWidth := 800; canvasHeight := 600; log := []; calls := [] |}.

(** A request for a body at rest, of radius 1, [d] pixels from the anchor. *)
Definition atRest (d m : float) (n : string) : SpawnInput :=
  {| in_mass := m; in_radius := 1; in_velocityX := 0; in_velocityY := 0;
     in_distancePx := d; in_name := n; in_color := "white" |}.

(** The planet such a request creates at [(x0, 300)]. *)
Definition still (x0 m : float) (n : string) : Planet :=
  newPlanet x0 300 1 "white" m {| vel_x := 0; vel_y := 0 |} n.

(** Pause, spawn the requested planets, resume. *)
Definition spawnPaused (requests : list SpawnInput) : World :=
  togglePause (fold_left (fun w i => spawnPlanet i w) requests (togglePause emptyWorld)).

(** Three bodies on one spot, and four bodies on one spot. *)
Definition w3 : World :=
  spawnPaused [atRest 0 1 "X"; atRest 0 2 "Y"; atRest 0 4 "A"].
Definition w4 : World :=
  spawnPaused [atRest 0 1 "X"; atRest 0 2 "Y"; atRest 0 4 "A"; atRest 0 8 "D"].

(** Two touching bodies ([1e9] m apart, radius 1 each) and a third far
    away. *)
Definition wfar : World :=
  spawnPaused [atRest 0 4 "A"; atRest 1 2 "B"; atRest 1000 1 "C"].

(** Two bodies of radius 1 exactly [2e9] m apart, and a third far away. *)
Definition wboundary : World :=
  spawnPaused [atRest 0 4 "A"; atRest 2 2 "B"; atRest 1000 1 "C"].

(** Two bodies far apart. *)
Definition wapart : World := spawnPaused [atRest 0 4 "A"; atRest 1000 2 "B"].

(** Two bodies of masses 1 and 48 on one spot, the first moving at 1 m/s. *)
Definition moving : Planet :=
  newPlanet 400 300 1 "white" 1 {| vel_x := 1; vel_y := 0 |} "P".
Definition wmomentum : World :=
  spawnPaused [ {| in_mass := 1; in_radius := 1; in_velocityX := 1; in_velocityY := 0;
                   in_distancePx := 0; in_name := "P"; in_color := "white" |};
                atRest 0 48 "Q" ].

(** Two bodies of mass 1e300 on one spot, moving at 1e10 m/s in opposite
    directions. *)
Definition fast (v : float) (n : string) : SpawnInput :=
  {| in_mass := 1e300; in_radius := 1; in_velocityX := v; in_velocityY := 0;
     in_distancePx := 0; in_name := n; in_color := "white" |}.
Definition hurled (v : float) (n : string) : Planet :=
  newPlanet 400 300 1 "white" 1e300 {| vel_x := v; vel_y := 0 |} n.
Definition woverflow : World := spawnPaused [fast 1e10 "U"; fast (-1e10) "V"].

(** A spawn request with valid numbers. *)
Definition sampleInput : SpawnInput :=
  {| in_mass := 5e24; in_radius := 5; in_velocityX := 0; in_velocityY := 30000;
     in_distancePx := 150; in_name := "Earth"; in_color := "rgb(1,2,3)" |}.

(** A stand-in [Math], used only to instantiate general theorems at
    concrete inputs. *)
Definition sampleMath : MathLib :=
  {| Math_atan2 := fun _ _ => 0; Math_cos := fun _ => 1; Math_sin := fun _ => 0 |}.

(** One planet spawned into the empty page, after one frame. *)
Definition wframe : World := (animate sampleMath (spawnPlanet sampleInput emptyWorld)).2.

(** The world after [n] more frames. *)
Definition framesAfter (n : nat) (w : World) : World :=
  Nat.iter n (fun w' => (animate sampleMath w').2) w.

(** One planet spawned into the empty page, after 250 frames. *)
Definition wlong : World := framesAfter 250 (spawnPlanet sampleInput emptyWorld).

(** * The rest of the page *)

(** ** getDist ([main.ts] lines 14-18) *)

Record Point := mkPoint { pt_x : float; pt_y : float }.

Definition getDist (p1 p2 : Point) : float :=
  let dx := pt_x p1 - pt_x p2 in
  let dy := pt_y p1 - pt_y p2 in
  sqrt (dx * dx + dy * dy).

(** ** Planet.getPosition ([main.ts] lines 164-174) *)

(** The canvas position of [this] relative to the most massive planet.
    With no planet in the collection the anchor is [undefined] and reading
    [centerPlanet.x] throws: [None]. *)
Definition getPosition (this : Planet) (w : World) : option Point :=
  match getMostMassivePlanet w ≫= (fun c => heap w !! c) with
  | Some centerPlanet =>
      let relativeX := (x this - x centerPlanet) / distanceScale in
      let relativeY := (y this - y centerPlanet) / distanceScale in
      Some {| pt_x := canvasWidth w / 2 + relativeX;
              pt_y := canvasHeight w / 2 + relativeY |}
  | None => None
  end.

(** ** drawTrail ([main.ts] lines 43-64) *)

(** One stroked line of a trail: its end points on the canvas and the
    opacity of its [rgba(255, 255, 255, alpha)] stroke style. *)
Record Stroke := mkStroke {
  c1x : float; c1y : float; c2x : float; c2y : float; alpha : float
}.

(** The loop [for (let i = 0; i < planet.trail.length - 1; i++)] over
    consecutive trail points [p1 = trail[i]], [p2 = trail[i + 1]]. *)
Fixpoint trailStrokes (w : World) (centerPlanet : Planet) (t : list TrailPoint)
    : list Stroke :=
  match t with
  | p1 :: ((p2 :: _) as t') =>
      {| c1x := canvasWidth w / 2 + (tp_x p1 - x centerPlanet) / distanceScale;
         c1y := canvasHeight w / 2 + (tp_y p1 - y centerPlanet) / distanceScale;
         c2x := canvasWidth w / 2 + (tp_x p2 - x centerPlanet) / distanceScale;
         c2y := canvasHeight w / 2 + (tp_y p2 - y centerPlanet) / distanceScale;
         alpha := (life p1 + life p2) / 2 |}
      :: trailStrokes w centerPlanet t'
  | _ => []
  end.

(** The lines [drawTrail(planet, centerPlanet)] strokes, in order. *)
Definition drawTrail (w : World) (planet centerPlanet : Planet) : list Stroke :=
  if (length (trail planet) <? 2)%nat then []
  else trailStrokes w centerPlanet (trail planet).

(** ** deletePlanets ([main.ts] lines 33-41) *)

(** The paragraph [`Deleted planet ${name} at (${x}, ${y})`] the handler
    appends to the log. *)
Record Deleted := mkDeleted { del_name : string; del_x : float; del_y : float }.

(** The test of line 36 on [planets[i]]; [None] when reading the position
    throws. *)
Definition clicked (x0 y0 : float) (p : Planet) (w : World) : option bool :=
  match getPosition p w with
  | Some pos =>
      let distance := getDist {| pt_x := x0; pt_y := y0 |} pos in
      Some (distance <=? radius p + 10)
  | None => None
  end.

(** [for (let i = planets.length - 1; i >= 0; i--) { ... }], with [n = i + 1].
    After [planets.splice(i, 1)] the message reads [planets[i].name] again:
    that is the planet that followed the removed one, and [undefined] (a
    TypeError) when the removed one was the last.  The paragraphs appended
    to the log by this handler are returned next to the world, oldest
    first. *)
Fixpoint deleteLoop (x0 y0 : float) (n : nat) (w : World)
    : Completion * World * list Deleted :=
  match n with
  | O => (Normal, w, [])
  | S i =>
      match planets w !! i ≫= (fun r => heap w !! r) with
      | None => (TypeError, w, [])
      | Some p =>
          match clicked x0 y0 p w with
          | None => (TypeError, w, [])
          | Some false => deleteLoop x0 y0 i w
          | Some true =>
              let w := setPlanets (splice i 1 [] (planets w)) w in
              match planets w !! i ≫= (fun r => heap w !! r) with
              | None => (TypeError, w, [])
              | Some q =>
                  let '(c, w', msgs) := deleteLoop x0 y0 i w in
                  (c, w', {| del_name := name q; del_x := x0; del_y := y0 |} :: msgs)
              end
          end
      end
  end.

Definition deletePlanets (x0 y0 : float) (w : World) : Completion * World * list Deleted :=
  deleteLoop x0 y0 (length (planets w)) w.

(** ** Vocabulary of the further properties *)

(** The collection holds no body twice and only references to objects. *)
Definition wellFormed (w : World) : Prop :=
  NoDup (planets w) /\ Forall (fun r => r < length (heap w))%nat (planets w).

(** [p'] is the object [p] later on: what a [Planet] never changes. *)
Definition sameIdentity (p p' : Planet) : Prop :=
  mass p' = mass p /\ radius p' = radius p /\ name p' = name p /\
  color p' = color p /\ fadeSpeed p' = fadeSpeed p.

(** A body's life as a list of steps: its velocity is set, then it is
    integrated over a time step. *)
Definition lived (steps : list (Velocity * float)) (p : Planet) : Planet :=
  fold_left (fun q '(v, dt0) => integrate dt0 (setVelocity v q)) steps p.

(** The books of a step from [w] to [w']: every merge logs two messages
    and creates one object, and the collection shrinks, by at most one
    body per merge. *)
Definition accounted (w w' : World) : Prop :=
  (length (log w') + 2 * length (heap w) = length (log w) + 2 * length (heap w'))%nat /\
  (length (heap w) <= length (heap w'))%nat /\
  (length (planets w') <= length (planets w))%nat /\
  (length (planets w) <= length (planets w') + (length (heap w') - length (heap w)))%nat.

(** The opacities [drawTrail] computes from the lives along a trail. *)
Fixpoint alphas (lives : list float) : list float :=
  match lives with
  | l1 :: ((l2 :: _) as rest) => (l1 + l2) / 2 :: alphas rest
  | _ => []
  end.

(** An order-preserving key for binary64 values other than NaN: the class
    (infinities, negative, zero, positive), then exponent and mantissa. *)
Definition fkey (f : spec_float) : Z * Z * Z :=
  match f with
  | S754_zero _ => (0, 0, 0)%Z
  | S754_infinity s => (if s then -2 else 2, 0, 0)%Z
  | S754_nan => (0, 0, 0)%Z
  | S754_finite s m e => if s then (-1, - e, - Z.pos m)%Z else (1, e, Z.pos m)%Z
  end.

Definition klt (a b : Z * Z * Z) : Prop :=
  let '(c1, e1, m1) := a in
  let '(c2, e2, m2) := b in
  (c1 < c2 \/ (c1 = c2 /\ (e1 < e2 \/ (e1 = e2 /\ m1 < m2))))%Z.

Definition rank (a : float) : Z * Z * Z := fkey (Prim2SF a).

(** * Properties *)

(** ** Comparisons of binary64 values *)

Lemma SFcompare_antisym (a b : spec_float) :
  SFcompare b a = option_map CompOpp (SFcompare a b).
Proof.
  destruct a as [sa|sa| |sa ma ea], b as [sb|sb| |sb mb eb]; simpl;
    try reflexivity;
    try (destruct sa; reflexivity); try (destruct sb; reflexivity);
    try (destruct sa, sb; reflexivity).
  destruct sa, sb; simpl; try reflexivity;
    rewrite (Z.compare_antisym ea eb);
    destruct (ea ?= eb)%Z; simpl; try reflexivity;
    change (Pos.compare_cont Eq mb ma) with (mb ?= ma)%positive;
    change (Pos.compare_cont Eq ma mb) with (ma ?= mb)%positive;
    rewrite (Pos.compare_antisym ma mb);
    destruct (ma ?= mb)%positive; reflexivity.
Qed.

Lemma float_eqb_leb (a b : float) : (a =? b) = true -> (a <=? b) = true.
Proof.
  rewrite FloatAxioms.eqb_spec, FloatAxioms.leb_spec. unfold SFeqb, SFleb.
  destruct (SFcompare _ _) as [[]|]; congruence.
Qed.

Lemma float_ltb_not_leb (a b : float) : (a <? b) = true -> (b <=? a) = false.
Proof.
  rewrite FloatAxioms.ltb_spec, FloatAxioms.leb_spec. unfold SFltb, SFleb.
  rewrite (SFcompare_antisym (Prim2SF a) (Prim2SF b)).
  destruct (SFcompare _ _) as [[]|]; simpl; congruence.
Qed.

(** ** Array operations *)

Lemma indexOfFrom_spec (r : ref) (l : list ref) (i : Z) :
  ((r ∉ l) /\ indexOfFrom r l i = (-1)%Z) \/
  (exists n : nat, indexOfFrom r l i = (i + Z.of_nat n)%Z /\ l !! n = Some r /\ r ∉ take n l).
Proof.
  revert i. induction l as [|h t IH]; intros i; simpl.
  - left. split; [apply not_elem_of_nil | reflexivity].
  - destruct (Nat.eqb_spec h r) as [->|Hne].
    + right. exists 0%nat. simpl. repeat split; [lia | apply not_elem_of_nil].
    + destruct (IH (i + 1)%Z) as [[Hni Heq] | (n & Heq & Hl & Hni)].
      * left. split; [|exact Heq]. rewrite not_elem_of_cons. split; congruence.
      * right. exists (S n). simpl. repeat split; [lia | exact Hl |].
        rewrite not_elem_of_cons. split; congruence.
Qed.

Lemma indexOf_absent (r : ref) (l : list ref) : r ∉ l -> indexOf r l = (-1)%Z.
Proof.
  intros Hni. unfold indexOf.
  destruct (indexOfFrom_spec r l 0) as [[_ H] | (n & _ & Hl & _)]; [exact H|].
  exfalso. apply Hni. eapply list_elem_of_lookup_2, Hl.
Qed.

Lemma indexOf_present (r : ref) (l : list ref) :
  r ∈ l ->
  exists n : nat, indexOf r l = Z.of_nat n /\ l !! n = Some r /\ r ∉ take n l.
Proof.
  intros Hin. unfold indexOf.
  destruct (indexOfFrom_spec r l 0) as [[Hni _] | (n & Heq & Hl & Hni)]; [contradiction|].
  exists n. repeat split; [rewrite Heq; lia | exact Hl | exact Hni].
Qed.

Lemma indexOf_cases (r : ref) (l : list ref) :
  (indexOf r l = (-1)%Z /\ r ∉ l) \/
  (exists n : nat, indexOf r l = Z.of_nat n /\ l !! n = Some r /\ r ∉ take n l).
Proof.
  destruct (decide (r ∈ l)) as [Hin|Hni].
  - right. apply indexOf_present, Hin.
  - left. split; [apply indexOf_absent, Hni | exact Hni].
Qed.

Lemma splice_length_remove (n : nat) (l : list ref) :
  (n < length l)%nat -> length (splice n 1 [] l) = (length l - 1)%nat.
Proof.
  intros H. unfold splice. rewrite !length_app, length_take, length_drop. simpl. lia.
Qed.

Lemma splice_length_replace (n : nat) (f : ref) (l : list ref) :
  length (splice n 1 [f] l) = (if decide (n < length l)%nat then length l else S (length l)).
Proof.
  unfold splice. rewrite !length_app, length_take, length_drop. simpl.
  destruct (decide _); lia.
Qed.

Lemma splice_elem_inserted (n : nat) (f : ref) (l : list ref) : f ∈ splice n 1 [f] l.
Proof. unfold splice. rewrite !elem_of_app, list_elem_of_singleton. auto. Qed.

Lemma splice_subset (n d : nat) (items l : list ref) (r : ref) :
  r ∈ splice n d items l -> r ∈ items \/ r ∈ l.
Proof.
  unfold splice. rewrite !elem_of_app. intros [H | [H | H]]; auto.
  - right. eapply subseteq_take, H.
  - right. eapply subseteq_drop, H.
Qed.

Lemma NoDup_lookup_not_after (l : list ref) (n : nat) (r : ref) :
  NoDup l -> l !! n = Some r -> (r ∉ take n l) /\ (r ∉ drop (S n) l).
Proof.
  intros Hnd Hl. rewrite <- (take_drop_middle l n r Hl) in Hnd.
  apply NoDup_app in Hnd as (_ & Hdisj & Hnd2).
  apply NoDup_cons in Hnd2 as [Hni _].
  split; [|exact Hni].
  intros Hin. apply (Hdisj r Hin). apply list_elem_of_here.
Qed.

(** [indexOf] returned the index [n]: the guard [index > -1] holds. *)
Ltac index_found n :=
  replace (Z.of_nat n >? -1)%Z with true by (symmetry; apply Z.gtb_lt; lia);
  rewrite ?Nat2Z.id.

(** ** checkCollision, branch by branch *)

Lemma checkCollision_miss (w : World) (this other : ref) (a b : Planet) :
  heap w !! this = Some a -> heap w !! other = Some b -> collides a b = false ->
  checkCollision this other w = recordCall (CallCollision this other) w.
Proof.
  intros Ha Hb Hc. unfold checkCollision. rewrite Ha, Hb. simpl. rewrite Hc. reflexivity.
Qed.

Lemma checkCollision_hit (w : World) (this other : ref) (a b : Planet) :
  heap w !! this = Some a -> heap w !! other = Some b -> collides a b = true ->
  heap (checkCollision this other w) = heap w ++ [fusedPlanet a b] /\
  log (checkCollision this other w)
    = log w ++ [MsgCollision (name a) (name b); MsgNewPlanet (mass (fusedPlanet a b))] /\
  calls (checkCollision this other w) = calls w ++ [CallCollision this other] /\
  dt (checkCollision this other w) = dt w /\
  isPaused (checkCollision this other w) = isPaused w /\
  planets (checkCollision this other w)
    = (let ps := if (indexOf other (planets w) >? -1)%Z
                 then splice (Z.to_nat (indexOf other (planets w))) 1 [] (planets w)
                 else planets w in
       if (indexOf this (planets w) >? -1)%Z
       then splice (Z.to_nat (indexOf this (planets w))) 1 [length (heap w)] ps
       else ps).
Proof.
  intros Ha Hb Hc. unfold checkCollision. rewrite Ha, Hb. simpl. rewrite Hc.
  destruct (indexOf other (planets w) >? -1)%Z, (indexOf this (planets w) >? -1)%Z;
    simpl; rewrite <- ?app_assoc; repeat split; reflexivity.
Qed.

Lemma checkCollision_removes_other (w : World) (this other : ref) (a b : Planet) :
  heap w !! this = Some a -> heap w !! other = Some b -> collides a b = true ->
  NoDup (planets w) -> other ∉ planets (checkCollision this other w).
Proof.
  intros Ha Hb Hc Hnd.
  destruct (checkCollision_hit w this other a b Ha Hb Hc) as (_ & _ & _ & _ & _ & ->).
  assert (Hlt : (other < length (heap w))%nat) by (eapply lookup_lt_Some, Hb).
  assert (Hps : other ∉ (if (indexOf other (planets w) >? -1)%Z
                 then splice (Z.to_nat (indexOf other (planets w))) 1 [] (planets w)
                 else planets w)).
  { destruct (indexOf_cases other (planets w)) as [[-> Hni] | (n & -> & Hl & _)].
    - simpl. exact Hni.
    - index_found n. unfold splice. simpl.
      destruct (NoDup_lookup_not_after _ _ _ Hnd Hl) as [H1 H2].
      rewrite elem_of_app. replace (n + 1)%nat with (S n) by lia. tauto. }
  simpl. destruct (indexOf this (planets w) >? -1)%Z; [|exact Hps].
  intros Hin. apply splice_subset in Hin as [Hin | Hin]; [|contradiction].
  apply list_elem_of_singleton in Hin. lia.
Qed.

Lemma checkCollision_inserts_fused (w : World) (this other : ref) (a b : Planet) :
  heap w !! this = Some a -> heap w !! other = Some b -> collides a b = true ->
  this ∈ planets w -> length (heap w) ∈ planets (checkCollision this other w).
Proof.
  intros Ha Hb Hc Hin.
  destruct (checkCollision_hit w this other a b Ha Hb Hc) as (_ & _ & _ & _ & _ & ->).
  destruct (indexOf_present this (planets w) Hin) as (n & -> & _ & _).
  index_found n. simpl. apply splice_elem_inserted.
Qed.

(** ** Rounding of binary64 multiplication and division *)

Lemma pow2_pos (e : Z) : (0 < pow2 e)%Q.
Proof. apply Qpower_0_lt. reflexivity. Qed.

Lemma pow2_add (a b : Z) : (pow2 (a + b) == pow2 a * pow2 b)%Q.
Proof. apply Qpower_plus. discriminate. Qed.

Lemma pow2_succ (e : Z) : (pow2 (e + 1) == 2 * pow2 e)%Q.
Proof. rewrite pow2_add. unfold pow2 at 2. rewrite Qpower_1_r. ring. Qed.

Lemma pow2_le (a b : Z) : (a <= b)%Z -> (pow2 a <= pow2 b)%Q.
Proof. intros H. apply Qpower_le_compat_l; [exact H|]. discriminate. Qed.

Lemma pow2_Z (n : Z) : (0 <= n)%Z -> (inject_Z (2 ^ n) == pow2 n)%Q.
Proof. intros H. apply Zpower_Qpower, H. Qed.

Lemma digits2_bounds (p : positive) :
  (2 ^ (Z.pos (digits2_pos p) - 1) <= Z.pos p < 2 ^ Z.pos (digits2_pos p))%Z.
Proof.
  induction p as [p IH|p IH|]; simpl digits2_pos.
  - rewrite Pos2Z.inj_succ.
    replace (Z.succ (Z.pos (digits2_pos p)) - 1)%Z with (Z.succ (Z.pos (digits2_pos p) - 1))%Z by lia.
    rewrite !Z.pow_succ_r by lia. lia.
  - rewrite Pos2Z.inj_succ.
    replace (Z.succ (Z.pos (digits2_pos p)) - 1)%Z with (Z.succ (Z.pos (digits2_pos p) - 1))%Z by lia.
    rewrite !Z.pow_succ_r by lia. lia.
  - simpl. lia.
Qed.

Lemma Zdigits2_bound (m : Z) : (0 <= m)%Z -> (m < 2 ^ Zdigits2 m)%Z.
Proof.
  intros H. destruct m as [|p|p]; [simpl; lia| |lia].
  apply digits2_bounds.
Qed.

Lemma Zdigits2_le (m k : Z) : (0 <= k)%Z -> (0 <= m < 2 ^ k)%Z -> (Zdigits2 m <= k)%Z.
Proof.
  intros Hk [H0 H]. destruct m as [|p|p]; [simpl; lia| |lia].
  simpl. pose proof (digits2_bounds p) as [Hl _].
  destruct (Z_lt_le_dec k (Z.pos (digits2_pos p))) as [Hlt|]; [|lia].
  assert (2 ^ k <= 2 ^ (Z.pos (digits2_pos p) - 1))%Z by (apply Z.pow_le_mono_r; lia).
  lia.
Qed.

Lemma Zdigits2_ge (m k : Z) : (0 <= k)%Z -> (2 ^ k <= m)%Z -> (k < Zdigits2 m)%Z.
Proof.
  intros Hk H.
  assert (0 < 2 ^ k)%Z by (apply Z.pow_pos_nonneg; lia).
  pose proof (Zdigits2_bound m ltac:(lia)) as Hb.
  destruct (Z_lt_le_dec k (Zdigits2 m)) as [|Hle]; [assumption|].
  assert (2 ^ Zdigits2 m <= 2 ^ k)%Z.
  { apply Z.pow_le_mono_r; [lia|]. exact Hle. }
  lia.
Qed.

Lemma inject_xO (p : positive) : (inject_Z (Z.pos p~0) == 2 * inject_Z (Z.pos p))%Q.
Proof. rewrite Pos2Z.inj_xO, inject_Z_mult. reflexivity. Qed.

Lemma inject_xI (p : positive) : (inject_Z (Z.pos p~1) == 2 * inject_Z (Z.pos p) + 1)%Q.
Proof. rewrite Pos2Z.inj_xI, inject_Z_plus, inject_Z_mult. reflexivity. Qed.

Lemma repr_nonneg (r : shr_record) (x : Q) : (0 <= x)%Q -> repr r x -> (0 <= shr_m r)%Z.
Proof.
  intros Hx (_ & H & _).
  destruct (Z_lt_le_dec (shr_m r) 0) as [Hneg|]; [|assumption].
  assert (shr_m r + 1 <= 0)%Z as Hle by lia.
  rewrite Zle_Qle, inject_Z_plus in Hle. change (inject_Z 1) with 1%Q in Hle.
  change (inject_Z 0) with 0%Q in Hle. lra.
Qed.

Ltac bool_facts :=
  repeat match goal with
  | H : true = true <-> ?A |- _ =>
      assert A by (apply H; reflexivity); clear H
  | H : false = false <-> ?A |- _ =>
      assert A by (apply H; reflexivity); clear H
  | H : false = true <-> ?A |- _ =>
      assert (~ A) by (let HA := fresh in intros HA; apply H in HA; discriminate); clear H
  | H : true = false <-> ?A |- _ =>
      assert (~ A) by (let HA := fresh in intros HA; apply H in HA; discriminate); clear H
  end.

Ltac bool_goal :=
  match goal with
  | |- true = true <-> _ => split; [intros _|reflexivity]
  | |- false = false <-> _ => split; [intros _|reflexivity]
  | |- false = true <-> _ => split; [discriminate|let H := fresh in intros H; exfalso]
  | |- true = false <-> _ => split; [discriminate|let H := fresh in intros H; exfalso]
  end.

Lemma repr_shr_1 (r : shr_record) (x : Q) :
  (0 <= x)%Q -> repr r x -> repr (shr_1 r) (x * (1#2))%Q.
Proof.
  intros Hx Hr. pose proof (repr_nonneg r x Hx Hr) as Hm.
  destruct r as [m rb sb]. unfold repr in *. simpl shr_m in *. simpl shr_r in *.
  simpl shr_s in *. destruct Hr as (H1 & H2 & H3 & H4).
  destruct m as [|[p|p|]|p]; try lia; simpl shr_1; cbn [shr_m shr_r shr_s];
    try pose proof (inject_xI p) as EI; try pose proof (inject_xO p) as EO;
    change (inject_Z 0) with 0%Q in *; change (inject_Z 1) with 1%Q in *;
    destruct rb, sb; simpl orb; bool_facts;
    refine (conj _ (conj _ (conj _ _))); try bool_goal; lra.
Qed.

Lemma repr_compat (r : shr_record) (x y : Q) : (x == y)%Q -> repr r x -> repr r y.
Proof.
  intros E (H1 & H2 & H3 & H4). unfold repr.
  rewrite <- E. repeat split; try assumption; try apply H3; try apply H4.
Qed.

Lemma repr_iter (p : positive) (r : shr_record) (x : Q) :
  (0 <= x)%Q -> repr r x -> repr (SpecFloat.iter_pos shr_1 p r) (x * pow2 (Z.neg p))%Q.
Proof.
  revert r x. induction p as [p IH|p IH|]; intros r x Hx Hr; simpl SpecFloat.iter_pos.
  - assert (Hp : (0 < pow2 (Z.neg p))%Q) by apply pow2_pos.
    assert (H1 : (0 <= x * (1#2))%Q) by lra.
    assert (H2 : (0 <= x * (1#2) * pow2 (Z.neg p))%Q) by nra.
    apply (repr_compat _ (x * (1#2) * pow2 (Z.neg p) * pow2 (Z.neg p))%Q).
    + replace (Z.neg p~1) with (Z.neg p + Z.neg p + (-1))%Z by lia.
      rewrite !pow2_add. change (pow2 (-1)) with (1#2)%Q. ring.
    + apply IH; [exact H2|]. apply IH; [exact H1|]. apply repr_shr_1; assumption.
  - assert (Hp : (0 < pow2 (Z.neg p))%Q) by apply pow2_pos.
    assert (H2 : (0 <= x * pow2 (Z.neg p))%Q) by nra.
    apply (repr_compat _ (x * pow2 (Z.neg p) * pow2 (Z.neg p))%Q).
    + replace (Z.neg p~0) with (Z.neg p + Z.neg p)%Z by lia.
      rewrite !pow2_add. ring.
    + apply IH; [exact H2|]. apply IH; assumption.
  - apply (repr_compat _ (x * (1#2))%Q); [reflexivity|].
    apply repr_shr_1; assumption.
Qed.

Lemma repr_round (r : shr_record) (x : Q) :
  repr r x ->
  (inject_Z (round_nearest_even (shr_m r) (loc_of_shr_record r)) - x <= 1#2)%Q /\
  (x - inject_Z (round_nearest_even (shr_m r) (loc_of_shr_record r)) <= 1#2)%Q /\
  (shr_m r <= round_nearest_even (shr_m r) (loc_of_shr_record r) <= shr_m r + 1)%Z.
Proof.
  destruct r as [m rb sb]. unfold repr. cbn [shr_m shr_r shr_s].
  intros (H1 & H2 & H3 & H4).
  assert (E : (inject_Z (m + 1) == inject_Z m + 1)%Q) by (rewrite inject_Z_plus; reflexivity).
  destruct rb, sb; simpl; bool_facts; try destruct (Z.even m);
    try rewrite E; (split; [lra|]); (split; [lra|lia]).
Qed.

Lemma repr_of_loc_m (m : Z) (l : location) : shr_m (shr_record_of_loc m l) = m.
Proof. destruct l as [|[| |]]; reflexivity. Qed.

Lemma repr_exact (m : Z) : repr (shr_record_of_loc m loc_Exact) (inject_Z m).
Proof.
  unfold repr. simpl. repeat split; try lra; try discriminate.
Qed.

Lemma fexp_eq (e : Z) : fexp prec emax e = Z.max (e - 53) (-1074).
Proof. reflexivity. Qed.

Lemma shr_fexp_spec (m0 e0 : Z) (l0 : location) (x : Q) :
  (0 <= x)%Q -> repr (shr_record_of_loc m0 l0) x ->
  repr (shr_fexp prec emax m0 e0 l0).1 (x * pow2 (e0 - (shr_fexp prec emax m0 e0 l0).2))%Q /\
  (e0 <= (shr_fexp prec emax m0 e0 l0).2)%Z /\
  (fexp prec emax (Zdigits2 m0 + e0) <= (shr_fexp prec emax m0 e0 l0).2)%Z /\
  ((fexp prec emax (Zdigits2 m0 + e0) <= e0)%Z ->
   shr_fexp prec emax m0 e0 l0 = (shr_record_of_loc m0 l0, e0)).
Proof.
  intros Hx Hr. unfold shr_fexp, shr.
  destruct (fexp prec emax (Zdigits2 m0 + e0) - e0)%Z as [|p|p] eqn:En; cbn [fst snd].
  - split; [|split; [lia|split; [lia|reflexivity]]].
    apply (repr_compat _ x); [|exact Hr].
    rewrite Z.sub_diag. change (pow2 0) with 1%Q. ring.
  - split; [|split; [lia|split; [lia|intros; lia]]].
    replace (e0 - (e0 + Z.pos p))%Z with (Z.neg p) by lia.
    apply repr_iter; assumption.
  - split; [|split; [lia|split; [lia|reflexivity]]].
    apply (repr_compat _ x); [|exact Hr].
    rewrite Z.sub_diag. change (pow2 0) with 1%Q. ring.
Qed.

Lemma Qabs_bound (u c : Q) : (- c <= u)%Q -> (u <= c)%Q -> (Qabs u <= c)%Q.
Proof. intros H1 H2. apply Qabs_Qle_condition. split; assumption. Qed.

Lemma binary_round_aux_spec (s : bool) (m0 e0 : Z) (l0 : location) (x : Q)
    (s' : bool) (m' : positive) (e' : Z) :
  (0 <= x)%Q -> repr (shr_record_of_loc m0 l0) x ->
  binary_round_aux prec emax s m0 e0 l0 = S754_finite s' m' e' ->
  s' = s /\
  (Qabs (inject_Z (Z.pos m') * pow2 e' - x * pow2 e0) <= (1#2) * pow2 e')%Q.
Proof.
  intros Hx Hr. unfold binary_round_aux.
  destruct (shr_fexp_spec m0 e0 l0 x Hx Hr) as (Hr1 & He1 & Hf1 & _).
  destruct (shr_fexp prec emax m0 e0 l0) as [mrs1 e1]. cbn [fst snd] in *.
  set (y := (x * pow2 (e0 - e1))%Q) in *.
  assert (Hy : (0 <= y)%Q).
  { unfold y. pose proof (pow2_pos (e0 - e1)). nra. }
  assert (Hxy : (x * pow2 e0 == y * pow2 e1)%Q).
  { unfold y. rewrite <- Qmult_assoc, <- pow2_add.
    replace (e0 - e1 + e1)%Z with e0 by lia. reflexivity. }
  pose proof (repr_nonneg _ _ Hy Hr1) as Hm1.
  assert (Hm0 : (0 <= m0)%Z).
  { pose proof (repr_nonneg _ _ Hx Hr) as H. rewrite repr_of_loc_m in H. exact H. }
  (* the truncated mantissa has at most 53 bits *)
  assert (Hlt : (shr_m mrs1 < 2 ^ 53)%Z).
  { pose proof (Zdigits2_bound m0 Hm0) as Hd.
    assert (Hd0 : (0 <= Zdigits2 m0)%Z) by (destruct m0; simpl; lia).
    assert (Hx2 : (x < pow2 (Zdigits2 m0))%Q).
    { destruct Hr as (_ & Hr & _). rewrite repr_of_loc_m in Hr.
      assert (H : (m0 + 1 <= 2 ^ Zdigits2 m0)%Z) by lia.
      rewrite Zle_Qle, inject_Z_plus, pow2_Z in H by exact Hd0.
      change (inject_Z 1) with 1%Q in H. lra. }
    assert (Hy2 : (y < pow2 53)%Q).
    { assert (H : (pow2 (Zdigits2 m0) * pow2 (e0 - e1) <= pow2 53)%Q).
      { rewrite <- pow2_add. apply pow2_le. rewrite fexp_eq in Hf1. lia. }
      pose proof (pow2_pos (e0 - e1)). unfold y. nra. }
    pose proof Hr1 as (Hr1a & _).
    rewrite <- pow2_Z in Hy2 by lia.
    rewrite Zlt_Qlt. lra. }
  destruct (repr_round mrs1 y Hr1) as (Hup & Hdn & Hm2).
  set (m2 := round_nearest_even (shr_m mrs1) (loc_of_shr_record mrs1)) in *.
  assert (He1min : (-1074 <= e1)%Z) by (rewrite fexp_eq in Hf1; lia).
  destruct (Z_lt_le_dec m2 (2 ^ 53)) as [Hsmall|Hbig].
  - (* no carry: the second shift does nothing *)
    assert (Hd2 : (Zdigits2 m2 <= 53)%Z) by (apply Zdigits2_le; lia).
    assert (Hno : shr_fexp prec emax m2 e1 loc_Exact = (shr_record_of_loc m2 loc_Exact, e1)).
    { apply (shr_fexp_spec m2 e1 loc_Exact (inject_Z m2)).
      - rewrite <- (Zle_Qle 0). lia.
      - apply repr_exact.
      - rewrite fexp_eq. lia. }
    rewrite Hno. cbn [shr_m shr_record_of_loc].
    destruct m2 as [|p|p] eqn:Em2; try discriminate.
    destruct (e1 <=? emax - prec)%Z; try discriminate.
    intros H. injection H as <- <- <-. split; [reflexivity|].
    rewrite Hxy. pose proof (pow2_pos e1).
    apply Qabs_bound; nra.
  - (* carry: the rounded mantissa is 2^53, shifted once, exactly *)
    assert (Em2 : m2 = (2 ^ 53)%Z) by lia.
    rewrite Em2 in *.
    assert (Hone : shr_fexp prec emax (2 ^ 53) e1 loc_Exact
                   = ({| shr_m := 2 ^ 52; shr_r := false; shr_s := false |}, (e1 + 1)%Z)).
    { unfold shr_fexp. change (Zdigits2 (2 ^ 53)) with 54%Z.
      rewrite fexp_eq. replace (Z.max (54 + e1 - 53) (-1074) - e1)%Z with 1%Z by lia.
      reflexivity. }
    rewrite Hone. cbn [shr_m].
    change (2 ^ 52)%Z with (Z.pos (2 ^ 52)).
    destruct (e1 + 1 <=? emax - prec)%Z; try discriminate.
    intros H. injection H as <- <- <-. split; [reflexivity|].
    rewrite Hxy, pow2_succ. pose proof (pow2_pos e1).
    change (inject_Z (2 ^ 53)) with (9007199254740992#1)%Q in *.
    change (inject_Z (Z.pos (2 ^ 52))) with (4503599627370496#1)%Q.
    apply Qabs_bound; nra.
Qed.

Lemma inject_signed (s : bool) (m : positive) :
  (inject_Z (if s then Z.neg m else Z.pos m) == sgn s * inject_Z (Z.pos m))%Q.
Proof.
  destruct s; simpl sgn; [|ring].
  change (Z.neg m) with (- Z.pos m)%Z. rewrite inject_Z_opp. ring.
Qed.

Lemma sgn_xorb (a b : bool) : (sgn (xorb a b) == sgn a * sgn b)%Q.
Proof. destruct a, b; reflexivity. Qed.

Lemma sgn_sqr (a : bool) : (sgn a * sgn a == 1)%Q.
Proof. destruct a; reflexivity. Qed.

Lemma Qabs_sgn (s : bool) (u : Q) : (Qabs (sgn s * u) == Qabs u)%Q.
Proof.
  destruct s; simpl sgn.
  - setoid_replace (-1 * u)%Q with (- u)%Q using relation Qeq by ring. apply Qabs_opp.
  - setoid_replace (1 * u)%Q with u using relation Qeq by ring. reflexivity.
Qed.

Lemma isNormal_spec (a : float) :
  isNormal a = true ->
  exists (s : bool) (m : positive) (e : Z),
    Prim2SF a = S754_finite s m e /\ (2 ^ 52 <= Z.pos m)%Z.
Proof.
  unfold isNormal. rewrite classify_spec. unfold SF64classify, SFclassify.
  destruct (Prim2SF a) as [[|]|[|]| |[|] m e]; try discriminate;
    destruct (Z.eqb_spec (Z.pos (digits2_pos m)) prec) as [E|]; try discriminate;
    intros _; eexists; exists m, e; (split; [reflexivity|]);
    pose proof (digits2_bounds m) as [H _]; rewrite E in H; exact H.
Qed.

Lemma half_ulp_normal (m : positive) (e : Z) :
  (2 ^ 52 <= Z.pos m)%Z ->
  ((1#2) * pow2 e <= (1 # 2 ^ 53) * (inject_Z (Z.pos m) * pow2 e))%Q.
Proof.
  intros H. rewrite Zle_Qle in H.
  change (inject_Z (2 ^ 52)) with (4503599627370496#1)%Q in H.
  pose proof (pow2_pos e).
  setoid_replace ((1 # 2 ^ 53) * (inject_Z (Z.pos m) * pow2 e))%Q
    with (((1 # 2 ^ 53) * inject_Z (Z.pos m)) * pow2 e)%Q using relation Qeq by ring.
  apply Qmult_le_compat_r; [|lra]. 
  change (1 # 2 ^ 53)%Q with (1 # 9007199254740992)%Q. lra.
Qed.

Lemma mul_rounding (a b : float) :
  isNormal (a * b) = true ->
  exists va vb vr : Q,
    valueOf a = Some va /\ valueOf b = Some vb /\ valueOf (a * b) = Some vr /\
    (Qabs (vr - va * vb) <= (1 # 2 ^ 53) * Qabs vr)%Q.
Proof.
  intros Hn. destruct (isNormal_spec _ Hn) as (s & m & e & E & Hm).
  unfold valueOf. rewrite E. pose proof (mul_spec a b) as Hs. rewrite E in Hs.
  unfold SF64mul, SFmul in Hs.
  destruct (Prim2SF a) as [sa|sa| |sa ma ea], (Prim2SF b) as [sb|sb| |sb mb eb];
    try discriminate Hs.
  symmetry in Hs.
  apply (binary_round_aux_spec _ _ _ _ (inject_Z (Z.pos (ma * mb)))) in Hs;
    [|rewrite <- (Zle_Qle 0); lia|apply repr_exact].
  destruct Hs as [-> Hs]. simpl SF2Q. do 3 eexists. repeat split.
  rewrite !inject_signed, sgn_xorb.
  set (A := (inject_Z (Z.pos m) * pow2 e)%Q) in *.
  assert (HA : (0 < A)%Q).
  { unfold A. pose proof (pow2_pos e).
    assert (0 < inject_Z (Z.pos m))%Q by (rewrite <- (Zlt_Qlt 0); lia). nra. }
  setoid_replace (sgn sa * sgn sb * inject_Z (Z.pos m) * pow2 e)%Q
    with (sgn sa * (sgn sb * A))%Q using relation Qeq by (unfold A; ring).
  setoid_replace (sgn sa * (sgn sb * A)
                  - sgn sa * inject_Z (Z.pos ma) * pow2 ea
                    * (sgn sb * inject_Z (Z.pos mb) * pow2 eb))%Q
    with (sgn sa * (sgn sb * (A - inject_Z (Z.pos (ma * mb)) * pow2 (ea + eb))))%Q using relation Qeq by (rewrite Pos2Z.inj_mul, inject_Z_mult, pow2_add; ring).
  rewrite !Qabs_sgn. rewrite (Qabs_pos A) by lra.
  pose proof (half_ulp_normal m e Hm). fold A in H. lra.
Qed.

Ltac repr_solve :=
  unfold repr; simpl; refine (conj _ (conj _ (conj _ _))); try bool_goal;
  try lra; try (left; lra); try (right; lra).

Lemma repr_fraction (q r d : Z) (l : location) :
  (0 <= r < d)%Z ->
  l = new_location d r ->
  repr (shr_record_of_loc q l) (inject_Z q + inject_Z r / inject_Z d)%Q.
Proof.
  intros [Hr0 Hrd] ->.
  assert (HD : (0 < inject_Z d)%Q) by (rewrite <- (Zlt_Qlt 0); lia).
  assert (HR : (0 <= inject_Z r)%Q) by (rewrite <- (Zle_Qle 0); lia).
  assert (HRD : (inject_Z r < inject_Z d)%Q) by (rewrite <- Zlt_Qlt; lia).
  set (f := (inject_Z r / inject_Z d)%Q).
  assert (Hf0 : (0 <= f)%Q) by (apply Qle_shift_div_l; [exact HD|lra]).
  assert (Hf1 : (f < 1)%Q) by (apply Qlt_shift_div_r; [exact HD|lra]).
  assert (Hfz : (r <> 0)%Z -> (0 < f)%Q).
  { intros Hz. apply Qlt_shift_div_l; [exact HD|].
    assert (0 < inject_Z r)%Q by (rewrite <- (Zlt_Qlt 0); lia). lra. }
  assert (Hlt : (2 * r < d)%Z -> (f < 1#2)%Q).
  { intros H. apply Qlt_shift_div_r; [exact HD|].
    rewrite Zlt_Qlt, inject_Z_mult in H. change (inject_Z 2) with 2%Q in H. lra. }
  assert (Heq : (2 * r = d)%Z -> (f == 1#2)%Q).
  { intros H. unfold f. rewrite <- H, inject_Z_mult. change (inject_Z 2) with 2%Q.
    field. rewrite <- H, inject_Z_mult in HD. change (inject_Z 2) with 2%Q in HD. lra. }
  assert (Hgt : (d < 2 * r)%Z -> (1#2 < f)%Q).
  { intros H. apply Qlt_shift_div_l; [exact HD|].
    rewrite Zlt_Qlt, inject_Z_mult in H. change (inject_Z 2) with 2%Q in H. lra. }
  unfold new_location.
  destruct (Z.even d) eqn:Ev; unfold new_location_even, new_location_odd;
    destruct (Z.eqb_spec r 0) as [Hz|Hz].
  - assert (Ef : (f == 0)%Q) by (unfold f; rewrite Hz; reflexivity). repr_solve.
  - specialize (Hfz Hz).
    destruct (Z.compare_spec (2 * r) d) as [H|H|H];
      [specialize (Heq H)|specialize (Hlt H)|specialize (Hgt H)]; repr_solve.
  - assert (Ef : (f == 0)%Q) by (unfold f; rewrite Hz; reflexivity). repr_solve.
  - specialize (Hfz Hz).
    assert (Hodd : (2 * r <> d)%Z).
    { intros H. rewrite <- H, Z.even_mul in Ev. discriminate Ev. }
    destruct (Z.compare_spec (2 * r + 1) d) as [H|H|H];
      [specialize (Hlt ltac:(lia))|specialize (Hlt ltac:(lia))|specialize (Hgt ltac:(lia))];
      repr_solve.
Qed.

Lemma div_core_spec (mx my : positive) (ex ey : Z) :
  exists X : Q,
    (0 <= X)%Q /\
    repr (shr_record_of_loc (SFdiv_core_binary prec emax (Z.pos mx) ex (Z.pos my) ey).1.1
                            (SFdiv_core_binary prec emax (Z.pos mx) ex (Z.pos my) ey).2) X /\
    (X * pow2 (SFdiv_core_binary prec emax (Z.pos mx) ex (Z.pos my) ey).1.2
       * (inject_Z (Z.pos my) * pow2 ey)
     == inject_Z (Z.pos mx) * pow2 ex)%Q.
Proof.
  unfold SFdiv_core_binary.
  set (e' := Z.min (fexp prec emax (Zdigits2 (Z.pos mx) + ex - (Zdigits2 (Z.pos my) + ey)))
                   (ex - ey)).
  set (s := (ex - ey - e')%Z).
  assert (Hs : (0 <= s)%Z) by (unfold s, e'; lia).
  set (m' := match s with Z.pos _ => Z.shiftl (Z.pos mx) s | 0%Z => Z.pos mx
                        | Z.neg _ => 0%Z end).
  assert (Em : m' = (Z.pos mx * 2 ^ s)%Z).
  { unfold m'. destruct s as [|p|p]; [simpl; lia| |lia].
    apply Z.shiftl_mul_pow2. lia. }
  pose proof (Z_div_mod m' (Z.pos my) ltac:(lia)) as Hdm.
  destruct (Z.div_eucl m' (Z.pos my)) as [q r]. destruct Hdm as [Hq Hr].
  cbn [fst snd].
  assert (HD : (0 < inject_Z (Z.pos my))%Q) by (rewrite <- (Zlt_Qlt 0); lia).
  assert (Hq0 : (0 <= q)%Z).
  { assert (0 <= m')%Z by (rewrite Em; apply Z.mul_nonneg_nonneg; [lia|apply Z.pow_nonneg; lia]).
    destruct (Z_lt_le_dec q 0); [|assumption]. nia. }
  exists (inject_Z q + inject_Z r / inject_Z (Z.pos my))%Q. split; [|split].
  - assert (0 <= inject_Z q)%Q by (rewrite <- (Zle_Qle 0); lia).
    assert (0 <= inject_Z r / inject_Z (Z.pos my))%Q.
    { apply Qle_shift_div_l; [exact HD|]. rewrite Qmult_0_l, <- (Zle_Qle 0). lia. }
    lra.
  - apply repr_fraction; [lia|reflexivity].
  - assert (E : ((inject_Z q + inject_Z r / inject_Z (Z.pos my)) * inject_Z (Z.pos my)
                 == inject_Z (Z.pos mx) * pow2 s)%Q).
    { rewrite <- pow2_Z by exact Hs. rewrite <- inject_Z_mult, <- Em, Hq.
      rewrite inject_Z_plus, inject_Z_mult. field. lra. }
    assert (Ee : (pow2 ex == pow2 s * pow2 e' * pow2 ey)%Q).
    { rewrite <- !pow2_add. replace (s + e' + ey)%Z with ex by (unfold s; lia). reflexivity. }
    rewrite Ee.
    transitivity ((inject_Z q + inject_Z r / inject_Z (Z.pos my)) * inject_Z (Z.pos my)
                  * (pow2 e' * pow2 ey))%Q; [ring|].
    rewrite E. ring.
Qed.

Lemma div_rounding (a b : float) :
  isNormal (a / b) = true ->
  exists va vb vq : Q,
    valueOf a = Some va /\ valueOf b = Some vb /\ valueOf (a / b) = Some vq /\
    (Qabs (vq * vb - va) <= (1 # 2 ^ 53) * Qabs (vq * vb))%Q.
Proof.
  intros Hn. destruct (isNormal_spec _ Hn) as (s & m & e & E & Hm).
  unfold valueOf. rewrite E. pose proof (div_spec a b) as Hs. rewrite E in Hs.
  unfold SF64div, SFdiv in Hs.
  destruct (Prim2SF a) as [sa|sa| |sa ma ea], (Prim2SF b) as [sb|sb| |sb mb eb];
    try discriminate Hs.
  destruct (div_core_spec ma mb ea eb) as (X & HX & Hrep & Hval).
  destruct (SFdiv_core_binary prec emax (Z.pos ma) ea (Z.pos mb) eb) as [[mz ez] lz].
  cbn [fst snd] in *. symmetry in Hs.
  apply (binary_round_aux_spec _ _ _ _ X) in Hs; [|exact HX|exact Hrep].
  destruct Hs as [-> Hs]. simpl SF2Q. do 3 eexists. repeat split.
  rewrite !inject_signed, sgn_xorb.
  set (A := (inject_Z (Z.pos m) * pow2 e)%Q) in *.
  set (Va := (inject_Z (Z.pos ma) * pow2 ea)%Q) in *.
  set (Vb := (inject_Z (Z.pos mb) * pow2 eb)%Q) in *.
  assert (HA : (0 < A)%Q).
  { unfold A. pose proof (pow2_pos e).
    assert (0 < inject_Z (Z.pos m))%Q by (rewrite <- (Zlt_Qlt 0); lia). nra. }
  assert (HVb : (0 < Vb)%Q).
  { unfold Vb. pose proof (pow2_pos eb).
    assert (0 < inject_Z (Z.pos mb))%Q by (rewrite <- (Zlt_Qlt 0); lia). nra. }
  pose proof (half_ulp_normal m e Hm) as Hh. fold A in Hh.
  apply Qabs_Qle_condition in Hs. destruct Hs as [Hs1 Hs2].
  assert (E1 : (sgn sa * sgn sb * inject_Z (Z.pos m) * pow2 e
                * (sgn sb * inject_Z (Z.pos mb) * pow2 eb)
                == sgn sa * (A * Vb))%Q).
  { transitivity (sgn sa * (sgn sb * sgn sb) * (A * Vb))%Q; [unfold A, Vb; ring|].
    rewrite sgn_sqr. ring. }
  assert (E2 : (sgn sa * sgn sb * inject_Z (Z.pos m) * pow2 e
                * (sgn sb * inject_Z (Z.pos mb) * pow2 eb)
                - sgn sa * inject_Z (Z.pos ma) * pow2 ea
                == sgn sa * (A * Vb - Va))%Q).
  { rewrite E1. unfold Va. ring. }
  rewrite E2, E1, !Qabs_sgn.
  assert (HAV : (0 < A * Vb)%Q) by nra.
  rewrite (Qabs_pos (A * Vb)) by lra.
  apply Qabs_bound; nra.
Qed.

Lemma div_mul_roundtrip (S M : float) :
  isNormal (S / M) = true -> isNormal (S / M * M) = true ->
  exists vs vr : Q,
    valueOf S = Some vs /\ valueOf (S / M * M) = Some vr /\
    (Qabs (vr - vs) <= (1 # 2 ^ 51) * Qabs vr)%Q.
Proof.
  intros Hq Hr.
  destruct (div_rounding S M Hq) as (vs & vm & vq & Es & Em & Eq & Hd).
  destruct (mul_rounding (S / M) M Hr) as (vq' & vm' & vr & Eq' & Em' & Er & Hm).
  rewrite Eq in Eq'. injection Eq' as <-. rewrite Em in Em'. injection Em' as <-.
  exists vs, vr. split; [exact Es|]. split; [exact Er|].
  set (t := (vq * vm)%Q) in *.
  assert (H1 : (Qabs (vr - vs) <= Qabs (vr - t) + Qabs (t - vs))%Q).
  { assert (E : (vr - vs == (vr - t) + (t - vs))%Q) by ring.
    rewrite E. apply Qabs_triangle. }
  assert (H2 : (Qabs t <= Qabs vr + Qabs (vr - t))%Q).
  { assert (E : (t == vr + (t - vr))%Q) by ring.
    rewrite E at 1. rewrite (Qabs_Qminus vr t). apply Qabs_triangle. }
  pose proof (Qabs_nonneg vr). pose proof (Qabs_nonneg t).
  change (1 # 2 ^ 53)%Q with (1 # 9007199254740992)%Q in *.
  change (1 # 2 ^ 51)%Q with (1 # 2251799813685248)%Q.
  lra.
Qed.

Lemma is_zero_spec (a : float) :
  is_zero a = true -> exists s : bool, Prim2SF a = S754_zero s.
Proof.
  unfold is_zero. rewrite FloatAxioms.eqb_spec.
  change (Prim2SF zero) with (S754_zero false).
  destruct (Prim2SF a) as [s|[|]| |[|] m e]; try discriminate.
  intros _. exists s. reflexivity.
Qed.

Lemma finiteNonzero_spec (a : float) :
  finiteNonzero a = true ->
  exists (s : bool) (m : positive) (e : Z), Prim2SF a = S754_finite s m e.
Proof.
  unfold finiteNonzero, is_finite, is_nan, is_infinity, is_zero.
  rewrite !FloatAxioms.eqb_spec, abs_spec.
  change (Prim2SF zero) with (S754_zero false).
  change (Prim2SF infinity) with (S754_infinity false).
  destruct (Prim2SF a) as [[|]|[|]| |s m e]; try discriminate.
  intros _. exists s, m, e. reflexivity.
Qed.

Lemma zero_roundtrip (S M : float) :
  is_zero S = true -> finiteNonzero M = true -> (S / M * M =? S) = true.
Proof.
  intros HS HM. destruct (is_zero_spec S HS) as (s & ES).
  destruct (finiteNonzero_spec M HM) as (sm & m & e & EM).
  rewrite FloatAxioms.eqb_spec, mul_spec, div_spec, ES, EM. reflexivity.
Qed.

(** ** Claims about a single merge and a single gravity step *)

(** C3. Whenever [checkCollision] merges [a] and [b], the body [c] it
    creates (and puts into the collection in [a]'s place when [a] is in it)
    has [c.mass = a.mass + b.mass], the sum the code computes. *)
Theorem merge_conserves_mass (w : World) (this other : ref) (a b : Planet) :
  heap w !! this = Some a -> heap w !! other = Some b -> collides a b = true ->
  exists c : Planet,
    heap (checkCollision this other w) = heap w ++ [c] /\
    mass c = mass a + mass b /\
    (this ∈ planets w -> length (heap w) ∈ planets (checkCollision this other w)).
Proof.
  intros Ha Hb Hc. exists (fusedPlanet a b).
  split; [apply (checkCollision_hit w this other a b Ha Hb Hc)|].
  split; [reflexivity|].
  apply (checkCollision_inserts_fused w this other a b Ha Hb Hc).
Qed.

Lemma merge_conserves_mass_witness :
  exists c : Planet,
    heap (checkCollision 0%nat 1%nat wfar) = heap wfar ++ [c] /\
    mass c = 4 + 2 /\
    (0%nat ∈ planets wfar ->
     length (heap wfar) ∈ planets (checkCollision 0%nat 1%nat wfar)).
Proof.
  apply (merge_conserves_mass wfar 0%nat 1%nat (still 400 4 "A") (still 1000000400 2 "B"));
    reflexivity.
Defined.

Lemma merge_1_48 :
  heap (checkCollision 0%nat 1%nat wmomentum) !! length (heap wmomentum)
  = Some (newPlanet 400 300 (sqrt 2) "white" 49
            {| vel_x := 1 / 49; vel_y := 0 |} "P+Q").
Proof. vm_compute. reflexivity. Qed.

Lemma merge_overflow :
  heap (checkCollision 0%nat 1%nat woverflow) !! length (heap woverflow)
  = Some (newPlanet 400 300 (sqrt 2) "white" 2e300
            {| vel_x := nan; vel_y := 0 |} "U+V").
Proof. vm_compute. reflexivity. Qed.

Lemma leb_nan (bound : float) : (nan <=? bound) = false.
Proof.
  rewrite FloatAxioms.leb_spec. change (Prim2SF nan) with S754_nan. reflexivity.
Qed.

(** C4, as stated, fails, and no tolerance repairs it for all inputs.
    First, with binary64 arithmetic the merged body's [velocity * mass]
    need not equal the summed momentum: masses 1 and 48 with velocities 1
    and 0 give [1/49*49 = 0.9999999999999999], not [1].  Second, two bodies
    of mass 1e300 moving at 1e10 and -1e10 (all finite, masses positive)
    merge into a body whose velocity is NaN, because the two products
    overflow to [+infinity] and [-infinity]; so the difference of the two
    sides is within no bound at all.  In exact arithmetic the merged
    velocity of these two bodies would be 0. *)
Lemma merge_momentum_fails :
  ~ (forall (w : World) (this other : ref) (a b c : Planet),
       heap w !! this = Some a -> heap w !! other = Some b ->
       collides a b = true ->
       (0 <? mass a) = true -> (0 <? mass b) = true ->
       heap (checkCollision this other w) !! length (heap w) = Some c ->
       (vel_x (velocity c) * mass c
          =? vel_x (velocity a) * mass a + vel_x (velocity b) * mass b) = true /\
       (vel_y (velocity c) * mass c
          =? vel_y (velocity a) * mass a + vel_y (velocity b) * mass b) = true) /\
  ~ (forall (w : World) (this other : ref) (a b c : Planet),
       heap w !! this = Some a -> heap w !! other = Some b ->
       collides a b = true ->
       (0 <? mass a) = true -> (0 <? mass b) = true ->
       (is_finite (mass a) && is_finite (mass b)
        && is_finite (vel_x (velocity a)) && is_finite (vel_x (velocity b)))%bool = true ->
       heap (checkCollision this other w) !! length (heap w) = Some c ->
       exists bound : float,
         (abs (vel_x (velocity c) * mass c
               - (vel_x (velocity a) * mass a + vel_x (velocity b) * mass b))
          <=? bound) = true) /\
  (exists va ma vb mb : Q,
     valueOf (vel_x (velocity (hurled 1e10 "U"))) = Some va /\
     valueOf (mass (hurled 1e10 "U")) = Some ma /\
     valueOf (vel_x (velocity (hurled (-1e10) "V"))) = Some vb /\
     valueOf (mass (hurled (-1e10) "V")) = Some mb /\
     (weightedMean va ma vb mb (ma + mb) == 0)%Q).
Proof.
  split; [|split].
  - intros H.
    specialize (H wmomentum 0%nat 1%nat moving (still 400 48 "Q") _
                  eq_refl eq_refl eq_refl eq_refl eq_refl merge_1_48).
    destruct H as [H _]. vm_compute in H. discriminate H.
  - intros H.
    specialize (H woverflow 0%nat 1%nat (hurled 1e10 "U") (hurled (-1e10) "V") _
                  eq_refl eq_refl eq_refl eq_refl eq_refl eq_refl merge_overflow).
    destruct H as [bound H].
    assert (E : abs (vel_x (velocity (newPlanet 400 300 (sqrt 2) "white" 2e300
                                        {| vel_x := nan; vel_y := 0 |} "U+V"))
                     * mass (newPlanet 400 300 (sqrt 2) "white" 2e300
                                        {| vel_x := nan; vel_y := 0 |} "U+V")
                     - (vel_x (velocity (hurled 1e10 "U")) * mass (hurled 1e10 "U")
                        + vel_x (velocity (hurled (-1e10) "V")) * mass (hurled (-1e10) "V")))
                 = nan) by (vm_compute; reflexivity).
    rewrite E, leb_nan in H. discriminate H.
  - do 4 eexists. do 4 (split; [reflexivity|]). vm_compute. reflexivity.
Qed.

(** C4, amended.  The merged body's mass is the binary64 sum of the two
    masses and its velocity is, per axis, the binary64 quotient of the
    summed momentum [a.v*a.m + b.v*b.m] (itself computed in binary64) by
    that mass.  Whenever the merged velocity and the merged body's
    [velocity * mass] are normal binary64 numbers, [velocity * mass] is
    within relative distance [2^-51] of the summed momentum; and whenever
    the summed momentum is zero and the merged mass finite and not zero,
    the two are equal. *)
Theorem merge_momentum_within_rounding
    (w : World) (this other : ref) (a b : Planet) :
  heap w !! this = Some a -> heap w !! other = Some b -> collides a b = true ->
  exists c : Planet,
    heap (checkCollision this other w) !! length (heap w) = Some c /\
    mass c = mass a + mass b /\
    vel_x (velocity c)
      = (vel_x (velocity a) * mass a + vel_x (velocity b) * mass b) / (mass a + mass b) /\
    vel_y (velocity c)
      = (vel_y (velocity a) * mass a + vel_y (velocity b) * mass b) / (mass a + mass b) /\
    (isNormal (vel_x (velocity c)) = true ->
     isNormal (vel_x (velocity c) * mass c) = true ->
     closeTo (1 # 2 ^ 51) (vel_x (velocity c) * mass c)
             (vel_x (velocity a) * mass a + vel_x (velocity b) * mass b)) /\
    (isNormal (vel_y (velocity c)) = true ->
     isNormal (vel_y (velocity c) * mass c) = true ->
     closeTo (1 # 2 ^ 51) (vel_y (velocity c) * mass c)
             (vel_y (velocity a) * mass a + vel_y (velocity b) * mass b)) /\
    (is_zero (vel_x (velocity a) * mass a + vel_x (velocity b) * mass b) = true ->
     finiteNonzero (mass c) = true ->
     (vel_x (velocity c) * mass c
        =? vel_x (velocity a) * mass a + vel_x (velocity b) * mass b) = true) /\
    (is_zero (vel_y (velocity a) * mass a + vel_y (velocity b) * mass b) = true ->
     finiteNonzero (mass c) = true ->
     (vel_y (velocity c) * mass c
        =? vel_y (velocity a) * mass a + vel_y (velocity b) * mass b) = true).
Proof.
  intros Ha Hb Hc. exists (fusedPlanet a b).
  destruct (checkCollision_hit w this other a b Ha Hb Hc) as (-> & _).
  rewrite lookup_app_r, Nat.sub_diag by lia.
  split; [reflexivity|]. split; [reflexivity|]. split; [reflexivity|].
  split; [reflexivity|].
  cbn [fusedPlanet newPlanet mass velocity vel_x vel_y weightedMean
       nadd nmul ndiv float_Arith].
  split; [|split; [|split]].
  - intros H1 H2.
    destruct (div_mul_roundtrip _ _ H1 H2) as (vs & vr & Es & Er & Hb').
    exists vr, vs. split; [exact Er|]. split; [exact Es|exact Hb'].
  - intros H1 H2.
    destruct (div_mul_roundtrip _ _ H1 H2) as (vs & vr & Es & Er & Hb').
    exists vr, vs. split; [exact Er|]. split; [exact Es|exact Hb'].
  - intros H1 H2. apply zero_roundtrip; assumption.
  - intros H1 H2. apply zero_roundtrip; assumption.
Qed.

Lemma merge_momentum_within_rounding_witness :
  exists c : Planet,
    heap (checkCollision 0%nat 1%nat wmomentum) !! length (heap wmomentum) = Some c /\
    mass c = 1 + 48 /\
    vel_x (velocity c) = (1 * 1 + 0 * 48) / (1 + 48) /\
    vel_y (velocity c) = (0 * 1 + 0 * 48) / (1 + 48) /\
    closeTo (1 # 2 ^ 51) (vel_x (velocity c) * mass c) (1 * 1 + 0 * 48) /\
    (vel_y (velocity c) * mass c =? 0 * 1 + 0 * 48) = true.
Proof.
  destruct (merge_momentum_within_rounding wmomentum 0%nat 1%nat moving (still 400 48 "Q")
              eq_refl eq_refl eq_refl)
    as (c & Hc & Hm & Hvx & Hvy & Hnx & _ & _ & Hzy).
  exists c. split; [exact Hc|]. split; [exact Hm|]. split; [exact Hvx|].
  split; [exact Hvy|]. split.
  - apply Hnx; [rewrite Hvx|rewrite Hvx, Hm]; vm_compute; reflexivity.
  - apply Hzy; [|rewrite Hm]; vm_compute; reflexivity.
Defined.

(** C5. The collision test is inclusive.  When the computed distance
    equals [(a.radius + b.radius) * distanceScale], [checkCollision] takes
    the merge branch: it logs the merge, creates the merged body, puts it
    into the collection when [a] is there and removes [b].  When the
    distance is strictly greater, nothing but the call is recorded. *)
Theorem collision_test_inclusive (w : World) (this other : ref) (a b : Planet) :
  heap w !! this = Some a -> heap w !! other = Some b ->
  ((separation a b =? (radius a + radius b) * distanceScale) = true ->
     heap (checkCollision this other w) = heap w ++ [fusedPlanet a b] /\
     log (checkCollision this other w)
       = log w ++ [MsgCollision (name a) (name b); MsgNewPlanet (mass a + mass b)] /\
     (this ∈ planets w -> length (heap w) ∈ planets (checkCollision this other w)) /\
     (NoDup (planets w) -> other ∉ planets (checkCollision this other w))) /\
  (((radius a + radius b) * distanceScale <? separation a b) = true ->
     checkCollision this other w = recordCall (CallCollision this other) w).
Proof.
  intros Ha Hb. split; intros Hd.
  - assert (Hc : collides a b = true) by (apply float_eqb_leb in Hd; exact Hd).
    destruct (checkCollision_hit w this other a b Ha Hb Hc) as (Hh & Hl & _).
    split; [exact Hh|]. split; [exact Hl|]. split.
    + apply (checkCollision_inserts_fused w this other a b Ha Hb Hc).
    + apply (checkCollision_removes_other w this other a b Ha Hb Hc).
  - apply (checkCollision_miss w this other a b Ha Hb).
    apply float_ltb_not_leb in Hd. exact Hd.
Qed.

Lemma collision_test_inclusive_witness :
  (heap (checkCollision 0%nat 1%nat wboundary)
     = heap wboundary ++ [fusedPlanet (still 400 4 "A") (still 2000000400 2 "B")] /\
   planets (checkCollision 0%nat 1%nat wboundary) = [3%nat; 2%nat]) /\
  checkCollision 0%nat 2%nat wboundary = recordCall (CallCollision 0%nat 2%nat) wboundary.
Proof.
  split.
  - split; [|reflexivity].
    apply (collision_test_inclusive wboundary 0%nat 1%nat
             (still 400 4 "A") (still 2000000400 2 "B") eq_refl eq_refl).
    reflexivity.
  - apply (collision_test_inclusive wboundary 0%nat 2%nat
             (still 400 4 "A") (still 1000000000400 1 "C") eq_refl eq_refl).
    reflexivity.
Defined.

(** C7. [applyGravity(a, b)] on two distinct bodies changes nothing but
    [a]'s velocity: [b] and every other object are untouched, [a] keeps its
    position, mass, radius, trail, colour and name, and the collection, the
    time step and the log stay as they are. *)
Theorem applyGravity_frame (Math : MathLib) (w : World) (this other : ref) (a b : Planet) :
  heap w !! this = Some a -> heap w !! other = Some b -> this <> other ->
  (0 <? mass a) = true ->
  heap (applyGravity Math this other w) !! other = Some b /\
  (forall r : ref, r <> this -> heap (applyGravity Math this other w) !! r = heap w !! r) /\
  (exists a' : Planet,
     heap (applyGravity Math this other w) !! this = Some a' /\
     x a' = x a /\ y a' = y a /\ mass a' = mass a /\ radius a' = radius a /\
     trail a' = trail a /\ color a' = color a /\ name a' = name a /\
     fadeSpeed a' = fadeSpeed a) /\
  planets (applyGravity Math this other w) = planets w /\
  dt (applyGravity Math this other w) = dt w /\
  log (applyGravity Math this other w) = log w.
Proof.
  intros Ha Hb Hne _. unfold applyGravity. rewrite Ha, Hb. simpl.
  split; [rewrite list_lookup_insert_ne by exact Hne; exact Hb|].
  split; [intros r Hr; apply list_lookup_insert_ne; congruence|].
  split; [|repeat split].
  eexists. split.
  - apply list_lookup_insert_eq. eapply lookup_lt_Some, Ha.
  - repeat split.
Qed.

Lemma applyGravity_frame_witness :
  heap (applyGravity sampleMath 0%nat 1%nat wfar) !! 1%nat
    = Some (still 1000000400 2 "B") /\
  planets (applyGravity sampleMath 0%nat 1%nat wfar) = planets wfar.
Proof.
  destruct (applyGravity_frame sampleMath wfar 0%nat 1%nat
              (still 400 4 "A") (still 1000000400 2 "B") eq_refl eq_refl
              ltac:(discriminate) eq_refl) as (H1 & _ & _ & H2 & _).
  exact (conj H1 H2).
Defined.

(** ** Spawning into an empty collection *)

(** C9. With no body in the collection the anchor lookup returns
    [undefined] (here [None]) without failing, and a valid spawn request
    appends exactly one new object to the store: its [x] is half the canvas
    width plus the requested distance times [distanceScale], its [y] is
    half the canvas height, its radius, colour, mass, velocity and name are
    the requested ones, its trail is empty and its fade speed 0.005.  The
    new object becomes the only body and is logged as the new centre. *)
Theorem spawn_on_empty_collection (i : SpawnInput) (w : World) :
  planets w = [] ->
  (isNaN (in_mass i) || isNaN (in_radius i) || isNaN (in_velocityX i)
   || isNaN (in_velocityY i) || isNaN (in_distancePx i))%bool = false ->
  getMostMassivePlanet w = None /\
  (exists p : Planet,
     heap (spawnPlanet i w) = heap w ++ [p] /\
     x p = canvasWidth w / 2 + in_distancePx i * distanceScale /\
     y p = canvasHeight w / 2 /\
     radius p = in_radius i /\ color p = in_color i /\ mass p = in_mass i /\
     vel_x (velocity p) = in_velocityX i /\ vel_y (velocity p) = in_velocityY i /\
     name p = in_name i /\ trail p = [] /\ fadeSpeed p = 0.005) /\
  planets (spawnPlanet i w) = [length (heap w)] /\
  log (spawnPlanet i w) = log w ++ [MsgSpawnedCenter].
Proof.
  intros Hps Hvalid.
  assert (Hnone : getMostMassivePlanet w = None)
    by (unfold getMostMassivePlanet; rewrite Hps; reflexivity).
  split; [exact Hnone|].
  unfold spawnPlanet. rewrite Hvalid, Hnone, Hps. simpl.
  split; [|split; reflexivity].
  eexists. split; [reflexivity|]. simpl. repeat split.
Qed.

Lemma spawn_on_empty_collection_witness :
  getMostMassivePlanet emptyWorld = None /\
  (exists p : Planet,
     heap (spawnPlanet sampleInput emptyWorld) = [p] /\
     x p = 150000000400 /\
     y p = 300 /\
     radius p = 5 /\ color p = "rgb(1,2,3)"%string /\ mass p = 5e24 /\
     vel_x (velocity p) = 0 /\ vel_y (velocity p) = 30000 /\
     name p = "Earth"%string /\ trail p = [] /\ fadeSpeed p = 0.005) /\
  planets (spawnPlanet sampleInput emptyWorld) = [0%nat] /\
  log (spawnPlanet sampleInput emptyWorld) = [MsgSpawnedCenter].
Proof.
  assert (Ex : 800 / 2 + 150 * distanceScale = 150000000400) by (vm_compute; reflexivity).
  assert (Ey : 600 / 2 = 300) by (vm_compute; reflexivity).
  rewrite <- Ex, <- Ey.
  apply (spawn_on_empty_collection sampleInput emptyWorld); reflexivity.
Defined.

(** ** What the steps of a tick leave alone *)

Section Steps.

Context (Math : MathLib).

Lemma applyGravity_fields (this other : ref) (w : World) :
  planets (applyGravity Math this other w) = planets w /\
  log (applyGravity Math this other w) = log w /\
  dt (applyGravity Math this other w) = dt w /\
  isPaused (applyGravity Math this other w) = isPaused w /\
  length (heap (applyGravity Math this other w)) = length (heap w).
Proof.
  unfold applyGravity.
  destruct (heap w !! this) as [a|], (heap w !! other) as [b|]; simpl;
    rewrite ?length_insert; repeat split; reflexivity.
Qed.

Lemma hit_planets_length (this other fused : ref) (ps : list ref) :
  (length
     (let ps1 := if (indexOf other ps >? -1)%Z
                 then splice (Z.to_nat (indexOf other ps)) 1 [] ps else ps in
      if (indexOf this ps >? -1)%Z
      then splice (Z.to_nat (indexOf this ps)) 1 [fused] ps1 else ps1)
   <= length ps)%nat.
Proof.
  simpl.
  assert (H1 : (length (if (indexOf other ps >? -1)%Z
                        then splice (Z.to_nat (indexOf other ps)) 1 [] ps else ps)
                <= length ps)%nat /\
               (length ps - 1 <= length (if (indexOf other ps >? -1)%Z
                        then splice (Z.to_nat (indexOf other ps)) 1 [] ps else ps))%nat).
  { destruct (indexOf_cases other ps) as [[-> _] | (n & -> & Hl & _)].
    - simpl. lia.
    - index_found n.
      rewrite splice_length_remove by (eapply lookup_lt_Some, Hl). lia. }
  destruct (indexOf_cases this ps) as [[-> _] | (m & -> & Hl & _)].
  - simpl. lia.
  - index_found m. rewrite splice_length_replace.
    apply lookup_lt_Some in Hl. destruct (decide _); lia.
Qed.

Lemma checkCollision_fields (this other : ref) (w : World) :
  (length (planets (checkCollision this other w)) <= length (planets w))%nat /\
  (length (heap w) <= length (heap (checkCollision this other w)))%nat /\
  (length (log w) <= length (log (checkCollision this other w)))%nat /\
  dt (checkCollision this other w) = dt w /\
  isPaused (checkCollision this other w) = isPaused w.
Proof.
  destruct (heap w !! this) as [a|] eqn:Ha; [destruct (heap w !! other) as [b|] eqn:Hb|].
  - destruct (collides a b) eqn:Hc.
    + destruct (checkCollision_hit w this other a b Ha Hb Hc)
        as (-> & -> & _ & -> & -> & ->).
      rewrite !length_app. simpl.
      pose proof (hit_planets_length this other (length (heap w)) (planets w)) as H.
      simpl in H. repeat split; first [lia | exact H].
    + rewrite (checkCollision_miss w this other a b Ha Hb Hc). simpl.
      repeat split; lia.
  - unfold checkCollision. rewrite Ha, Hb. repeat split; lia.
  - unfold checkCollision. rewrite Ha. repeat split; lia.
Qed.

Lemma update_loop_step (fuel : nat) (this : ref) (k : nat) (w : World) :
  update_loop Math (S fuel) this k w
  = match planets w !! k with
    | None => w
    | Some other => update_loop Math fuel this (S k) (visit Math this other w)
    end.
Proof. reflexivity. Qed.

Lemma visit_fields (this other : ref) (w : World) :
  (length (planets (visit Math this other w)) <= length (planets w))%nat /\
  (length (heap w) <= length (heap (visit Math this other w)))%nat /\
  (length (log w) <= length (log (visit Math this other w)))%nat /\
  dt (visit Math this other w) = dt w /\
  isPaused (visit Math this other w) = isPaused w.
Proof.
  unfold visit. destruct (Nat.eqb other this); [repeat split; lia|].
  destruct (applyGravity_fields this other w) as (Hp & Hl & Hd & Hi & Hh).
  destruct (checkCollision_fields this other (applyGravity Math this other w))
    as (Hp' & Hh' & Hl' & Hd' & Hi').
  rewrite Hp in Hp'. rewrite Hh in Hh'. rewrite Hl in Hl'.
  rewrite Hd', Hi'. repeat split; try lia; assumption.
Qed.

Lemma update_loop_fields (fuel : nat) (this : ref) (k : nat) (w : World) :
  (length (planets (update_loop Math fuel this k w)) <= length (planets w))%nat /\
  (length (heap w) <= length (heap (update_loop Math fuel this k w)))%nat /\
  (length (log w) <= length (log (update_loop Math fuel this k w)))%nat /\
  dt (update_loop Math fuel this k w) = dt w /\
  isPaused (update_loop Math fuel this k w) = isPaused w.
Proof.
  revert k w. induction fuel as [|fuel IH]; intros k w.
  - simpl. repeat split; lia.
  - rewrite update_loop_step. destruct (planets w !! k) as [other|].
    + destruct (IH (S k) (visit Math this other w)) as (H1 & H2 & H3 & H4 & H5).
      destruct (visit_fields this other w) as (G1 & G2 & G3 & G4 & G5).
      rewrite H4, H5. repeat split; try lia; assumption.
    + repeat split; lia.
Qed.

(** The fuel [update] passes is enough: more fuel changes nothing. *)
Lemma update_loop_fuel (fuel : nat) (this : ref) (k : nat) (w : World) :
  (length (planets w) - k <= fuel)%nat ->
  update_loop Math (S fuel) this k w = update_loop Math fuel this k w.
Proof.
  revert k w. induction fuel as [|fuel IH]; intros k w Hf.
  - rewrite update_loop_step. simpl.
    rewrite (lookup_ge_None_2 (planets w) k) by lia. reflexivity.
  - rewrite (update_loop_step (S fuel)), (update_loop_step fuel).
    destruct (planets w !! k) as [other|] eqn:Hk; [|reflexivity].
    apply IH. destruct (visit_fields this other w) as (G1 & _).
    apply lookup_lt_Some in Hk. lia.
Qed.

Lemma update_fields (this : ref) (w : World) :
  planets (update Math this w)
    = planets (update_loop Math (length (planets w)) this 0 w) /\
  log (update Math this w) = log (update_loop Math (length (planets w)) this 0 w) /\
  calls (update Math this w) = calls (update_loop Math (length (planets w)) this 0 w) /\
  dt (update Math this w) = dt w /\
  isPaused (update Math this w) = isPaused w /\
  length (heap (update Math this w))
    = length (heap (update_loop Math (length (planets w)) this 0 w)).
Proof.
  unfold update.
  destruct (update_loop_fields (length (planets w)) this 0 w) as (_ & _ & _ & Hd & Hi).
  destruct (heap _ !! this); simpl; rewrite ?length_insert; repeat split; assumption.
Qed.

Lemma update_planets_length (this : ref) (w : World) :
  (length (planets (update Math this w)) <= length (planets w))%nat.
Proof.
  destruct (update_fields this w) as (-> & _).
  apply update_loop_fields.
Qed.

Lemma animate_loop_step (fuel i : nat) (w : World) :
  animate_loop Math (S fuel) i w
  = match planets w !! i with
    | None => (Normal, w)
    | Some p =>
        match planets (update Math p w) !! i with
        | None => (TypeError, update Math p w)
        | Some _ => animate_loop Math fuel (S i) (update Math p w)
        end
    end.
Proof. reflexivity. Qed.

(** The fuel [animate] passes is enough as well. *)
Lemma animate_loop_fuel (fuel i : nat) (w : World) :
  (length (planets w) - i <= fuel)%nat ->
  animate_loop Math (S fuel) i w = animate_loop Math fuel i w.
Proof.
  revert i w. induction fuel as [|fuel IH]; intros i w Hf.
  - rewrite animate_loop_step. simpl.
    rewrite (lookup_ge_None_2 (planets w) i) by lia. reflexivity.
  - rewrite (animate_loop_step (S fuel)), (animate_loop_step fuel).
    destruct (planets w !! i) as [p|] eqn:Hi; [|reflexivity].
    destruct (planets (update Math p w) !! i); [|reflexivity].
    apply IH. pose proof (update_planets_length p w).
    apply lookup_lt_Some in Hi. lia.
Qed.

End Steps.

(** ** Trails *)

Lemma lifeAfter_S (k : nat) : lifeAfter (S k) = lifeAfter k - 0.005.
Proof. reflexivity. Qed.

Lemma agedLives_length (n : nat) : length (agedLives n) = n.
Proof. induction n as [|n IH]; simpl; [reflexivity | rewrite IH; reflexivity]. Qed.

Lemma agedLives_lookup (n i : nat) :
  (i < n)%nat -> agedLives n !! i = Some (lifeAfter (n - i)).
Proof.
  revert i. induction n as [|n IH]; intros i Hi; [lia|].
  destruct i as [|i]; [reflexivity|].
  change (agedLives n !! i = Some (lifeAfter (S n - S i))).
  rewrite IH by lia. reflexivity.
Qed.

(** Pushing a fresh point and fading every point ages the trail by one. *)
Lemma agedLives_fade (n : nat) :
  map (fun l => l - 0.005) (agedLives n ++ [1.0]) = agedLives (S n).
Proof.
  induction n as [|n IH]; [reflexivity|].
  change (agedLives (S n) ++ [1.0]) with (lifeAfter (S n) :: (agedLives n ++ [1.0])).
  rewrite map_cons, IH. reflexivity.
Qed.

(** The three facts about binary64 that the trail rests on, by evaluation:
    a point faded at most 199 times is alive, one faded 200 times is not,
    and fading more makes the life strictly smaller. *)
Lemma lifeAfter_alive_table :
  forallb (fun k => negb (lifeAfter k <=? 0)) (seq 1 199) = true.
Proof. vm_compute. reflexivity. Qed.

Lemma lifeAfter_200_dead : (lifeAfter 200 <=? 0) = true.
Proof. vm_compute. reflexivity. Qed.

Lemma lifeAfter_decreasing_table :
  forallb (fun a => forallb (fun b => lifeAfter a <? lifeAfter b) (seq 1 (a - 1)))
          (seq 1 199) = true.
Proof. vm_compute. reflexivity. Qed.

Lemma lifeAfter_positive_table :
  forallb (fun k => 0 <? lifeAfter k) (seq 1 199) = true.
Proof. vm_compute. reflexivity. Qed.

Lemma lifeAfter_alive (k : nat) :
  (1 <= k <= 199)%nat -> (lifeAfter k <=? 0) = false.
Proof.
  intros Hk. pose proof lifeAfter_alive_table as H.
  rewrite forallb_forall in H. specialize (H k).
  apply negb_true_iff, H, in_seq. lia.
Qed.

Lemma lifeAfter_positive (k : nat) :
  (1 <= k <= 199)%nat -> (0 <? lifeAfter k) = true.
Proof.
  intros Hk. pose proof lifeAfter_positive_table as H.
  rewrite forallb_forall in H. apply (H k), in_seq. lia.
Qed.

Lemma lifeAfter_decreasing (a b : nat) :
  (1 <= b < a)%nat -> (a <= 199)%nat -> (lifeAfter a <? lifeAfter b) = true.
Proof.
  intros Hb Ha. pose proof lifeAfter_decreasing_table as H.
  rewrite forallb_forall in H. specialize (H a ltac:(apply in_seq; lia)).
  rewrite forallb_forall in H. apply (H b), in_seq. lia.
Qed.

(** [evict] drops a prefix of dead points and stops at the first live one. *)
Lemma evict_spec (t : list TrailPoint) :
  exists j : nat,
    evict t = drop j t /\
    Forall (fun q => (life q <=? 0) = true) (take j t) /\
    (forall q, head (evict t) = Some q -> (life q <=? 0) = false).
Proof.
  induction t as [|p t IH].
  - exists 0%nat. simpl. repeat split; [constructor | discriminate].
  - simpl. destruct (life p <=? 0) eqn:Hp.
    + destruct IH as (j & Hj & Hdead & Hhead). exists (S j). simpl.
      repeat split; [exact Hj | constructor; assumption | exact Hhead].
    + exists 0%nat. simpl. repeat split; [constructor|].
      intros q [= <-]. exact Hp.
Qed.

Lemma evict_aged (t : list TrailPoint) (n : nat) :
  (n <= 199)%nat -> map life t = agedLives (S n) ->
  exists m : nat, (m <= 199)%nat /\ map life (evict t) = agedLives m.
Proof.
  intros Hn Ht. destruct t as [|p t]; [discriminate|].
  simpl in Ht. injection Ht as Hp Ht. simpl.
  destruct (decide (n = 199%nat)) as [->|Hne].
  - rewrite Hp, lifeAfter_200_dead.
    destruct t as [|q t]; [discriminate|].
    simpl in Ht. injection Ht as Hq Ht. simpl.
    rewrite Hq, lifeAfter_alive by lia.
    exists 199%nat. split; [lia|]. simpl. rewrite Hq, Ht. reflexivity.
  - rewrite Hp, lifeAfter_alive by lia.
    exists (S n). split; [lia|]. simpl. rewrite Hp, Ht. reflexivity.
Qed.

Lemma maintainTrail_aged (x0 y0 : float) (t : list TrailPoint) (n : nat) :
  (n <= 199)%nat -> map life t = agedLives n ->
  exists m : nat, (m <= 199)%nat /\ map life (maintainTrail x0 y0 0.005 t) = agedLives m.
Proof.
  intros Hn Ht. unfold maintainTrail. apply (evict_aged _ n Hn).
  rewrite <- agedLives_fade, <- Ht, !map_app, !map_map. reflexivity.
Qed.

Lemma wellAged_newPlanet (x0 y0 r0 : float) (c : string) (m : float) (v : Velocity)
    (n : string) : wellAged (newPlanet x0 y0 r0 c m v n).
Proof. split; [reflexivity|]. exists 0%nat. split; [lia | reflexivity]. Qed.

Lemma wellAged_setVelocity (v : Velocity) (p : Planet) :
  wellAged p -> wellAged (setVelocity v p).
Proof. intros H. exact H. Qed.

Lemma wellAged_integrate (dt0 : float) (p : Planet) :
  wellAged p -> wellAged (integrate dt0 p).
Proof.
  intros [Hfs (n & Hn & Ht)]. split; [exact Hfs|].
  unfold integrate. simpl. rewrite Hfs. apply (maintainTrail_aged _ _ _ n Hn Ht).
Qed.

(** A well-aged body has at most 199 trail points, their lives increase
    strictly from the front to the back, and all of them are positive. *)
Lemma wellAged_trail (p : Planet) :
  wellAged p ->
  (length (trail p) <= 199)%nat /\
  (forall (i j : nat) (qi qj : TrailPoint),
     trail p !! i = Some qi -> trail p !! j = Some qj -> (i < j)%nat ->
     (life qi <? life qj) = true) /\
  (forall q : TrailPoint, q ∈ trail p ->
     (0 <? life q) = true /\ (life q <=? 0) = false).
Proof.
  intros [_ (n & Hn & Ht)].
  assert (Hlen : length (trail p) = n)
    by (rewrite <- (length_map life), Ht; apply agedLives_length).
  assert (Hlife : forall i q, trail p !! i = Some q ->
                    (i < n)%nat /\ life q = lifeAfter (n - i)).
  { intros i q Hq. assert (Hi : (i < n)%nat) by (rewrite <- Hlen; eapply lookup_lt_Some, Hq).
    split; [exact Hi|].
    assert (H : map life (trail p) !! i = Some (life q))
      by (rewrite list_lookup_fmap, Hq; reflexivity).
    rewrite Ht, agedLives_lookup in H by exact Hi. congruence. }
  split; [lia|]. split.
  - intros i j qi qj Hi Hj Hij.
    destruct (Hlife i qi Hi) as [Hin ->]. destruct (Hlife j qj Hj) as [Hjn ->].
    apply lifeAfter_decreasing; lia.
  - intros q Hq. apply list_elem_of_lookup in Hq as [i Hi].
    destruct (Hlife i q Hi) as [Hin ->].
    split; [apply lifeAfter_positive | apply lifeAfter_alive]; lia.
Qed.

(** ** Every object the page creates is well aged *)

Section Aging.

Context (Math : MathLib).

Lemma worldAged_applyGravity (this other : ref) (w : World) :
  worldAged w -> worldAged (applyGravity Math this other w).
Proof.
  unfold worldAged, applyGravity. intros H.
  destruct (heap w !! this) as [a|] eqn:Ha; [|exact H].
  destruct (heap w !! other) as [b|]; [|exact H]. simpl.
  apply Forall_insert; [exact H|].
  apply wellAged_setVelocity. eapply Forall_lookup_1; eassumption.
Qed.

Lemma worldAged_checkCollision (this other : ref) (w : World) :
  worldAged w -> worldAged (checkCollision this other w).
Proof.
  unfold worldAged. intros H.
  destruct (heap w !! this) as [a|] eqn:Ha; [destruct (heap w !! other) as [b|] eqn:Hb|].
  - destruct (collides a b) eqn:Hc.
    + destruct (checkCollision_hit w this other a b Ha Hb Hc) as (-> & _).
      apply Forall_app. split; [exact H|].
      constructor; [apply wellAged_newPlanet | constructor].
    + rewrite (checkCollision_miss w this other a b Ha Hb Hc). exact H.
  - unfold checkCollision. rewrite Ha, Hb. exact H.
  - unfold checkCollision. rewrite Ha. exact H.
Qed.

Lemma worldAged_visit (this other : ref) (w : World) :
  worldAged w -> worldAged (visit Math this other w).
Proof.
  intros H. unfold visit. destruct (Nat.eqb other this); [exact H|].
  apply worldAged_checkCollision, worldAged_applyGravity, H.
Qed.

Lemma worldAged_update_loop (fuel : nat) (this : ref) (k : nat) (w : World) :
  worldAged w -> worldAged (update_loop Math fuel this k w).
Proof.
  revert k w. induction fuel as [|fuel IH]; intros k w H; [exact H|].
  rewrite update_loop_step. destruct (planets w !! k) as [other|]; [|exact H].
  apply IH, worldAged_visit, H.
Qed.

Lemma worldAged_update (this : ref) (w : World) :
  worldAged w -> worldAged (update Math this w).
Proof.
  intros H. unfold update.
  pose proof (worldAged_update_loop (length (planets w)) this 0 w H) as H1.
  destruct (heap _ !! this) as [p|] eqn:Hp; [|exact H1].
  unfold worldAged. simpl. apply Forall_insert; [exact H1|].
  apply wellAged_integrate. eapply Forall_lookup_1; eassumption.
Qed.

Lemma worldAged_animate_loop (fuel i : nat) (w : World) :
  worldAged w -> worldAged (animate_loop Math fuel i w).2.
Proof.
  revert i w. induction fuel as [|fuel IH]; intros i w H; [exact H|].
  rewrite animate_loop_step. destruct (planets w !! i) as [p|]; [|exact H].
  pose proof (worldAged_update p w H) as H1.
  destruct (planets (update Math p w) !! i); [apply IH, H1 | exact H1].
Qed.

Lemma worldAged_animate (w : World) : worldAged w -> worldAged (animate Math w).2.
Proof.
  intros H. unfold animate. destruct (isPaused w); [exact H|].
  apply worldAged_animate_loop, H.
Qed.

Lemma worldAged_spawnPlanet (i : SpawnInput) (w : World) :
  worldAged w -> worldAged (spawnPlanet i w).
Proof.
  unfold worldAged, spawnPlanet. intros H.
  destruct (_ || _)%bool; [exact H|].
  destruct (getMostMassivePlanet w ≫= _); simpl;
    (apply Forall_app; split; [exact H|]);
    (constructor; [apply wellAged_newPlanet | constructor]).
Qed.

Lemma worldAged_spawnSolarSystem (w : World) :
  worldAged w -> worldAged (spawnSolarSystem w).
Proof.
  unfold worldAged, spawnSolarSystem. intros H. simpl.
  apply Forall_app. split; [exact H|].
  unfold solarSystem. repeat (constructor; [apply wellAged_newPlanet|]). constructor.
Qed.

Lemma reachable_worldAged (w : World) : reachable Math w -> worldAged w.
Proof.
  induction 1 as [w Hh _ | w _ IH | i w _ IH | w _ IH | w _ IH | w w' _ IH Hh _].
  - unfold worldAged. rewrite Hh. constructor.
  - apply worldAged_animate, IH.
  - apply worldAged_spawnPlanet, IH.
  - apply worldAged_spawnSolarSystem, IH.
  - exact IH.
  - unfold worldAged. rewrite Hh. exact IH.
Qed.

(** The loop of [update] changes velocities only. *)

Lemma sameBody_refl (p : Planet) : sameBody p p.
Proof. unfold sameBody. destruct p. reflexivity. Qed.

Lemma sameBody_trans (p q r : Planet) : sameBody p q -> sameBody q r -> sameBody p r.
Proof.
  unfold sameBody. intros <- <-. destruct r. reflexivity.
Qed.

Lemma applyGravity_stable (this other r : ref) (w : World) (p : Planet) :
  heap w !! r = Some p ->
  exists p', heap (applyGravity Math this other w) !! r = Some p' /\ sameBody p p'.
Proof.
  intros Hp. unfold applyGravity.
  destruct (heap w !! this) as [a|] eqn:Ha;
    [destruct (heap w !! other) as [b|] |]; try (exists p; split; [exact Hp | apply sameBody_refl]).
  simpl. destruct (decide (r = this)) as [->|Hne].
  - eexists. split; [apply list_lookup_insert_eq; eapply lookup_lt_Some, Ha|].
    assert (a = p) as -> by congruence. unfold sameBody. destruct p. reflexivity.
  - exists p. split; [rewrite list_lookup_insert_ne by congruence; exact Hp | apply sameBody_refl].
Qed.

Lemma checkCollision_stable (this other r : ref) (w : World) (p : Planet) :
  heap w !! r = Some p -> heap (checkCollision this other w) !! r = Some p.
Proof.
  intros Hp.
  destruct (heap w !! this) as [a|] eqn:Ha; [destruct (heap w !! other) as [b|] eqn:Hb|].
  - destruct (collides a b) eqn:Hc.
    + destruct (checkCollision_hit w this other a b Ha Hb Hc) as (-> & _).
      rewrite lookup_app_l by (eapply lookup_lt_Some, Hp). exact Hp.
    + rewrite (checkCollision_miss w this other a b Ha Hb Hc). exact Hp.
  - unfold checkCollision. rewrite Ha, Hb. exact Hp.
  - unfold checkCollision. rewrite Ha. exact Hp.
Qed.

Lemma visit_stable (this other r : ref) (w : World) (p : Planet) :
  heap w !! r = Some p ->
  exists p', heap (visit Math this other w) !! r = Some p' /\ sameBody p p'.
Proof.
  intros Hp. unfold visit. destruct (Nat.eqb other this).
  - exists p. split; [exact Hp | apply sameBody_refl].
  - destruct (applyGravity_stable this other r w p Hp) as (p' & Hp' & Hs).
    exists p'. split; [apply checkCollision_stable, Hp' | exact Hs].
Qed.

Lemma update_loop_stable (fuel : nat) (this : ref) (k : nat) (r : ref) (w : World)
    (p : Planet) :
  heap w !! r = Some p ->
  exists p', heap (update_loop Math fuel this k w) !! r = Some p' /\ sameBody p p'.
Proof.
  revert k w p. induction fuel as [|fuel IH]; intros k w p Hp.
  - exists p. split; [exact Hp | apply sameBody_refl].
  - rewrite update_loop_step. destruct (planets w !! k) as [other|].
    + destruct (visit_stable this other r w p Hp) as (p1 & Hp1 & Hs1).
      destruct (IH (S k) _ p1 Hp1) as (p2 & Hp2 & Hs2).
      exists p2. split; [exact Hp2 | eapply sameBody_trans; eassumption].
    + exists p. split; [exact Hp | apply sameBody_refl].
Qed.

(** What [update] does to its receiver's trail. *)
Lemma update_trail (this : ref) (w : World) (p : Planet) :
  heap w !! this = Some p ->
  exists p' : Planet,
    heap (update Math this w) !! this = Some p' /\
    fadeSpeed p' = fadeSpeed p /\
    trail p' = maintainTrail (x p') (y p') (fadeSpeed p) (trail p).
Proof.
  intros Hp. unfold update.
  destruct (update_loop_stable (length (planets w)) this 0 this w p Hp) as (p1 & Hp1 & Hs).
  rewrite Hp1. simpl. eexists. split.
  - apply list_lookup_insert_eq. eapply lookup_lt_Some, Hp1.
  - unfold sameBody in Hs. rewrite <- Hs. split; reflexivity.
Qed.

End Aging.

Lemma wframe_reachable : reachable sampleMath wframe.
Proof. apply reach_animate, reach_spawn, reach_load; reflexivity. Qed.

Lemma framesAfter_reachable (n : nat) (w : World) :
  reachable sampleMath w -> reachable sampleMath (framesAfter n w).
Proof.
  intros H. induction n as [|n IH]; [exact H|].
  unfold framesAfter. simpl. apply reach_animate, IH.
Qed.

Lemma wlong_reachable : reachable sampleMath wlong.
Proof. apply framesAfter_reachable, reach_spawn, reach_load; reflexivity. Qed.

(** The sample worlds are states of the page: pause, spawn, resume. *)
Lemma spawnPaused_reachable (Math : MathLib) (requests : list SpawnInput) :
  reachable Math (spawnPaused requests).
Proof.
  unfold spawnPaused. apply reach_pause.
  assert (H : reachable Math (togglePause emptyWorld))
    by (apply reach_pause, reach_load; reflexivity).
  revert H. generalize (togglePause emptyWorld).
  induction requests as [|i requests IH]; intros w H; [exact H|].
  simpl. apply IH, reach_spawn, H.
Qed.

(** C8. In every world the page can reach, every [Planet] object has fade
    speed 0.005 and a trail of at most 200 points.  And one [update] turns
    its receiver's trail into: the old trail with one point of life 1.0
    (at the new position) pushed at the back, every point kept where it is
    with its life lowered by 0.005, and the points at the front dropped as
    long as their life is [<= 0]. *)
Theorem trail_bounded (Math : MathLib) (w : World) :
  reachable Math w ->
  (forall p : Planet, p ∈ heap w ->
     fadeSpeed p = 0.005 /\ (length (trail p) <= 200)%nat) /\
  (forall (this : ref) (p : Planet), heap w !! this = Some p ->
     exists (p' : Planet) (j : nat),
       heap (update Math this w) !! this = Some p' /\
       fadeSpeed p' = 0.005 /\
       trail p'
         = drop j (map (fun q => {| tp_x := tp_x q; tp_y := tp_y q;
                                    life := life q - 0.005 |})
                     (trail p ++ [{| tp_x := x p'; tp_y := y p'; life := 1.0 |}])) /\
       Forall (fun q => (life q - 0.005 <=? 0) = true)
         (take j (trail p ++ [{| tp_x := x p'; tp_y := y p'; life := 1.0 |}])) /\
       (forall q, head (trail p') = Some q -> (life q <=? 0) = false) /\
       (length (trail p') <= 200)%nat).
Proof.
  intros Hr. pose proof (reachable_worldAged Math w Hr) as Hw. split.
  - intros p Hp. unfold worldAged in Hw. rewrite Forall_forall in Hw.
    specialize (Hw p Hp). split; [apply Hw|].
    destruct (wellAged_trail p Hw) as (Hlen & _). lia.
  - intros this p Hp.
    destruct (update_trail Math this w p Hp) as (p' & Hp' & Hfs & Ht).
    assert (Hp0 : wellAged p) by (eapply Forall_lookup_1; eassumption).
    destruct Hp0 as [Hfs0 _]. rewrite Hfs0 in Ht. unfold maintainTrail in Ht.
    destruct (evict_spec (map (fade 0.005)
               (trail p ++ [{| tp_x := x p'; tp_y := y p'; life := 1.0 |}])))
      as (j & Hj & Hdead & Hhead).
    assert (Hp1 : wellAged p').
    { pose proof (worldAged_update Math this w Hw) as Hw'.
      eapply Forall_lookup_1; eassumption. }
    exists p', j. split; [exact Hp'|]. split; [apply Hp1|].
    split; [rewrite Ht; exact Hj|].
    split.
    { rewrite <- fmap_take in Hdead. apply Forall_fmap in Hdead. exact Hdead. }
    split; [rewrite Ht; exact Hhead|].
    destruct (wellAged_trail p' Hp1) as (Hlen & _). lia.
Qed.

Lemma trail_bounded_witness :
  map (fun p => length (trail p)) (heap wlong) = [199%nat] /\
  map (fun p => (life <$> head (trail p), life <$> last (trail p))) (heap wlong)
    = [(Some 0.0049999999999991796, Some 0.995)] /\
  map (fun p => (fun q => life q - 0.005 <=? 0) <$> head (trail p)) (heap wlong)
    = [Some true] /\
  map (fun p => length (trail p)) (heap (update sampleMath 0%nat wlong)) = [199%nat] /\
  (forall p : Planet, p ∈ heap wlong ->
     fadeSpeed p = 0.005 /\ (length (trail p) <= 200)%nat) /\
  (forall (this : ref) (p : Planet), heap wlong !! this = Some p ->
     exists (p' : Planet) (j : nat),
       heap (update sampleMath this wlong) !! this = Some p' /\
       fadeSpeed p' = 0.005 /\
       trail p'
         = drop j (map (fun q => {| tp_x := tp_x q; tp_y := tp_y q;
                                    life := life q - 0.005 |})
                     (trail p ++ [{| tp_x := x p'; tp_y := y p'; life := 1.0 |}])) /\
       Forall (fun q => (life q - 0.005 <=? 0) = true)
         (take j (trail p ++ [{| tp_x := x p'; tp_y := y p'; life := 1.0 |}])) /\
       (forall q, head (trail p') = Some q -> (life q <=? 0) = false) /\
       (length (trail p') <= 200)%nat).
Proof.
  split; [vm_compute; reflexivity|].
  split; [vm_compute; reflexivity|].
  split; [vm_compute; reflexivity|].
  split; [vm_compute; reflexivity|].
  apply (trail_bounded sampleMath wlong), wlong_reachable.
Defined.

(** C10. In every world the page can reach, and after any [update] run in
    it, the lives along every trail increase strictly from the front
    (oldest) to the back (newest); so the front point has the least life,
    and no point of any trail has life [<= 0]. *)
Theorem trail_lives_increasing (Math : MathLib) (w : World) (this : ref) (p : Planet) :
  reachable Math w ->
  p ∈ heap w \/ p ∈ heap (update Math this w) ->
  (forall (i j : nat) (qi qj : TrailPoint),
     trail p !! i = Some qi -> trail p !! j = Some qj -> (i < j)%nat ->
     (life qi <? life qj) = true) /\
  (forall q : TrailPoint, q ∈ trail p ->
     (0 <? life q) = true /\ (life q <=? 0) = false).
Proof.
  intros Hr Hp. pose proof (reachable_worldAged Math w Hr) as Hw.
  assert (Hp0 : wellAged p).
  { destruct Hp as [Hp | Hp].
    - unfold worldAged in Hw. rewrite Forall_forall in Hw. apply Hw, Hp.
    - pose proof (worldAged_update Math this w Hw) as Hw'.
      unfold worldAged in Hw'. rewrite Forall_forall in Hw'. apply Hw', Hp. }
  destruct (wellAged_trail p Hp0) as (_ & Hinc & Hpos). split; assumption.
Qed.

Lemma trail_lives_increasing_witness :
  (0 <? life (fade 0.005 {| tp_x := 150000000400; tp_y := 2592000300; life := 1.0 |}))
    = true /\
  (life (fade 0.005 {| tp_x := 150000000400; tp_y := 2592000300; life := 1.0 |}) <=? 0)
    = false.
Proof.
  apply (trail_lives_increasing sampleMath (spawnPlanet sampleInput emptyWorld) 0%nat
           (integrate 86400
              (newPlanet (800 / 2 + 150 * distanceScale) (600 / 2) 5 "rgb(1,2,3)" 5e24
                         {| vel_x := 0; vel_y := 30000 |} "Earth"))).
  - apply reach_spawn, reach_load; reflexivity.
  - right. vm_compute. apply list_elem_of_here.
  - vm_compute. apply list_elem_of_here.
Defined.

(** ** A tick in which nothing merges *)

Section QuietTick.

Context (Math : MathLib).

Lemma visit_quiet (this other : ref) (w : World) :
  (this < length (heap w))%nat -> (other < length (heap w))%nat ->
  (length (log (visit Math this other w)) <= length (log w))%nat ->
  planets (visit Math this other w) = planets w /\
  length (heap (visit Math this other w)) = length (heap w) /\
  calls (visit Math this other w) = calls w ++ visitCalls this other.
Proof.
  intros Hthis Hother Hlog. unfold visit, visitCalls in *.
  destruct (Nat.eqb other this); [rewrite app_nil_r; repeat split|].
  destruct (lookup_lt_is_Some_2 _ _ Hthis) as [a Ha].
  destruct (lookup_lt_is_Some_2 _ _ Hother) as [b Hb].
  destruct (applyGravity_stable Math this other this w a Ha) as (a' & Ha' & _).
  destruct (applyGravity_stable Math this other other w b Hb) as (b' & Hb' & _).
  destruct (applyGravity_fields Math this other w) as (Hp & Hl & _ & _ & Hh).
  assert (Hcalls : calls (applyGravity Math this other w)
                   = calls w ++ [CallGravity this other]).
  { unfold applyGravity. rewrite Ha, Hb. reflexivity. }
  destruct (collides a' b') eqn:Hc.
  - exfalso.
    destruct (checkCollision_hit _ this other a' b' Ha' Hb' Hc) as (_ & Hl' & _).
    rewrite Hl', Hl, length_app in Hlog. simpl in Hlog. lia.
  - rewrite (checkCollision_miss _ this other a' b' Ha' Hb' Hc). simpl.
    rewrite Hcalls, <- app_assoc. repeat split; assumption.
Qed.

Lemma update_loop_quiet (fuel : nat) (this : ref) (k : nat) (w : World) :
  (this < length (heap w))%nat ->
  Forall (fun r => r < length (heap w))%nat (planets w) ->
  (length (log (update_loop Math fuel this k w)) <= length (log w))%nat ->
  planets (update_loop Math fuel this k w) = planets w /\
  length (heap (update_loop Math fuel this k w)) = length (heap w) /\
  calls (update_loop Math fuel this k w)
    = calls w ++ updateCalls (take fuel (drop k (planets w))) this.
Proof.
  revert k w. induction fuel as [|fuel IH]; intros k w Hthis Hvalid Hlog.
  - simpl. rewrite app_nil_r. repeat split.
  - rewrite update_loop_step in *.
    destruct (planets w !! k) as [other|] eqn:Hk.
    + assert (Hother : (other < length (heap w))%nat)
        by (rewrite Forall_forall in Hvalid; eapply Hvalid, list_elem_of_lookup_2, Hk).
      destruct (update_loop_fields Math fuel this (S k) (visit Math this other w))
        as (_ & _ & Hmono & _).
      destruct (visit_quiet this other w Hthis Hother ltac:(lia)) as (Hp & Hh & Hc).
      destruct (IH (S k) (visit Math this other w)) as (Hp' & Hh' & Hc').
      * rewrite Hh. exact Hthis.
      * rewrite Hh, Hp. exact Hvalid.
      * destruct (visit_fields Math this other w) as (_ & _ & Hmono' & _). lia.
      * rewrite Hp', Hh', Hc', Hp, Hh, Hc, <- app_assoc.
        rewrite (drop_S _ _ _ Hk). simpl. unfold updateCalls. simpl.
        repeat split.
    + rewrite (drop_ge (planets w) k) by (apply lookup_ge_None_1, Hk).
      rewrite take_nil. unfold updateCalls. simpl. rewrite app_nil_r. repeat split.
Qed.

Lemma update_quiet (this : ref) (w : World) :
  (this < length (heap w))%nat ->
  Forall (fun r => r < length (heap w))%nat (planets w) ->
  (length (log (update Math this w)) <= length (log w))%nat ->
  planets (update Math this w) = planets w /\
  length (heap (update Math this w)) = length (heap w) /\
  calls (update Math this w) = calls w ++ updateCalls (planets w) this.
Proof.
  intros Hthis Hvalid Hlog.
  destruct (update_fields Math this w) as (Hp & Hl & Hc & _ & _ & Hh).
  rewrite Hl in Hlog.
  destruct (update_loop_quiet (length (planets w)) this 0 w Hthis Hvalid Hlog)
    as (Hp' & Hh' & Hc').
  rewrite Hp, Hh, Hc, Hp', Hh', Hc', drop_0, firstn_all. repeat split.
Qed.

Lemma update_log_mono (this : ref) (w : World) :
  (length (log w) <= length (log (update Math this w)))%nat.
Proof.
  destruct (update_fields Math this w) as (_ & -> & _).
  apply update_loop_fields.
Qed.

Lemma animate_loop_log_mono (fuel i : nat) (w : World) :
  (length (log w) <= length (log (animate_loop Math fuel i w).2))%nat.
Proof.
  revert i w. induction fuel as [|fuel IH]; intros i w; [simpl; lia|].
  rewrite animate_loop_step. destruct (planets w !! i) as [p|]; [|simpl; lia].
  pose proof (update_log_mono p w).
  destruct (planets (update Math p w) !! i); [|simpl; lia].
  specialize (IH (S i) (update Math p w)). lia.
Qed.

Lemma animate_loop_quiet (fuel i : nat) (w : World) :
  Forall (fun r => r < length (heap w))%nat (planets w) ->
  (length (log (animate_loop Math fuel i w).2) <= length (log w))%nat ->
  (animate_loop Math fuel i w).1 = Normal /\
  planets (animate_loop Math fuel i w).2 = planets w /\
  calls (animate_loop Math fuel i w).2
    = calls w ++ flat_map (updateCalls (planets w)) (take fuel (drop i (planets w))).
Proof.
  revert i w. induction fuel as [|fuel IH]; intros i w Hvalid Hlog.
  - simpl. rewrite app_nil_r. repeat split.
  - rewrite animate_loop_step in *.
    destruct (planets w !! i) as [p|] eqn:Hi.
    + assert (Hp : (p < length (heap w))%nat)
        by (rewrite Forall_forall in Hvalid; eapply Hvalid, list_elem_of_lookup_2, Hi).
      assert (Hlog1 : (length (log (update Math p w)) <= length (log w))%nat).
      { destruct (planets (update Math p w) !! i); [|exact Hlog].
        pose proof (animate_loop_log_mono fuel (S i) (update Math p w)). lia. }
      destruct (update_quiet p w Hp Hvalid Hlog1) as (Hps & Hh & Hc).
      rewrite Hps, Hi in *.
      destruct (IH (S i) (update Math p w)) as (Hn & Hps' & Hc').
      * rewrite Hh, Hps. exact Hvalid.
      * pose proof (update_log_mono p w). lia.
      * rewrite Hn, Hps', Hc', Hps, Hc, <- app_assoc, (drop_S _ _ _ Hi).
        simpl. repeat split.
    + rewrite (drop_ge (planets w) i) by (apply lookup_ge_None_1, Hi).
      rewrite take_nil. simpl. rewrite app_nil_r. repeat split.
Qed.

End QuietTick.

(** ** Counting velocity updates *)

Lemma count_visitCalls (a b this other : ref) :
  count_occ Call_eq_dec (visitCalls this other) (CallGravity a b)
  = if decide (this = a /\ other = b /\ a <> b) then 1%nat else 0%nat.
Proof.
  unfold visitCalls. destruct (Nat.eqb_spec other this) as [->|Hne].
  - simpl. destruct (decide _) as [(-> & -> & Hab)|]; [contradiction | reflexivity].
  - simpl.
    destruct (Call_eq_dec (CallCollision this other) (CallGravity a b)) as [|_];
      [discriminate|].
    destruct (Call_eq_dec (CallGravity this other) (CallGravity a b)) as [[= -> ->]|Hn].
    + destruct (decide _) as [|Hd]; [reflexivity|]. exfalso. apply Hd. auto.
    + destruct (decide _) as [(-> & -> & _)|]; [contradiction | reflexivity].
Qed.

Lemma count_updateCalls (a b this : ref) (ps : list ref) :
  count_occ Call_eq_dec (updateCalls ps this) (CallGravity a b)
  = if decide (this = a /\ a <> b) then count_occ Nat.eq_dec ps b else 0%nat.
Proof.
  unfold updateCalls. induction ps as [|o ps IH].
  - simpl. destruct (decide _); reflexivity.
  - simpl. rewrite count_occ_app, IH, count_visitCalls.
    destruct (Nat.eq_dec o b) as [->|Hob];
      repeat destruct (decide _); try reflexivity; try lia; tauto.
Qed.

Lemma count_tickCalls (a b : ref) (ps l : list ref) :
  count_occ Call_eq_dec (flat_map (updateCalls ps) l) (CallGravity a b)
  = if decide (a <> b) then (count_occ Nat.eq_dec l a * count_occ Nat.eq_dec ps b)%nat
    else 0%nat.
Proof.
  induction l as [|this l IH].
  - simpl. destruct (decide _); reflexivity.
  - simpl. rewrite count_occ_app, IH, count_updateCalls.
    destruct (Nat.eq_dec this a) as [->|Hta];
      repeat destruct (decide _); try reflexivity; try lia; tauto.
Qed.

Lemma count_occ_NoDup (l : list ref) (r : ref) :
  NoDup l -> count_occ Nat.eq_dec l r = if decide (r ∈ l) then 1%nat else 0%nat.
Proof.
  intros Hnd. destruct (decide (r ∈ l)) as [Hin|Hni].
  - apply list_elem_of_In in Hin.
    apply NoDup_ListNoDup in Hnd.
    pose proof (proj1 (NoDup_count_occ Nat.eq_dec l) Hnd r).
    pose proof (proj1 (count_occ_In Nat.eq_dec l r) Hin). lia.
  - apply count_occ_not_In. rewrite <- list_elem_of_In. exact Hni.
Qed.

(** ** Pairing of bodies over a tick *)




(** ** Merging with a receiver that has left the collection *)

(** C2 fails in the code.  When [this] is no longer in the collection but
    [other] is, and the two collide, [checkCollision] removes [other] and
    inserts nothing: the collection loses one body, and the merged body it
    has just created is not in it. *)
Theorem checkCollision_stale_this (w : World) (this other : ref) (a b : Planet) :
  heap w !! this = Some a -> heap w !! other = Some b -> collides a b = true ->
  Forall (fun r => r < length (heap w))%nat (planets w) ->
  this ∉ planets w -> other ∈ planets w ->
  S (length (planets (checkCollision this other w))) = length (planets w) /\
  (length (heap w) ∉ planets (checkCollision this other w)) /\
  heap (checkCollision this other w) !! length (heap w) = Some (fusedPlanet a b) /\
  (NoDup (planets w) -> other ∉ planets (checkCollision this other w)).
Proof.
  intros Ha Hb Hc Hvalid Hthis Hother.
  destruct (checkCollision_hit w this other a b Ha Hb Hc) as (Hh & _ & _ & _ & _ & Hps).
  rewrite (indexOf_absent this _ Hthis) in Hps.
  destruct (indexOf_present other _ Hother) as (n & Hn & Hl & _).
  rewrite Hn in Hps.
  replace (Z.of_nat n >? -1)%Z with true in Hps by (symmetry; apply Z.gtb_lt; lia).
  simpl in Hps. rewrite Nat2Z.id in Hps.
  split; [|split; [|split]].
  - rewrite Hps, splice_length_remove by (eapply lookup_lt_Some, Hl).
    apply lookup_lt_Some in Hl. lia.
  - rewrite Hps. intros Hin. apply splice_subset in Hin as [Hin | Hin].
    + apply elem_of_nil in Hin. exact Hin.
    + rewrite Forall_forall in Hvalid. specialize (Hvalid _ Hin). lia.
  - rewrite Hh, lookup_app_r, Nat.sub_diag by lia. reflexivity.
  - apply (checkCollision_removes_other w this other a b Ha Hb Hc).
Qed.

(** The state inside the first body's [update] on four bodies on one spot:
    it has merged with the second body and meets the fourth. *)
Lemma checkCollision_stale_this_witness :
  planets (visit sampleMath 0 1 w4) = [4%nat; 2%nat; 3%nat] /\
  planets (checkCollision 0 3 (visit sampleMath 0 1 w4)) = [4%nat; 2%nat] /\
  S (length (planets (checkCollision 0 3 (visit sampleMath 0 1 w4))))
    = length (planets (visit sampleMath 0 1 w4)) /\
  planets (update sampleMath 0 w4) = [4%nat; 2%nat].
Proof.
  assert (Hps : planets (visit sampleMath 0 1 w4) = [4%nat; 2%nat; 3%nat])
    by (vm_compute; reflexivity).
  assert (Hlen : length (heap (visit sampleMath 0 1 w4)) = 5%nat)
    by (vm_compute; reflexivity).
  split; [exact Hps|]. split; [vm_compute; reflexivity|].
  split; [|vm_compute; reflexivity].
  eapply (checkCollision_stale_this (visit sampleMath 0 1 w4) 0%nat 3%nat).
  - vm_compute. reflexivity.
  - vm_compute. reflexivity.
  - vm_compute. reflexivity.
  - rewrite Hps, Hlen. repeat constructor.
  - rewrite Hps, !not_elem_of_cons. repeat split; try lia. apply not_elem_of_nil.
  - rewrite Hps. do 2 apply list_elem_of_further. apply list_elem_of_here.
Defined.

(** The same inside a whole [update], whatever [Math] computes: of four
    bodies on one spot, the first merges with the second, then removes the
    fourth; the bodies of masses 1, 2, 4, 8 leave masses 3 and 4. *)
Lemma update_loses_a_body (Math : MathLib) :
  planets (update Math 0 w4) = [4%nat; 2%nat] /\
  map mass (heap (update Math 0 w4)) = [1; 2; 4; 8; 3; 9].
Proof. vm_compute. split; reflexivity. Qed.

(** ** A body meeting the merger that contains it *)

(** The guard [other !== this] keeps every call between two different
    objects, in every tick. *)
Lemma visit_distinctCalls (Math : MathLib) (this other : ref) (w : World) :
  Forall distinctCall (calls w) -> Forall distinctCall (calls (visit Math this other w)).
Proof.
  intros H. unfold visit. destruct (Nat.eqb_spec other this) as [_|Hne]; [exact H|].
  assert (H1 : Forall distinctCall (calls (applyGravity Math this other w))).
  { unfold applyGravity.
    destruct (heap w !! this); [|exact H]. destruct (heap w !! other); [|exact H].
    simpl. apply Forall_app. split; [exact H|]. repeat constructor. simpl. congruence. }
  unfold checkCollision.
  destruct (heap _ !! this); [|exact H1]. destruct (heap _ !! other); [|exact H1].
  assert (H2 : Forall distinctCall
                 (calls (recordCall (CallCollision this other)
                           (applyGravity Math this other w)))).
  { simpl. apply Forall_app. split; [exact H1|]. repeat constructor. simpl. congruence. }
  cbv zeta. destruct (collides _ _); [|exact H2].
  destruct (_ >? _)%Z, (_ >? _)%Z; exact H2.
Qed.

Lemma update_loop_distinctCalls (Math : MathLib) (fuel : nat) (this : ref) (k : nat)
    (w : World) :
  Forall distinctCall (calls w) ->
  Forall distinctCall (calls (update_loop Math fuel this k w)).
Proof.
  revert k w. induction fuel as [|fuel IH]; intros k w H; [exact H|].
  rewrite update_loop_step. destruct (planets w !! k); [|exact H].
  apply IH, visit_distinctCalls, H.
Qed.

Lemma animate_distinctCalls (Math : MathLib) (w : World) :
  Forall distinctCall (calls w) -> Forall distinctCall (calls (animate Math w).2).
Proof.
  unfold animate. destruct (isPaused w); [trivial|].
  generalize (length (planets w)) 0%nat. intros fuel. revert w.
  induction fuel as [|fuel IH]; intros w i H; [exact H|].
  rewrite animate_loop_step. destruct (planets w !! i) as [p|]; [|exact H].
  assert (H1 : Forall distinctCall (calls (update Math p w))).
  { destruct (update_fields Math p w) as (_ & _ & -> & _).
    apply update_loop_distinctCalls, H. }
  destruct (planets (update Math p w) !! i); [apply IH, H1 | exact H1].
Qed.

(** C6 fails in the code.  In a tick on three bodies X, Y, A on one spot,
    X merges with Y; then A merges with X+Y while standing after it in the
    collection, which puts the merged body A+X+Y behind A and leaves A in
    place; A then applies gravity from A+X+Y, checks collision against it
    and merges with it.  The tick ends in a TypeError at [planets[1].draw()]
    with one body whose mass counts A twice. *)
Theorem tick_meets_own_merger (Math : MathLib) :
  (animate Math w3).1 = TypeError /\
  calls (animate Math w3).2
    = [CallGravity 0 1; CallCollision 0 1;
       CallGravity 2 3; CallCollision 2 3;
       CallGravity 2 4; CallCollision 2 4] /\
  name <$> heap (animate Math w3).2 !! 2%nat = Some "A"%string /\
  name <$> heap (animate Math w3).2 !! 4%nat = Some "A+X+Y"%string /\
  planets (animate Math w3).2 = [5%nat] /\
  map mass (heap (animate Math w3).2) = [1; 2; 4; 3; 7; 11] /\
  map name (heap (animate Math w3).2)
    = ["X"; "Y"; "A"; "X+Y"; "A+X+Y"; "A+A+X+Y"]%string.
Proof. vm_compute. repeat split; reflexivity. Qed.

(** * Further properties *)

(** ** The order of binary64 values *)

Lemma SFcompare_Lt_iff (a b : spec_float) :
  a <> S754_nan -> b <> S754_nan ->
  (SFcompare a b = Some Lt <-> klt (fkey a) (fkey b)) /\
  (SFcompare a b = Some Eq <-> fkey a = fkey b) /\
  SFcompare a b <> None.
Proof.
  intros Ha Hb.
  destruct a as [sa|sa| |sa ma ea], b as [sb|sb| |sb mb eb]; try contradiction;
    unfold klt; simpl;
    repeat match goal with s : bool |- _ => destruct s end; simpl;
    try (destruct (Z.compare_spec ea eb);
         try (change (Pos.compare_cont Eq ma mb) with (Pos.compare ma mb);
              destruct (Pos.compare_spec ma mb)));
    simpl; (split; [split|split; [split|]]);
    try discriminate; intros HH;
    try (injection HH; intros); try discriminate; subst;
    try reflexivity; try lia; try (exfalso; lia).
Qed.

Lemma is_nan_spec (a : float) : is_nan a = false <-> Prim2SF a <> S754_nan.
Proof.
  unfold is_nan. rewrite FloatAxioms.eqb_spec. unfold SFeqb. split.
  - intros H Hn. rewrite Hn in H. discriminate H.
  - intros Hn. destruct (SFcompare_Lt_iff _ _ Hn Hn) as (_ & He & _).
    rewrite (proj2 He eq_refl). reflexivity.
Qed.

Lemma klt_trichotomy (a b : Z * Z * Z) : klt a b \/ a = b \/ klt b a.
Proof.
  destruct a as [[c1 e1] m1], b as [[c2 e2] m2]. unfold klt.
  destruct (Z.lt_total c1 c2) as [|[->|]]; [lia| |lia].
  destruct (Z.lt_total e1 e2) as [|[->|]]; [lia| |lia].
  destruct (Z.lt_total m1 m2) as [|[->|]]; [lia| |lia].
  right. left. reflexivity.
Qed.

Lemma klt_irrefl (a : Z * Z * Z) : ~ klt a a.
Proof. destruct a as [[c e] m]. unfold klt. lia. Qed.

Lemma klt_asym (a b : Z * Z * Z) : klt a b -> ~ klt b a.
Proof. destruct a as [[c1 e1] m1], b as [[c2 e2] m2]. unfold klt. lia. Qed.

Lemma klt_trans (a b c : Z * Z * Z) : klt a b -> klt b c -> klt a c.
Proof.
  destruct a as [[c1 e1] m1], b as [[c2 e2] m2], c as [[c3 e3] m3]. unfold klt. lia.
Qed.

Lemma ltb_rank (a b : float) :
  (a <? b) = true <-> is_nan a = false /\ is_nan b = false /\ klt (rank a) (rank b).
Proof.
  rewrite FloatAxioms.ltb_spec, !is_nan_spec. unfold SFltb, rank. split.
  - intros H.
    assert (Ha : Prim2SF a <> S754_nan) by (intros E; rewrite E in H; discriminate H).
    assert (Hb : Prim2SF b <> S754_nan)
      by (intros E; rewrite E in H; destruct (Prim2SF a); discriminate H).
    split; [exact Ha|]. split; [exact Hb|].
    apply (SFcompare_Lt_iff _ _ Ha Hb).
    destruct (SFcompare _ _) as [[]|]; congruence.
  - intros (Ha & Hb & Hk). apply (SFcompare_Lt_iff _ _ Ha Hb) in Hk.
    rewrite Hk. reflexivity.
Qed.

Lemma leb_rank (a b : float) :
  (a <=? b) = true <-> is_nan a = false /\ is_nan b = false /\ ~ klt (rank b) (rank a).
Proof.
  rewrite FloatAxioms.leb_spec, !is_nan_spec. unfold SFleb, rank. split.
  - intros H.
    assert (Ha : Prim2SF a <> S754_nan) by (intros E; rewrite E in H; discriminate H).
    assert (Hb : Prim2SF b <> S754_nan)
      by (intros E; rewrite E in H; destruct (Prim2SF a); discriminate H).
    split; [exact Ha|]. split; [exact Hb|].
    destruct (SFcompare_Lt_iff _ _ Ha Hb) as (Hl & He & _).
    destruct (SFcompare _ _) as [[]|] eqn:E; try discriminate H.
    + rewrite (proj1 He eq_refl). apply klt_irrefl.
    + apply klt_asym, Hl. reflexivity.
  - intros (Ha & Hb & Hk).
    destruct (SFcompare_Lt_iff _ _ Ha Hb) as (Hl & He & Hn).
    destruct (SFcompare _ _) as [[]|] eqn:E; try reflexivity; [|congruence].
    exfalso. destruct (klt_trichotomy (fkey (Prim2SF a)) (fkey (Prim2SF b))) as [H|[H|H]].
    + apply Hl in H. discriminate H.
    + apply He in H. discriminate H.
    + contradiction.
Qed.

(** If [m < p] and not [m < q], then not [p < q], NaN or not. *)
Lemma ltb_above (m p q : float) :
  (m <? p) = true -> (m <? q) = false -> (p <? q) = false.
Proof.
  intros Hmp Hmq. apply ltb_rank in Hmp as (Hm & Hp & Hk).
  destruct (p <? q) eqn:Hpq; [|reflexivity].
  apply ltb_rank in Hpq as (_ & Hq & Hk').
  assert (H : (m <? q) = true)
    by (apply ltb_rank; repeat split; try assumption; eapply klt_trans; eassumption).
  congruence.
Qed.

Lemma ltb_false_leb (a b : float) :
  is_nan a = false -> is_nan b = false -> (a <? b) = false -> (b <=? a) = true.
Proof.
  intros Ha Hb H. apply leb_rank. repeat split; try assumption.
  intros Hk. assert ((a <? b) = true) by (apply ltb_rank; auto). congruence.
Qed.

Lemma ltb_irrefl (a : float) : (a <? a) = false.
Proof.
  destruct (a <? a) eqn:H; [|reflexivity].
  apply ltb_rank in H as (_ & _ & H). destruct (klt_irrefl _ H).
Qed.

Lemma ltb_trans (a b c : float) : (a <? b) = true -> (b <? c) = true -> (a <? c) = true.
Proof.
  intros (Ha & _ & H1)%ltb_rank (_ & Hc & H2)%ltb_rank.
  apply ltb_rank. repeat split; try assumption. eapply klt_trans; eassumption.
Qed.

(** If not [m < q] and [m < p], then [q < p], for [q] other than NaN. *)
Lemma ltb_below (m p q : float) :
  is_nan q = false -> (m <? q) = false -> (m <? p) = true -> (q <? p) = true.
Proof.
  intros Hq Hmq (Hm & Hp & Hk)%ltb_rank.
  apply ltb_rank. repeat split; try assumption.
  destruct (klt_trichotomy (rank q) (rank p)) as [H|[H|H]]; [exact H| |].
  - exfalso. rewrite <- H in Hk.
    assert ((m <? q) = true) by (apply ltb_rank; auto). congruence.
  - exfalso. assert ((m <? q) = true)
      by (apply ltb_rank; repeat split; try assumption; eapply klt_trans; eassumption).
    congruence.
Qed.

(** ** The anchor: getMostMassivePlanet *)

Lemma heavier_cases (h : list Planet) (m p : ref) (pm pp : Planet) :
  h !! m = Some pm -> h !! p = Some pp ->
  heavier h m p = if mass pm <? mass pp then p else m.
Proof. intros Hm Hp. unfold heavier. rewrite Hm, Hp. reflexivity. Qed.

Lemma fold_heavier_max (h : list Planet) (l seen : list ref) (m : ref) (pm : Planet) :
  h !! m = Some pm ->
  Forall (fun r => r < length h)%nat l ->
  (forall q pq, q ∈ seen -> h !! q = Some pq -> (mass pm <? mass pq) = false) ->
  (fold_left (heavier h) l m = m \/ fold_left (heavier h) l m ∈ l) /\
  exists pr, h !! fold_left (heavier h) l m = Some pr /\
    forall q pq, q ∈ seen ++ l -> h !! q = Some pq -> (mass pr <? mass pq) = false.
Proof.
  revert seen m pm. induction l as [|p l IH]; intros seen m pm Hm Hvalid Hseen.
  - simpl. split; [left; reflexivity|]. exists pm. split; [exact Hm|].
    rewrite app_nil_r. exact Hseen.
  - apply Forall_cons in Hvalid as [Hp Hvalid].
    destruct (lookup_lt_is_Some_2 _ _ Hp) as [pp Hpp].
    simpl. rewrite (heavier_cases h m p pm pp Hm Hpp).
    destruct (mass pm <? mass pp) eqn:Hlt.
    + destruct (IH (seen ++ [p]) p pp Hpp Hvalid) as ([Hr | Hr] & pr & Hpr & Hmax).
      * intros q pq [Hq | ->%list_elem_of_singleton]%elem_of_app Hpq.
        -- eapply ltb_above; [exact Hlt | eapply Hseen; eassumption].
        -- assert (pq = pp) as -> by congruence. apply ltb_irrefl.
      * split; [right; rewrite Hr; apply list_elem_of_here|].
        exists pr. split; [exact Hpr|]. rewrite <- app_assoc in Hmax. exact Hmax.
      * split; [right; apply list_elem_of_further, Hr|].
        exists pr. split; [exact Hpr|]. rewrite <- app_assoc in Hmax. exact Hmax.
    + destruct (IH (seen ++ [p]) m pm Hm Hvalid) as ([Hr | Hr] & pr & Hpr & Hmax).
      * intros q pq [Hq | ->%list_elem_of_singleton]%elem_of_app Hpq.
        -- eapply Hseen; eassumption.
        -- assert (pq = pp) as -> by congruence. exact Hlt.
      * split; [left; exact Hr|].
        exists pr. split; [exact Hpr|]. rewrite <- app_assoc in Hmax. exact Hmax.
      * split; [right; apply list_elem_of_further, Hr|].
        exists pr. split; [exact Hpr|]. rewrite <- app_assoc in Hmax. exact Hmax.
Qed.

Lemma mostMassive_None (w : World) : getMostMassivePlanet w = None <-> planets w = [].
Proof.
  unfold getMostMassivePlanet. destruct (planets w) as [|p0 ps]; simpl.
  - split; reflexivity.
  - split; discriminate.
Qed.

Lemma anchor_spec (w : World) (r : ref) :
  Forall (fun q => q < length (heap w))%nat (planets w) ->
  getMostMassivePlanet w = Some r ->
  r ∈ planets w /\
  exists pr, heap w !! r = Some pr /\
    forall q pq, q ∈ planets w -> heap w !! q = Some pq -> (mass pr <? mass pq) = false.
Proof.
  intros Hvalid Hr. unfold getMostMassivePlanet in Hr.
  destruct (planets w) as [|p0 ps] eqn:Hps; [discriminate Hr|].
  simpl in Hr. injection Hr as Hr.
  pose proof Hvalid as Hvalid0. apply Forall_cons in Hvalid0 as [Hp0 _].
  destruct (lookup_lt_is_Some_2 _ _ Hp0) as [pp0 Hpp0].
  destruct (fold_heavier_max (heap w) (p0 :: ps) [] p0 pp0 Hpp0 Hvalid)
    as (Hin & pr & Hpr & Hmax).
  { intros q pq Hq. apply elem_of_nil in Hq. destruct Hq. }
  simpl in Hin, Hpr, Hmax. rewrite Hr in Hin, Hpr.
  split.
  - destruct Hin as [-> | Hin]; [apply list_elem_of_here | exact Hin].
  - exists pr. split; [exact Hpr | exact Hmax].
Qed.

(** X1. On a collection of valid references the anchor is a body of the
    collection, and no body of the collection has a strictly greater mass,
    NaN masses included. *)
Theorem mostMassive_is_heaviest (w : World) (r : ref) :
  Forall (fun q => q < length (heap w))%nat (planets w) ->
  getMostMassivePlanet w = Some r ->
  r ∈ planets w /\
  exists pr, heap w !! r = Some pr /\
    forall q pq, q ∈ planets w -> heap w !! q = Some pq -> (mass pr <? mass pq) = false.
Proof. apply anchor_spec. Qed.

Lemma mostMassive_is_heaviest_witness :
  0%nat ∈ planets wfar /\
  exists pr, heap wfar !! 0%nat = Some pr /\
    forall q pq, q ∈ planets wfar -> heap wfar !! q = Some pq ->
      (mass pr <? mass pq) = false.
Proof.
  apply (mostMassive_is_heaviest wfar 0%nat).
  - vm_compute. repeat constructor.
  - vm_compute. reflexivity.
Defined.

Lemma fold_heavier_first (h : list Planet) (l pre : list ref) (m : ref) (pm : Planet)
    (i : nat) :
  Forall (fun q => exists pq, h !! q = Some pq /\ is_nan (mass pq) = false) (pre ++ l) ->
  pre !! i = Some m -> h !! m = Some pm ->
  (forall j q pq, (j < i)%nat -> pre !! j = Some q -> h !! q = Some pq ->
     (mass pq <? mass pm) = true) ->
  (forall q pq, q ∈ pre -> h !! q = Some pq -> (mass pm <? mass pq) = false) ->
  exists i' pr,
    (pre ++ l) !! i' = Some (fold_left (heavier h) l m) /\
    h !! fold_left (heavier h) l m = Some pr /\
    forall j q pq, (j < i')%nat -> (pre ++ l) !! j = Some q -> h !! q = Some pq ->
      (mass pq <? mass pr) = true.
Proof.
  revert pre m pm i. induction l as [|p l IH]; intros pre m pm i Hnan Hi Hm Hbefore Hmax.
  - exists i, pm. rewrite app_nil_r. simpl. repeat split; assumption.
  - assert (Hp : exists pp, h !! p = Some pp /\ is_nan (mass pp) = false).
    { rewrite Forall_forall in Hnan. apply Hnan.
      apply elem_of_app. right. apply list_elem_of_here. }
    destruct Hp as (pp & Hpp & _).
    simpl. rewrite (heavier_cases h m p pm pp Hm Hpp).
    replace (pre ++ p :: l) with ((pre ++ [p]) ++ l) in * by (rewrite <- app_assoc; reflexivity).
    destruct (mass pm <? mass pp) eqn:Hlt.
    + apply (IH (pre ++ [p]) p pp (length pre)); try assumption.
      * rewrite lookup_app_r, Nat.sub_diag by lia. reflexivity.
      * intros j q pq Hj Hq Hpq. rewrite lookup_app_l in Hq by exact Hj.
        assert (Hqnan : is_nan (mass pq) = false).
        { rewrite Forall_forall in Hnan.
          destruct (Hnan q) as (pq' & Hpq' & Hn).
          - apply elem_of_app. left. apply elem_of_app. left.
            eapply list_elem_of_lookup_2, Hq.
          - congruence. }
        eapply ltb_below; [exact Hqnan | | exact Hlt].
        eapply Hmax; [eapply list_elem_of_lookup_2, Hq | exact Hpq].
      * intros q pq [Hq | ->%list_elem_of_singleton]%elem_of_app Hpq.
        -- eapply ltb_above; [exact Hlt | eapply Hmax; eassumption].
        -- assert (pq = pp) as -> by congruence. apply ltb_irrefl.
    + apply (IH (pre ++ [p]) m pm i); try assumption.
      * rewrite lookup_app_l by (eapply lookup_lt_Some, Hi). exact Hi.
      * intros j q pq Hj Hq Hpq.
        rewrite lookup_app_l in Hq by (apply lookup_lt_Some in Hi; lia).
        eapply Hbefore; eassumption.
      * intros q pq [Hq | ->%list_elem_of_singleton]%elem_of_app Hpq.
        -- eapply Hmax; eassumption.
        -- assert (pq = pp) as -> by congruence. exact Hlt.
Qed.

(** X2. Ties go to the first body: when no mass in the collection is NaN,
    every body standing before the anchor in the collection has a strictly
    smaller mass than the anchor. *)
Theorem mostMassive_first_heaviest (w : World) (r : ref) :
  Forall (fun q => exists pq, heap w !! q = Some pq /\ is_nan (mass pq) = false)
         (planets w) ->
  getMostMassivePlanet w = Some r ->
  exists i pr,
    planets w !! i = Some r /\ heap w !! r = Some pr /\
    forall j q pq, (j < i)%nat -> planets w !! j = Some q -> heap w !! q = Some pq ->
      (mass pq <? mass pr) = true.
Proof.
  intros Hnan Hr. unfold getMostMassivePlanet in Hr.
  destruct (planets w) as [|p0 ps] eqn:Hps; [discriminate Hr|].
  simpl in Hr. injection Hr as Hr.
  pose proof Hnan as Hnan0. apply Forall_cons in Hnan0 as [(pp0 & Hpp0 & _) _].
  rewrite (heavier_cases _ p0 p0 pp0 pp0 Hpp0 Hpp0), ltb_irrefl in Hr.
  destruct (fold_heavier_first (heap w) ps [p0] p0 pp0 0 Hnan eq_refl Hpp0)
    as (i & pr & Hi & Hpr & Hbefore).
  - intros j q pq Hj. lia.
  - intros q pq ->%list_elem_of_singleton Hpq.
    assert (pq = pp0) as -> by congruence. apply ltb_irrefl.
  - rewrite Hr in Hi, Hpr. exists i, pr. repeat split; assumption.
Qed.

(** Two bodies of mass 4 around one of mass 2: the first one is the
    anchor. *)
Lemma mostMassive_first_heaviest_witness :
  exists i pr,
    planets (spawnPaused [atRest 0 4 "A"; atRest 1 2 "B"; atRest 2 4 "C"]) !! i
      = Some 0%nat /\
    heap (spawnPaused [atRest 0 4 "A"; atRest 1 2 "B"; atRest 2 4 "C"]) !! 0%nat
      = Some pr /\
    forall j q pq, (j < i)%nat ->
      planets (spawnPaused [atRest 0 4 "A"; atRest 1 2 "B"; atRest 2 4 "C"]) !! j
        = Some q ->
      heap (spawnPaused [atRest 0 4 "A"; atRest 1 2 "B"; atRest 2 4 "C"]) !! q
        = Some pq ->
      (mass pq <? mass pr) = true.
Proof.
  apply (mostMassive_first_heaviest
           (spawnPaused [atRest 0 4 "A"; atRest 1 2 "B"; atRest 2 4 "C"]) 0%nat).
  - vm_compute. repeat constructor; eexists; split; reflexivity.
  - vm_compute. reflexivity.
Defined.

(** ** Positions on the canvas and spawning next to the anchor *)

(** X3. On a collection of valid references, reading a canvas position
    fails (the anchor is [undefined]) exactly when the collection is
    empty. *)
Theorem getPosition_fails_iff_empty (p : Planet) (w : World) :
  Forall (fun q => q < length (heap w))%nat (planets w) ->
  (getPosition p w = None <-> planets w = []).
Proof.
  intros Hvalid. unfold getPosition.
  destruct (getMostMassivePlanet w) as [r|] eqn:Hr; simpl.
  - destruct (anchor_spec w r Hvalid Hr) as (_ & pr & -> & _).
    split; [discriminate|]. intros Hps. apply mostMassive_None in Hps. congruence.
  - apply mostMassive_None in Hr. split; [intros _; exact Hr | reflexivity].
Qed.

Lemma getPosition_fails_iff_empty_witness :
  getPosition moving emptyWorld = None <-> planets emptyWorld = [].
Proof.
  apply (getPosition_fails_iff_empty moving emptyWorld). constructor.
Defined.

(** X4. With a body in the collection, a spawn request with valid numbers
    appends exactly one new object to the store and leaves every existing
    object as it is.  The new object's [x] is the [x] of a heaviest body of
    the collection plus [distancePx * distanceScale], its [y] is that
    body's [y]; its radius, colour, mass, velocity and name are the
    requested ones, its trail is empty and its fade speed 0.005.  It is
    appended to the collection, and the log names the heaviest body. *)
Theorem spawn_next_to_anchor (i : SpawnInput) (w : World) :
  Forall (fun q => q < length (heap w))%nat (planets w) ->
  planets w <> [] ->
  (isNaN (in_mass i) || isNaN (in_radius i) || isNaN (in_velocityX i)
   || isNaN (in_velocityY i) || isNaN (in_distancePx i))%bool = false ->
  exists (c : ref) (pc p : Planet),
    c ∈ planets w /\ heap w !! c = Some pc /\
    (forall q pq, q ∈ planets w -> heap w !! q = Some pq -> (mass pc <? mass pq) = false) /\
    heap (spawnPlanet i w) = heap w ++ [p] /\
    x p = x pc + in_distancePx i * distanceScale /\
    y p = y pc /\
    radius p = in_radius i /\ color p = in_color i /\ mass p = in_mass i /\
    vel_x (velocity p) = in_velocityX i /\ vel_y (velocity p) = in_velocityY i /\
    name p = in_name i /\ trail p = [] /\ fadeSpeed p = 0.005 /\
    planets (spawnPlanet i w) = planets w ++ [length (heap w)] /\
    log (spawnPlanet i w)
      = log w ++ [MsgSpawned (in_name i) (in_distancePx i)
                             (in_distancePx i * distanceScale) (name pc)].
Proof.
  intros Hvalid Hne Hin.
  destruct (getMostMassivePlanet w) as [c|] eqn:Hc;
    [|apply mostMassive_None in Hc; contradiction].
  destruct (anchor_spec w c Hvalid Hc) as (Hcin & pc & Hpc & Hmax).
  exists c, pc. eexists. split; [exact Hcin|]. split; [exact Hpc|]. split; [exact Hmax|].
  unfold spawnPlanet. rewrite Hin, Hc. simpl. rewrite Hpc. simpl.
  split; [reflexivity|]. simpl. repeat split.
Qed.

Lemma spawn_next_to_anchor_witness :
  exists p : Planet,
    heap (spawnPlanet sampleInput wapart) = heap wapart ++ [p] /\
    x p = 400 + 150 * distanceScale /\
    y p = 300 /\
    radius p = 5 /\ color p = "rgb(1,2,3)"%string /\ mass p = 5e24 /\
    vel_x (velocity p) = 0 /\ vel_y (velocity p) = 30000 /\
    name p = "Earth"%string /\ trail p = [] /\ fadeSpeed p = 0.005 /\
    planets (spawnPlanet sampleInput wapart) = [0; 1; 2]%nat /\
    log (spawnPlanet sampleInput wapart)
      = log wapart ++ [MsgSpawned "Earth" 150 (150 * distanceScale) "A"].
Proof.
  assert (Hheap : heap wapart = [still 400 4 "A"; still 1000000000400 2 "B"])
    by (vm_compute; reflexivity).
  assert (Hps : planets wapart = [0; 1]%nat) by (vm_compute; reflexivity).
  destruct (spawn_next_to_anchor sampleInput wapart)
    as (c & pc & p & Hc & Hpc & Hmax & Hp & Hx & Hy & Hrest).
  - rewrite Hps, Hheap. repeat constructor.
  - rewrite Hps. discriminate.
  - reflexivity.
  - assert (Hpc' : pc = still 400 4 "A").
    { rewrite Hps in Hc. apply elem_of_cons in Hc as [-> | Hc].
      - rewrite Hheap in Hpc. simpl in Hpc. congruence.
      - apply list_elem_of_singleton in Hc as ->.
        rewrite Hheap in Hpc. simpl in Hpc.
        assert (Hpc2 : pc = still 1000000000400 2 "B") by congruence.
        specialize (Hmax 0%nat (still 400 4 "A")).
        rewrite Hps, Hheap, Hpc2 in Hmax.
        specialize (Hmax ltac:(left) eq_refl). vm_compute in Hmax. discriminate Hmax. }
    subst pc. exists p. split; [exact Hp|]. split; [exact Hx|]. split; [exact Hy|].
    rewrite Hps in Hrest. exact Hrest.
Defined.

(** ** Deleting by click *)

Lemma deleteLoop_step (x0 y0 : float) (i : nat) (w : World) :
  deleteLoop x0 y0 (S i) w
  = match planets w !! i ≫= (fun r => heap w !! r) with
    | None => (TypeError, w, [])
    | Some p =>
        match clicked x0 y0 p w with
        | None => (TypeError, w, [])
        | Some false => deleteLoop x0 y0 i w
        | Some true =>
            match planets (setPlanets (splice i 1 [] (planets w)) w) !! i
                    ≫= (fun r => heap w !! r) with
            | None => (TypeError, setPlanets (splice i 1 [] (planets w)) w, [])
            | Some q =>
                let '(c, w', msgs) :=
                  deleteLoop x0 y0 i (setPlanets (splice i 1 [] (planets w)) w) in
                (c, w', {| del_name := name q; del_x := x0; del_y := y0 |} :: msgs)
            end
        end
    end.
Proof. reflexivity. Qed.

Lemma deleteLoop_miss (x0 y0 : float) (n : nat) (w : World) :
  (n <= length (planets w))%nat ->
  Forall (fun q => q < length (heap w))%nat (planets w) ->
  (forall r p, r ∈ planets w -> heap w !! r = Some p -> clicked x0 y0 p w = Some false) ->
  deleteLoop x0 y0 n w = (Normal, w, []).
Proof.
  intros Hn Hvalid Hmiss. induction n as [|i IH]; [reflexivity|].
  rewrite deleteLoop_step.
  destruct (lookup_lt_is_Some_2 (planets w) i ltac:(lia)) as [r Hr].
  assert (Hin : r ∈ planets w) by (eapply list_elem_of_lookup_2, Hr).
  rewrite Forall_forall in Hvalid.
  destruct (lookup_lt_is_Some_2 _ _ (Hvalid r Hin)) as [p Hp].
  rewrite Hr. simpl. rewrite Hp, (Hmiss r p Hin Hp). apply IH. lia.
Qed.

(** X5. A click that is out of range of every body of the collection
    changes nothing, logs nothing and does not fail. *)
Theorem deletePlanets_out_of_range (x0 y0 : float) (w : World) :
  Forall (fun q => q < length (heap w))%nat (planets w) ->
  (forall r p, r ∈ planets w -> heap w !! r = Some p -> clicked x0 y0 p w = Some false) ->
  deletePlanets x0 y0 w = (Normal, w, []).
Proof. intros Hvalid Hmiss. apply deleteLoop_miss; [lia | exact Hvalid | exact Hmiss]. Qed.

Lemma deletePlanets_out_of_range_witness :
  deletePlanets 0 0 wapart = (Normal, wapart, []).
Proof.
  apply (deletePlanets_out_of_range 0 0 wapart).
  - vm_compute. repeat constructor.
  - assert (Hps : planets wapart = [0%nat; 1%nat]) by (vm_compute; reflexivity).
    rewrite Hps. intros r p Hr Hp.
    apply elem_of_cons in Hr as [-> | Hr]; [|apply list_elem_of_singleton in Hr as ->];
      vm_compute in Hp; injection Hp as <-; vm_compute; reflexivity.
Defined.

Lemma splice_remove_sublist (i : nat) (l : list ref) : sublist (splice i 1 [] l) l.
Proof.
  unfold splice. simpl. rewrite <- (take_drop i l) at 3.
  apply sublist_app; [reflexivity|].
  rewrite <- (drop_drop l 1 i). apply sublist_drop.
Qed.

Lemma deleteLoop_frame (x0 y0 : float) (n : nat) (w w' : World) (c : Completion)
    (msgs : list Deleted) :
  deleteLoop x0 y0 n w = (c, w', msgs) ->
  w' = setPlanets (planets w') w /\
  sublist (planets w') (planets w) /\
  (length (planets w') + length msgs <= length (planets w))%nat /\
  (c = Normal -> (length (planets w') + length msgs)%nat = length (planets w)).
Proof.
  revert w w' c msgs. induction n as [|i IH]; intros w w' c msgs H.
  - injection H as <- <- <-. destruct w. simpl. repeat split; reflexivity || lia.
  - rewrite deleteLoop_step in H.
    assert (Hself : w = setPlanets (planets w) w) by (destruct w; reflexivity).
    destruct (planets w !! i ≫= _) as [p|];
      [|injection H as <- <- <-; simpl; repeat split; (exact Hself || reflexivity || lia || discriminate)].
    destruct (clicked x0 y0 p w) as [[|]|];
      [| apply IH, H
       | injection H as <- <- <-; simpl; repeat split; (exact Hself || reflexivity || lia || discriminate)].
    pose proof (splice_remove_sublist i (planets w)) as Hsub.
    destruct (planets (setPlanets _ w) !! i ≫= _) as [q|] eqn:Hq.
    + destruct (deleteLoop x0 y0 i _) as [[c1 w1] msgs1] eqn:E.
      injection H as <- <- <-.
      destruct (IH _ _ _ _ E) as (Hw & Hs & Hlen & Hnorm). simpl in *.
      assert (Hi : (i < length (splice i 1 [] (planets w)))%nat).
      { destruct (splice i 1 [] (planets w) !! i) eqn:El; [|discriminate Hq].
        eapply lookup_lt_Some, El. }
      assert (Hlen1 : (S (length (splice i 1 [] (planets w))) <= length (planets w))%nat).
      { unfold splice in *. rewrite !length_app, length_take, length_drop in *.
        simpl in *. lia. }
      assert (Hlen2 : S (length (splice i 1 [] (planets w))) = length (planets w)).
      { unfold splice in *. rewrite !length_app, length_take, length_drop in *.
        simpl in *. lia. }
      repeat split.
      * rewrite Hw at 1. destruct w. reflexivity.
      * etransitivity; eassumption.
      * lia.
      * intros Hc. specialize (Hnorm Hc). lia.
    + injection H as <- <- <-. simpl.
      repeat split; try (destruct w; reflexivity); try exact Hsub; try discriminate.
      apply sublist_length in Hsub. lia.
Qed.

(** X6. Deleting only removes: whatever the click, the objects, the time
    step, the pause flag and the log are as before, the collection is a
    sublist of what it was, and every paragraph logged stands for one
    removed body (when the handler does not fail, the two numbers agree). *)
Theorem deletePlanets_only_removes (x0 y0 : float) (w : World) :
  (deletePlanets x0 y0 w).1.2
    = setPlanets (planets (deletePlanets x0 y0 w).1.2) w /\
  sublist (planets (deletePlanets x0 y0 w).1.2) (planets w) /\
  (length (planets (deletePlanets x0 y0 w).1.2) + length (deletePlanets x0 y0 w).2
   <= length (planets w))%nat /\
  ((deletePlanets x0 y0 w).1.1 = Normal ->
   (length (planets (deletePlanets x0 y0 w).1.2) + length (deletePlanets x0 y0 w).2)%nat
   = length (planets w)).
Proof.
  destruct (deletePlanets x0 y0 w) as [[c w'] msgs] eqn:E. simpl.
  apply (deleteLoop_frame x0 y0 _ w w' c msgs E).
Qed.

(** X7. When the last body of the collection is within range of the
    click, it is removed, and the handler then fails on
    [planets[i].name] with a TypeError: nothing is logged and no other
    body is examined. *)
Theorem deletePlanets_last_in_range (x0 y0 : float) (w : World) (ps : list ref)
    (r : ref) (p : Planet) :
  planets w = ps ++ [r] -> heap w !! r = Some p -> clicked x0 y0 p w = Some true ->
  deletePlanets x0 y0 w = (TypeError, setPlanets ps w, []).
Proof.
  intros Hps Hp Hc. unfold deletePlanets.
  rewrite Hps, length_app, Nat.add_comm. simpl. rewrite Hps.
  rewrite lookup_app_r, Nat.sub_diag by lia. simpl. rewrite Hp, Hc.
  assert (Hsp : splice (length ps) 1 [] (ps ++ [r]) = ps).
  { unfold splice. rewrite take_app_length, drop_ge by (rewrite length_app; simpl; lia).
    simpl. apply app_nil_r. }
  rewrite Hsp. simpl. rewrite (lookup_ge_None_2 ps (length ps)) by lia. reflexivity.
Qed.

Lemma deletePlanets_last_in_range_witness :
  deletePlanets 1400 300 wapart = (TypeError, setPlanets [0%nat] wapart, []).
Proof.
  apply (deletePlanets_last_in_range 1400 300 wapart [0%nat] 1%nat
           (still 1000000000400 2 "B")); vm_compute; reflexivity.
Defined.

Lemma deleteLoop_names (x0 y0 : float) (n : nat) (w w' : World) (c : Completion)
    (msgs : list Deleted) :
  (n <= length (planets w))%nat ->
  deleteLoop x0 y0 n w = (c, w', msgs) ->
  (forall r, r ∈ drop n (planets w) -> r ∈ planets w') /\
  (forall m, m ∈ msgs ->
     exists r q, r ∈ planets w' /\ heap w !! r = Some q /\ del_name m = name q).
Proof.
  revert w w' c msgs. induction n as [|i IH]; intros w w' c msgs Hn H.
  - injection H as <- <- <-. split; [intros r Hr; exact Hr|].
    intros m Hm. apply elem_of_nil in Hm. destruct Hm.
  - rewrite deleteLoop_step in H.
    assert (Hstop : forall r, r ∈ drop (S i) (planets w) -> r ∈ planets w)
      by (intros r Hr; eapply subseteq_drop, Hr).
    assert (Hnone : forall m : Deleted, m ∈ [] ->
              exists r q, r ∈ planets w /\ heap w !! r = Some q /\ del_name m = name q)
      by (intros m Hm; apply elem_of_nil in Hm; destruct Hm).
    destruct (planets w !! i ≫= _) as [p|];
      [|injection H as <- <- <-; split; assumption].
    destruct (clicked x0 y0 p w) as [[|]|];
      [| | injection H as <- <- <-; split; assumption].
    + assert (Hdrop : drop i (splice i 1 [] (planets w)) = drop (S i) (planets w)).
      { unfold splice. simpl. rewrite drop_app_length' by (rewrite length_take; lia).
        f_equal. lia. }
      destruct (planets (setPlanets _ w) !! i ≫= _) as [q|] eqn:Hq.
      * destruct (deleteLoop x0 y0 i _) as [[c1 w1] msgs1] eqn:E.
        injection H as <- <- <-.
        assert (Hi : (i <= length (planets (setPlanets (splice i 1 [] (planets w)) w)))%nat).
        { simpl. unfold splice. rewrite length_app, length_take. lia. }
        destruct (IH _ _ _ _ Hi E) as (Hkeep & Hnames).
        simpl in Hkeep, Hnames, Hq. rewrite Hdrop in Hkeep.
        split; [exact Hkeep|].
        intros m [-> | Hm]%elem_of_cons; [|apply Hnames, Hm].
        destruct (splice i 1 [] (planets w) !! i) as [r|] eqn:Hr; [|discriminate Hq].
        simpl in Hq. exists r, q. split; [|split; [exact Hq | reflexivity]].
        apply Hkeep. rewrite <- Hdrop.
        rewrite <- (take_drop i (splice i 1 [] (planets w))) in Hr.
        rewrite lookup_app_r in Hr by (rewrite length_take; lia).
        eapply list_elem_of_lookup_2, Hr.
      * injection H as <- <- <-. simpl. split.
        -- intros r Hr. rewrite <- Hdrop in Hr. eapply subseteq_drop, Hr.
        -- intros m Hm. apply elem_of_nil in Hm. destruct Hm.
    + destruct (IH w w' c msgs ltac:(lia) H) as (Hkeep & Hnames). split; [|exact Hnames].
      intros r Hr. apply Hkeep. replace (S i) with (i + 1)%nat in Hr by lia.
      rewrite <- (drop_drop _ 1 i) in Hr. eapply subseteq_drop, Hr.
Qed.

(** X8. The name in every paragraph the handler logs is the name of a
    body that is still in the collection when the handler ends: after
    [planets.splice(i, 1)] the message reads [planets[i]], which is the body
    that followed the deleted one. *)
Theorem deletePlanets_names_a_survivor (x0 y0 : float) (w : World) (m : Deleted) :
  m ∈ (deletePlanets x0 y0 w).2 ->
  exists r q,
    r ∈ planets (deletePlanets x0 y0 w).1.2 /\ heap w !! r = Some q /\
    del_name m = name q.
Proof.
  destruct (deletePlanets x0 y0 w) as [[c w'] msgs] eqn:E. simpl. intros Hm.
  destruct (deleteLoop_names x0 y0 (length (planets w)) w w' c msgs ltac:(lia) E)
    as (_ & Hnames).
  apply Hnames, Hm.
Qed.

(** A click on the first of two bodies far apart: the log names the
    second. *)
Lemma deletePlanets_names_a_survivor_witness :
  deletePlanets 400 300 wapart
    = (Normal, setPlanets [1%nat] wapart, [{| del_name := "B"; del_x := 400; del_y := 300 |}]) /\
  exists r q,
    r ∈ planets (deletePlanets 400 300 wapart).1.2 /\ heap wapart !! r = Some q /\
    "B"%string = name q.
Proof.
  split; [vm_compute; reflexivity|].
  apply (deletePlanets_names_a_survivor 400 300 wapart
           {| del_name := "B"; del_x := 400; del_y := 300 |}).
  vm_compute. apply list_elem_of_here.
Defined.

(** ** The collection stays well formed *)

Lemma wellFormed_sublist (w : World) (ps : list ref) :
  wellFormed w -> sublist ps (planets w) -> wellFormed (setPlanets ps w).
Proof.
  intros [Hnd Hvalid] Hsub. split; simpl.
  - eapply sublist_NoDup; eassumption.
  - rewrite Forall_forall in *. intros r Hr. eapply Hvalid, elem_of_sublist; eassumption.
Qed.

Lemma splice_replace_wf (i : nat) (l : list ref) (n : nat) :
  NoDup l -> Forall (fun r => r < n)%nat l ->
  NoDup (splice i 1 [n] l) /\ Forall (fun r => r < S n)%nat (splice i 1 [n] l).
Proof.
  intros Hnd Hvalid.
  pose proof (splice_remove_sublist i l) as Hsub. unfold splice in *. simpl in *.
  assert (Hin : forall r, r ∈ take i l ++ drop (i + 1) l -> (r < n)%nat).
  { intros r Hr. rewrite Forall_forall in Hvalid. eapply Hvalid, elem_of_sublist; eassumption. }
  split.
  - rewrite <- Permutation_middle. apply NoDup_cons. split.
    + intros Hn. apply Hin in Hn. lia.
    + eapply sublist_NoDup; eassumption.
  - rewrite Forall_forall. intros r Hr.
    apply elem_of_app in Hr as [Hr | Hr].
    + specialize (Hin r ltac:(apply elem_of_app; left; exact Hr)). lia.
    + apply elem_of_cons in Hr as [-> | Hr]; [lia|].
      specialize (Hin r ltac:(apply elem_of_app; right; exact Hr)). lia.
Qed.

Lemma wellFormed_checkCollision (this other : ref) (w : World) :
  wellFormed w -> wellFormed (checkCollision this other w).
Proof.
  intros Hw.
  destruct (heap w !! this) as [a|] eqn:Ha; [destruct (heap w !! other) as [b|] eqn:Hb|].
  - destruct (collides a b) eqn:Hc.
    + destruct (checkCollision_hit w this other a b Ha Hb Hc) as (Hh & _ & _ & _ & _ & Hps).
      unfold wellFormed. rewrite Hh, Hps, length_app. cbv zeta. simpl length.
      replace (length (heap w) + 1)%nat with (S (length (heap w))) by lia.
      remember (if (indexOf other (planets w) >? -1)%Z
                then splice (Z.to_nat (indexOf other (planets w))) 1 [] (planets w)
                else planets w) as ps1 eqn:Eps1.
      assert (H1 : NoDup ps1 /\ Forall (fun r => r < length (heap w))%nat ps1).
      { subst ps1. destruct (indexOf other (planets w) >? -1)%Z; [|exact Hw].
        apply (wellFormed_sublist w _ Hw), splice_remove_sublist. }
      destruct H1 as [Hnd1 Hv1].
      destruct (indexOf this (planets w) >? -1)%Z.
      * apply splice_replace_wf; assumption.
      * split; [exact Hnd1|]. eapply Forall_impl; [exact Hv1|]. intros r Hr. simpl in Hr. lia.
    + rewrite (checkCollision_miss w this other a b Ha Hb Hc). exact Hw.
  - unfold checkCollision. rewrite Ha, Hb. exact Hw.
  - unfold checkCollision. rewrite Ha. exact Hw.
Qed.

Section WellFormed.

Context (Math : MathLib).

Lemma wellFormed_applyGravity (this other : ref) (w : World) :
  wellFormed w -> wellFormed (applyGravity Math this other w).
Proof.
  intros Hw. unfold wellFormed.
  destruct (applyGravity_fields Math this other w) as (-> & _ & _ & _ & ->). exact Hw.
Qed.

Lemma wellFormed_visit (this other : ref) (w : World) :
  wellFormed w -> wellFormed (visit Math this other w).
Proof.
  intros Hw. unfold visit. destruct (Nat.eqb other this); [exact Hw|].
  apply wellFormed_checkCollision, wellFormed_applyGravity, Hw.
Qed.

Lemma wellFormed_update_loop (fuel : nat) (this : ref) (k : nat) (w : World) :
  wellFormed w -> wellFormed (update_loop Math fuel this k w).
Proof.
  revert k w. induction fuel as [|fuel IH]; intros k w Hw; [exact Hw|].
  rewrite update_loop_step. destruct (planets w !! k); [|exact Hw].
  apply IH, wellFormed_visit, Hw.
Qed.

Lemma wellFormed_update (this : ref) (w : World) :
  wellFormed w -> wellFormed (update Math this w).
Proof.
  intros Hw. unfold wellFormed.
  destruct (update_fields Math this w) as (-> & _ & _ & _ & _ & ->).
  apply wellFormed_update_loop, Hw.
Qed.

Lemma wellFormed_animate (w : World) : wellFormed w -> wellFormed (animate Math w).2.
Proof.
  unfold animate. destruct (isPaused w); [trivial|].
  generalize (length (planets w)) 0%nat. intros fuel. revert w.
  induction fuel as [|fuel IH]; intros w i Hw; [exact Hw|].
  rewrite animate_loop_step. destruct (planets w !! i) as [p|]; [|exact Hw].
  pose proof (wellFormed_update p w Hw) as H1.
  destruct (planets (update Math p w) !! i); [apply IH, H1 | exact H1].
Qed.

Lemma wellFormed_push (w : World) (ps : list Planet) :
  wellFormed w ->
  wellFormed (setPlanets (planets w ++ seq (length (heap w)) (length ps))
                (setHeap (heap w ++ ps) w)).
Proof.
  intros [Hnd Hvalid]. split; simpl.
  - apply NoDup_app. split; [exact Hnd|]. split; [|apply NoDup_seq].
    intros r Hr Hr'. apply elem_of_seq in Hr'.
    rewrite Forall_forall in Hvalid. specialize (Hvalid r Hr). lia.
  - rewrite length_app. apply Forall_app. split.
    + eapply Forall_impl; [exact Hvalid|]. intros r Hr. simpl in Hr. lia.
    + apply Forall_seq. intros j Hj. lia.
Qed.

Lemma wellFormed_spawnPlanet (i : SpawnInput) (w : World) :
  wellFormed w -> wellFormed (spawnPlanet i w).
Proof.
  intros Hw. unfold spawnPlanet. destruct (_ || _)%bool; [exact Hw|].
  destruct (getMostMassivePlanet w ≫= _);
    exact (wellFormed_push w [_] Hw).
Qed.

Lemma wellFormed_spawnSolarSystem (w : World) :
  wellFormed w -> wellFormed (spawnSolarSystem w).
Proof.
  intros _. split.
  - exact (NoDup_seq (length (heap w)) (length solarSystem)).
  - change (Forall (fun r => r < length (heap w ++ solarSystem))%nat
                   (seq (length (heap w)) (length solarSystem))).
    rewrite length_app. apply Forall_seq. intros j Hj. lia.
Qed.

Lemma reachable_wf (w : World) : reachable Math w -> wellFormed w.
Proof.
  induction 1 as [w Hh Hps | w _ IH | i w _ IH | w _ IH | w _ IH | w w' _ IH Hh Hsub].
  - split; rewrite Hps; constructor.
  - apply wellFormed_animate, IH.
  - apply wellFormed_spawnPlanet, IH.
  - apply wellFormed_spawnSolarSystem, IH.
  - exact IH.
  - destruct (wellFormed_sublist w (planets w') IH Hsub) as [Hnd Hvalid].
    split; [exact Hnd|]. simpl in Hvalid. rewrite Hh. exact Hvalid.
Qed.

(** X9. In every world the page can reach, the collection holds no body
    twice and every entry refers to an existing object; a frame keeps this
    even when its merges go wrong. *)
Theorem reachable_wellFormed (w : World) :
  reachable Math w -> wellFormed w /\ wellFormed (animate Math w).2.
Proof.
  intros Hr. split; [|apply wellFormed_animate]; apply reachable_wf, Hr.
Qed.

End WellFormed.

Lemma reachable_wellFormed_witness :
  wellFormed w3 /\ wellFormed (animate sampleMath w3).2.
Proof. apply (reachable_wellFormed sampleMath w3), spawnPaused_reachable. Defined.

(** ** The two shapes of a merge *)

Lemma indexOf_NoDup (l : list ref) (i : nat) (r : ref) :
  NoDup l -> l !! i = Some r -> indexOf r l = Z.of_nat i.
Proof.
  intros Hnd Hi.
  destruct (indexOf_present r l (list_elem_of_lookup_2 _ _ _ Hi)) as (n & -> & Hn & _).
  f_equal. eapply NoDup_lookup; eassumption.
Qed.

Lemma splice_remove_delete (j : nat) (l : list ref) : splice j 1 [] l = delete j l.
Proof.
  unfold splice. simpl. rewrite delete_take_drop. f_equal. f_equal. lia.
Qed.

Lemma merge_planets (w : World) (this other : ref) (a b : Planet) (i j : nat) :
  heap w !! this = Some a -> heap w !! other = Some b -> collides a b = true ->
  NoDup (planets w) ->
  planets w !! i = Some this -> planets w !! j = Some other ->
  planets (checkCollision this other w)
  = splice i 1 [length (heap w)] (delete j (planets w)).
Proof.
  intros Ha Hb Hc Hnd Hi Hj.
  destruct (checkCollision_hit w this other a b Ha Hb Hc) as (_ & _ & _ & _ & _ & ->).
  rewrite (indexOf_NoDup _ i this Hnd Hi), (indexOf_NoDup _ j other Hnd Hj).
  replace (Z.of_nat j >? -1)%Z with true by (symmetry; apply Z.gtb_lt; lia).
  replace (Z.of_nat i >? -1)%Z with true by (symmetry; apply Z.gtb_lt; lia).
  cbv zeta. rewrite !Nat2Z.id, splice_remove_delete. reflexivity.
Qed.

(** X10. A merge in which [this] stands before [other] in the collection
    does what it is meant to: [other] is removed and the merged body takes
    the slot of [this]; every other body keeps its place in the order. *)
Theorem merge_this_before_other (w : World) (this other : ref) (a b : Planet)
    (i j : nat) :
  heap w !! this = Some a -> heap w !! other = Some b -> collides a b = true ->
  NoDup (planets w) ->
  planets w !! i = Some this -> planets w !! j = Some other -> (i < j)%nat ->
  planets (checkCollision this other w) = <[i := length (heap w)]> (delete j (planets w)) /\
  heap (checkCollision this other w) !! length (heap w) = Some (fusedPlanet a b).
Proof.
  intros Ha Hb Hc Hnd Hi Hj Hij. split.
  - rewrite (merge_planets w this other a b i j Ha Hb Hc Hnd Hi Hj).
    unfold splice. rewrite insert_take_drop.
    + simpl. do 3 f_equal. lia.
    + rewrite length_delete by (eexists; exact Hj). apply lookup_lt_Some in Hj. lia.
  - destruct (checkCollision_hit w this other a b Ha Hb Hc) as (-> & _).
    rewrite lookup_app_r, Nat.sub_diag by lia. reflexivity.
Qed.

Lemma merge_this_before_other_witness :
  planets (checkCollision 0%nat 1%nat wfar) = <[0%nat := 3%nat]> (delete 1%nat (planets wfar)) /\
  heap (checkCollision 0%nat 1%nat wfar) !! 3%nat
    = Some (fusedPlanet (still 400 4 "A") (still 1000000400 2 "B")).
Proof.
  assert (Hps : planets wfar = [0%nat; 1%nat; 2%nat]) by (vm_compute; reflexivity).
  apply (merge_this_before_other wfar 0%nat 1%nat
           (still 400 4 "A") (still 1000000400 2 "B") 0%nat 1%nat).
  - vm_compute. reflexivity.
  - vm_compute. reflexivity.
  - vm_compute. reflexivity.
  - rewrite Hps. apply (NoDup_seq 0 3).
  - rewrite Hps. reflexivity.
  - rewrite Hps. reflexivity.
  - lia.
Defined.

(** X11. A merge in which [other] stands before [this] goes wrong: the
    index of [this] is taken before [other] is removed, so [this] stays in
    the collection (one slot down), the merged body is put behind it, and
    the body that followed [this], if any, is dropped from the
    collection. *)
Theorem merge_other_before_this (w : World) (this other : ref) (a b : Planet)
    (i j : nat) :
  heap w !! this = Some a -> heap w !! other = Some b -> collides a b = true ->
  wellFormed w ->
  planets w !! i = Some this -> planets w !! j = Some other -> (j < i)%nat ->
  planets (checkCollision this other w) !! (i - 1)%nat = Some this /\
  planets (checkCollision this other w) !! i = Some (length (heap w)) /\
  (other ∉ planets (checkCollision this other w)) /\
  (forall s, planets w !! S i = Some s -> s ∉ planets (checkCollision this other w)).
Proof.
  intros Ha Hb Hc [Hnd Hvalid] Hi Hj Hji.
  pose proof (checkCollision_removes_other w this other a b Ha Hb Hc Hnd) as Hother.
  rewrite (merge_planets w this other a b i j Ha Hb Hc Hnd Hi Hj) in *.
  assert (Hlen : length (delete j (planets w)) = (length (planets w) - 1)%nat)
    by (apply length_delete; eexists; exact Hj).
  assert (Hil : (i < length (planets w))%nat) by (eapply lookup_lt_Some, Hi).
  assert (Htake : length (take i (delete j (planets w))) = i)
    by (rewrite length_take; lia).
  unfold splice. split; [|split; [|split]].
  - rewrite lookup_app_l by lia. rewrite lookup_take_lt by lia.
    rewrite list_lookup_delete_ge by lia. replace (S (i - 1)) with i by lia. exact Hi.
  - rewrite lookup_app_r by lia. rewrite Htake, Nat.sub_diag. reflexivity.
  - exact Hother.
  - intros s Hs.
    assert (Hs' : delete j (planets w) !! i = Some s)
      by (rewrite list_lookup_delete_ge by lia; exact Hs).
    assert (Hnd' : NoDup (delete j (planets w))).
    { rewrite <- splice_remove_delete. eapply sublist_NoDup; [exact Hnd|].
      apply splice_remove_sublist. }
    destruct (NoDup_lookup_not_after _ _ _ Hnd' Hs') as [H1 H2].
    intros [Hin | [Hin | Hin]%elem_of_app]%elem_of_app.
    + contradiction.
    + apply list_elem_of_singleton in Hin.
      rewrite Forall_forall in Hvalid.
      specialize (Hvalid s (list_elem_of_lookup_2 _ _ _ Hs)). lia.
    + replace (i + 1)%nat with (S i) in Hin by lia. contradiction.
Qed.

(** Three bodies on one spot, the third merging with the first: the first
    is removed, the third stays and the merged body is put behind it. *)
Lemma merge_other_before_this_witness :
  planets (checkCollision 2%nat 0%nat w3) !! 1%nat = Some 2%nat /\
  planets (checkCollision 2%nat 0%nat w3) !! 2%nat = Some 3%nat /\
  (0%nat ∉ planets (checkCollision 2%nat 0%nat w3)) /\
  (forall s, planets w3 !! 3%nat = Some s -> s ∉ planets (checkCollision 2%nat 0%nat w3)).
Proof.
  assert (Hps : planets w3 = [0%nat; 1%nat; 2%nat]) by (vm_compute; reflexivity).
  apply (merge_other_before_this w3 2%nat 0%nat (still 400 4 "A") (still 400 1 "X")
           2%nat 0%nat).
  - vm_compute. reflexivity.
  - vm_compute. reflexivity.
  - vm_compute. reflexivity.
  - apply (reachable_wf sampleMath w3), spawnPaused_reachable.
  - rewrite Hps. reflexivity.
  - rewrite Hps. reflexivity.
  - lia.
Defined.

(** ** More about trails *)

Lemma evict_aged_exact (t : list TrailPoint) (n : nat) :
  (n <= 199)%nat -> map life t = agedLives (S n) ->
  map life (evict t) = agedLives (Nat.min (S n) 199) /\
  exists j, (j <= 1)%nat /\ (j <= n)%nat /\ evict t = drop j t.
Proof.
  intros Hn Ht. remember (Nat.min (S n) 199) as k eqn:Hk.
  destruct t as [|p t]; [discriminate|].
  simpl in Ht. injection Ht as Hp Ht. simpl.
  destruct (decide (n = 199%nat)) as [->|Hne].
  - assert (k = 199%nat) as -> by lia.
    rewrite Hp, lifeAfter_200_dead.
    destruct t as [|q t]; [discriminate|].
    simpl in Ht. injection Ht as Hq Ht. simpl.
    rewrite Hq, lifeAfter_alive by lia. split.
    + simpl. rewrite Hq, Ht. reflexivity.
    + exists 1%nat. repeat split; lia.
  - assert (k = S n) as -> by lia.
    rewrite Hp, lifeAfter_alive by lia. split.
    + simpl. rewrite Hp, Ht. reflexivity.
    + exists 0%nat. repeat split; lia.
Qed.

Lemma integrate_age (dt0 : float) (p : Planet) (n : nat) :
  fadeSpeed p = 0.005 -> (n <= 199)%nat -> map life (trail p) = agedLives n ->
  fadeSpeed (integrate dt0 p) = 0.005 /\
  map life (trail (integrate dt0 p)) = agedLives (Nat.min (S n) 199) /\
  exists j, (j <= 1)%nat /\ (j <= n)%nat /\
    trail (integrate dt0 p)
    = drop j (map (fade 0.005)
                (trail p ++ [{| tp_x := x (integrate dt0 p); tp_y := y (integrate dt0 p);
                               life := 1.0 |}])).
Proof.
  intros Hfs Hn Ht. split; [exact Hfs|].
  unfold integrate. simpl. rewrite Hfs. unfold maintainTrail.
  apply (evict_aged_exact _ n Hn).
  rewrite <- agedLives_fade, <- Ht, !map_app, !map_map. reflexivity.
Qed.

Lemma lived_age (steps : list (Velocity * float)) (p : Planet) (n : nat) :
  fadeSpeed p = 0.005 -> (n <= 199)%nat -> map life (trail p) = agedLives n ->
  map life (trail (lived steps p)) = agedLives (Nat.min (n + length steps) 199).
Proof.
  revert p n. induction steps as [|[v d] steps IH]; intros p n Hfs Hn Ht.
  - simpl. replace (Nat.min (n + 0) 199) with n by lia. exact Ht.
  - simpl.
    destruct (integrate_age d (setVelocity v p) n Hfs Hn Ht) as (Hfs' & Ht' & _).
    rewrite (IH _ (Nat.min (S n) 199) Hfs' ltac:(lia) Ht'). f_equal. lia.
Qed.

(** X12. A new body's trail grows by one point per update until it holds
    199 points and keeps that length from then on, whatever the velocities
    and time steps: after [n] updates it has [min n 199] points. *)
Theorem trail_length_after_updates (steps : list (Velocity * float))
    (x0 y0 r0 : float) (c : string) (m : float) (v : Velocity) (n : string) :
  length (trail (lived steps (newPlanet x0 y0 r0 c m v n)))
  = Nat.min (length steps) 199.
Proof.
  rewrite <- (length_map life).
  rewrite (lived_age steps _ 0); [apply agedLives_length | reflexivity | lia | reflexivity].
Qed.

Lemma last_drop {A : Type} (j : nat) (l : list A) :
  (j < length l)%nat -> last (drop j l) = last l.
Proof.
  intros Hj. rewrite !last_lookup, lookup_drop, length_drop. f_equal. lia.
Qed.

(** X13. In every world the page can reach, after [update] the newest
    point of the receiver's trail is its new position, with life
    [1.0 - 0.005]. *)
Theorem trail_ends_at_position (Math : MathLib) (w : World) (this : ref) (p : Planet) :
  reachable Math w -> heap w !! this = Some p ->
  exists p' : Planet,
    heap (update Math this w) !! this = Some p' /\
    last (trail p') = Some {| tp_x := x p'; tp_y := y p'; life := 1.0 - 0.005 |}.
Proof.
  intros Hr Hp. unfold update.
  destruct (update_loop_stable Math (length (planets w)) this 0 this w p Hp) as (p1 & Hp1 & Hs).
  rewrite Hp1. simpl. eexists. split.
  - apply list_lookup_insert_eq. eapply lookup_lt_Some, Hp1.
  - pose proof (reachable_worldAged Math w Hr) as Hw.
    assert (Hp0 : wellAged p) by (eapply Forall_lookup_1; eassumption).
    assert (Hp1' : wellAged p1).
    { unfold sameBody in Hs. rewrite <- Hs in Hp0. exact Hp0. }
    destruct Hp1' as [Hfs (n & Hn & Ht)].
    destruct (integrate_age (dt (update_loop Math (length (planets w)) this 0 w)) p1 n
                Hfs Hn Ht) as (_ & _ & j & _ & Hj & ->).
    assert (Hlen : length (trail p1) = n)
      by (rewrite <- (length_map life), Ht; apply agedLives_length).
    rewrite last_drop by (rewrite length_map, length_app; simpl; lia).
    rewrite map_app, last_app. reflexivity.
Qed.

Lemma trail_ends_at_position_witness :
  exists p' : Planet,
    heap (update sampleMath 0%nat (spawnPlanet sampleInput emptyWorld)) !! 0%nat = Some p' /\
    last (trail p') = Some {| tp_x := x p'; tp_y := y p'; life := 1.0 - 0.005 |}.
Proof.
  apply (trail_ends_at_position sampleMath (spawnPlanet sampleInput emptyWorld) 0%nat
           (newPlanet (800 / 2 + 150 * distanceScale) (600 / 2) 5 "rgb(1,2,3)" 5e24
                      {| vel_x := 0; vel_y := 30000 |} "Earth")).
  - apply reach_spawn, reach_load; reflexivity.
  - reflexivity.
Defined.

(** ** What a frame does and does not do *)

Section Frame.

Context (Math : MathLib).


Lemma sameIdentity_refl (p : Planet) : sameIdentity p p.
Proof. repeat split. Qed.

Lemma sameIdentity_trans (p q r : Planet) :
  sameIdentity p q -> sameIdentity q r -> sameIdentity p r.
Proof.
  unfold sameIdentity. intros (A1 & A2 & A3 & A4 & A5) (B1 & B2 & B3 & B4 & B5).
  repeat split; congruence.
Qed.

Lemma sameBody_sameIdentity (p p' : Planet) : sameBody p p' -> sameIdentity p p'.
Proof. unfold sameBody. intros <-. repeat split. Qed.

Lemma update_identity (this r : ref) (w : World) (p : Planet) :
  heap w !! r = Some p ->
  exists p', heap (update Math this w) !! r = Some p' /\ sameIdentity p p'.
Proof.
  intros Hp. unfold update.
  destruct (update_loop_stable Math (length (planets w)) this 0 r w p Hp) as (p1 & Hp1 & Hs).
  apply sameBody_sameIdentity in Hs.
  destruct (heap _ !! this) as [q|] eqn:Hq; [|exists p1; split; assumption].
  simpl. destruct (decide (r = this)) as [->|Hne].
  - exists (integrate (dt (update_loop Math (length (planets w)) this 0 w)) q). split.
    + apply list_lookup_insert_eq. eapply lookup_lt_Some, Hq.
    + assert (q = p1) as -> by congruence.
      eapply sameIdentity_trans; [exact Hs | repeat split].
  - exists p1. split; [rewrite list_lookup_insert_ne by congruence; exact Hp1 | exact Hs].
Qed.

(** X15. A frame never changes the mass, radius, name, colour or fade
    speed of an existing [Planet] object, and never frees one: merging
    creates new objects and only changes which objects are in the
    collection. *)
Theorem frame_keeps_identity (w : World) (r : ref) (p : Planet) :
  heap w !! r = Some p ->
  exists p', heap (animate Math w).2 !! r = Some p' /\ sameIdentity p p'.
Proof.
  unfold animate. destruct (isPaused w).
  - intros Hp. exists p. split; [exact Hp | apply sameIdentity_refl].
  - generalize (length (planets w)) 0%nat. intros fuel. revert w p.
    induction fuel as [|fuel IH]; intros w p i Hp.
    + exists p. split; [exact Hp | apply sameIdentity_refl].
    + rewrite animate_loop_step. destruct (planets w !! i) as [q|].
      * destruct (update_identity q r w p Hp) as (p1 & Hp1 & Hs1).
        destruct (planets (update Math q w) !! i).
        -- destruct (IH _ p1 (S i) Hp1) as (p2 & Hp2 & Hs2).
           exists p2. split; [exact Hp2 | eapply sameIdentity_trans; eassumption].
        -- exists p1. split; assumption.
      * exists p. split; [exact Hp | apply sameIdentity_refl].
Qed.

End Frame.


Lemma frame_keeps_identity_witness :
  exists p', heap (animate sampleMath w3).2 !! 2%nat = Some p' /\
             sameIdentity (still 400 4 "A") p'.
Proof.
  apply (frame_keeps_identity sampleMath w3 2%nat (still 400 4 "A")).
  vm_compute. reflexivity.
Defined.

(** ** The books of a frame *)

Lemma accounted_refl (w : World) : accounted w w.
Proof. unfold accounted. lia. Qed.

Lemma accounted_trans (w1 w2 w3 : World) :
  accounted w1 w2 -> accounted w2 w3 -> accounted w1 w3.
Proof. unfold accounted. lia. Qed.

Lemma hit_planets_length_lower (this other fused : ref) (ps : list ref) :
  (length ps
   <= S (length
        (let ps1 := if (indexOf other ps >? -1)%Z
                    then splice (Z.to_nat (indexOf other ps)) 1 [] ps else ps in
         if (indexOf this ps >? -1)%Z
         then splice (Z.to_nat (indexOf this ps)) 1 [fused] ps1 else ps1)))%nat.
Proof.
  cbv zeta.
  remember (if (indexOf other ps >? -1)%Z
            then splice (Z.to_nat (indexOf other ps)) 1 [] ps else ps) as ps1 eqn:E.
  assert (H1 : (length ps <= S (length ps1))%nat).
  { subst ps1. destruct (indexOf_cases other ps) as [[-> _] | (n & -> & Hl & _)].
    - simpl. lia.
    - index_found n. rewrite splice_length_remove by (eapply lookup_lt_Some, Hl). lia. }
  destruct (indexOf this ps >? -1)%Z; [|exact H1].
  rewrite splice_length_replace. destruct (decide _); lia.
Qed.

Lemma accounted_checkCollision (this other : ref) (w : World) :
  accounted w (checkCollision this other w).
Proof.
  destruct (heap w !! this) as [a|] eqn:Ha; [destruct (heap w !! other) as [b|] eqn:Hb|].
  - destruct (collides a b) eqn:Hc.
    + destruct (checkCollision_hit w this other a b Ha Hb Hc)
        as (Hh & Hl & _ & _ & _ & Hps).
      pose proof (hit_planets_length this other (length (heap w)) (planets w)) as Hup.
      pose proof (hit_planets_length_lower this other (length (heap w)) (planets w)) as Hlow.
      cbv zeta in Hup, Hlow, Hps.
      unfold accounted. rewrite Hh, Hl, Hps, !length_app.
      change (length [fusedPlanet a b]) with 1%nat.
      change (length [MsgCollision (name a) (name b);
                      MsgNewPlanet (mass (fusedPlanet a b))]) with 2%nat.
      lia.
    + rewrite (checkCollision_miss w this other a b Ha Hb Hc).
      unfold accounted. simpl. lia.
  - unfold checkCollision. rewrite Ha, Hb. apply accounted_refl.
  - unfold checkCollision. rewrite Ha. apply accounted_refl.
Qed.

Section Books.

Context (Math : MathLib).

Lemma accounted_visit (this other : ref) (w : World) :
  accounted w (visit Math this other w).
Proof.
  unfold visit. destruct (Nat.eqb other this); [apply accounted_refl|].
  eapply accounted_trans; [|apply accounted_checkCollision].
  unfold accounted.
  destruct (applyGravity_fields Math this other w) as (-> & -> & _ & _ & ->). lia.
Qed.

Lemma accounted_update_loop (fuel : nat) (this : ref) (k : nat) (w : World) :
  accounted w (update_loop Math fuel this k w).
Proof.
  revert k w. induction fuel as [|fuel IH]; intros k w; [apply accounted_refl|].
  rewrite update_loop_step. destruct (planets w !! k); [|apply accounted_refl].
  eapply accounted_trans; [apply accounted_visit | apply IH].
Qed.

Lemma accounted_update (this : ref) (w : World) : accounted w (update Math this w).
Proof.
  pose proof (accounted_update_loop (length (planets w)) this 0 w) as H.
  unfold accounted in *.
  destruct (update_fields Math this w) as (-> & -> & _ & _ & _ & ->). exact H.
Qed.

Lemma accounted_animate (w : World) : accounted w (animate Math w).2.
Proof.
  unfold animate. destruct (isPaused w); [apply accounted_refl|].
  generalize (length (planets w)) 0%nat. intros fuel. revert w.
  induction fuel as [|fuel IH]; intros w i; [apply accounted_refl|].
  rewrite animate_loop_step. destruct (planets w !! i) as [p|]; [|apply accounted_refl].
  pose proof (accounted_update p w) as H1.
  destruct (planets (update Math p w) !! i); [|exact H1].
  eapply accounted_trans; [exact H1 | apply IH].
Qed.

(** X16. The books of a frame balance: each merge logs two messages and
    creates one object, no object is freed, and the collection never grows
    and loses at most one body per merge. *)
Theorem frame_accounted (w : World) :
  (length (log (animate Math w).2) + 2 * length (heap w)
   = length (log w) + 2 * length (heap (animate Math w).2))%nat /\
  (length (heap w) <= length (heap (animate Math w).2))%nat /\
  (length (planets (animate Math w).2) <= length (planets w))%nat /\
  (length (planets w)
   <= length (planets (animate Math w).2)
      + (length (heap (animate Math w).2) - length (heap w)))%nat.
Proof. exact (accounted_animate w). Qed.

Lemma update_loop_more_fuel (d : nat) (this : ref) (w : World) :
  update_loop Math (length (planets w) + d) this 0 w
  = update_loop Math (length (planets w)) this 0 w.
Proof.
  induction d as [|d IH]; [rewrite Nat.add_0_r; reflexivity|].
  rewrite Nat.add_succ_r, update_loop_fuel by lia. exact IH.
Qed.

Lemma animate_loop_more_fuel (d : nat) (w : World) :
  animate_loop Math (length (planets w) + d) 0 w
  = animate_loop Math (length (planets w)) 0 w.
Proof.
  induction d as [|d IH]; [rewrite Nat.add_0_r; reflexivity|].
  rewrite Nat.add_succ_r, animate_loop_fuel by lia. exact IH.
Qed.

(** X17. Both loops end although they run over an array that is spliced
    under them: the loop of [update] and the loop of [animate] take at
    most [planets.length] steps (the length at loop entry), so any larger
    bound on the number of steps gives the same result. *)
Theorem loops_end_within_length (fuel : nat) (this : ref) (w : World) :
  (length (planets w) <= fuel)%nat ->
  update_loop Math fuel this 0 w = update_loop Math (length (planets w)) this 0 w /\
  animate_loop Math fuel 0 w = animate_loop Math (length (planets w)) 0 w.
Proof.
  intros Hf. replace fuel with (length (planets w) + (fuel - length (planets w)))%nat by lia.
  split; [apply update_loop_more_fuel | apply animate_loop_more_fuel].
Qed.

End Books.

Lemma loops_end_within_length_witness :
  update_loop sampleMath 10 0 0 w4 = update_loop sampleMath (length (planets w4)) 0 0 w4 /\
  animate_loop sampleMath 10 0 w4 = animate_loop sampleMath (length (planets w4)) 0 w4.
Proof.
  apply (loops_end_within_length sampleMath 10 0%nat w4).
  assert (Hps : length (planets w4) = 4%nat) by (vm_compute; reflexivity).
  rewrite Hps. lia.
Defined.

(** ** The distance gravity divides by *)

Lemma leb_refl (a : float) : is_nan a = false -> (a <=? a) = true.
Proof. intros Ha. apply leb_rank. repeat split; try assumption. apply klt_irrefl. Qed.

Lemma ltb_leb (a b : float) : (a <? b) = true -> (a <=? b) = true.
Proof.
  intros (Ha & Hb & Hk)%ltb_rank. apply leb_rank. repeat split; try assumption.
  apply klt_asym, Hk.
Qed.

Lemma Math_max_spec (a b : float) :
  is_nan a = false -> is_nan b = false ->
  (a <=? Math_max a b) = true /\ (b <=? Math_max a b) = true /\
  (Math_max a b = a \/ Math_max a b = b).
Proof.
  intros Ha Hb. unfold Math_max. rewrite Ha, Hb. simpl.
  destruct (a <? b) eqn:Hab; [|destruct (b <? a) eqn:Hba].
  - repeat split; [apply ltb_leb, Hab | apply leb_refl, Hb | right; reflexivity].
  - repeat split; [apply leb_refl, Ha | apply ltb_leb, Hba | left; reflexivity].
  - pose proof (ltb_false_leb a b Ha Hb Hab) as H1.
    pose proof (ltb_false_leb b a Hb Ha Hba) as H2.
    destruct (get_sign a).
    + repeat split; [exact H2 | apply leb_refl, Hb | right; reflexivity].
    + repeat split; [apply leb_refl, Ha | exact H1 | left; reflexivity].
Qed.

(** X18. [applyGravity] divides the force by the square of the distance
    clamped from below: unless the distance is NaN, the distance used is
    the computed distance or [1e7], and is below neither. *)
Theorem gravity_distance_clamped (Math : MathLib) (a b : Planet) (dt0 : float) :
  is_nan (separation a b) = false ->
  vel_x (gravityVelocity Math a b dt0)
  = vel_x (velocity a)
    + (Math_cos Math (Math_atan2 Math (y b - y a) (x b - x a))
       * ((G * mass a * mass b)
          / (Math_max (separation a b) 1e7 * Math_max (separation a b) 1e7))
       / mass a) * dt0 /\
  (1e7 <=? Math_max (separation a b) 1e7) = true /\
  (separation a b <=? Math_max (separation a b) 1e7) = true /\
  (Math_max (separation a b) 1e7 = separation a b \/
   Math_max (separation a b) 1e7 = 1e7).
Proof.
  intros Hnan. split; [reflexivity|].
  destruct (Math_max_spec (separation a b) 1e7 Hnan eq_refl) as (H1 & H2 & H3).
  repeat split; assumption.
Qed.

Lemma gravity_distance_clamped_witness :
  (1e7 <=? Math_max (separation moving moving) 1e7) = true /\
  Math_max (separation moving moving) 1e7 = 1e7.
Proof.
  destruct (gravity_distance_clamped sampleMath moving moving 86400 eq_refl)
    as (_ & H & _).
  split; [exact H | reflexivity].
Defined.

(** ** The solar system preset *)

Lemma solar_lookup (w : World) (k : nat) :
  heap (spawnSolarSystem w) !! (length (heap w) + k)%nat = solarSystem !! k.
Proof.
  change (heap (spawnSolarSystem w)) with (heap w ++ solarSystem).
  rewrite lookup_app_r by lia. f_equal. lia.
Qed.

(** X19. Whatever was on the page, the preset leaves exactly five bodies
    in the collection, all of them new objects, named Sun, Mercury, Venus,
    Earth and Mars in this order, and the anchor is the Sun. *)
Theorem solar_system_anchor (w : World) :
  planets (spawnSolarSystem w) = seq (length (heap w)) 5 /\
  (forall k, heap (spawnSolarSystem w) !! (length (heap w) + k)%nat = solarSystem !! k) /\
  map name solarSystem = ["Sun"; "Mercury"; "Venus"; "Earth"; "Mars"]%string /\
  getMostMassivePlanet (spawnSolarSystem w) = Some (length (heap w)).
Proof.
  split; [reflexivity|]. split; [apply solar_lookup|]. split; [reflexivity|].
  unfold getMostMassivePlanet.
  change (planets (spawnSolarSystem w)) with (seq (length (heap w)) 5).
  pose proof (solar_lookup w 0) as H0. pose proof (solar_lookup w 1) as H1.
  pose proof (solar_lookup w 2) as H2. pose proof (solar_lookup w 3) as H3.
  pose proof (solar_lookup w 4) as H4.
  rewrite Nat.add_0_r in H0.
  replace (length (heap w) + 1)%nat with (S (length (heap w))) in H1 by lia.
  replace (length (heap w) + 2)%nat with (S (S (length (heap w)))) in H2 by lia.
  replace (length (heap w) + 3)%nat with (S (S (S (length (heap w))))) in H3 by lia.
  replace (length (heap w) + 4)%nat with (S (S (S (S (length (heap w)))))) in H4 by lia.
  cbn [seq lookup list_lookup fold_left]. f_equal.
  rewrite (heavier_cases _ _ _ _ _ H0 H0).
  change (mass _ <? mass _) with false. cbv iota.
  rewrite (heavier_cases _ _ _ _ _ H0 H1).
  change (mass _ <? mass _) with false. cbv iota.
  rewrite (heavier_cases _ _ _ _ _ H0 H2).
  change (mass _ <? mass _) with false. cbv iota.
  rewrite (heavier_cases _ _ _ _ _ H0 H3).
  change (mass _ <? mass _) with false. cbv iota.
  rewrite (heavier_cases _ _ _ _ _ H0 H4).
  reflexivity.
Qed.

(** ** Drawing a trail *)

Lemma trailStrokes_alphas (w : World) (c : Planet) (t : list TrailPoint) :
  map alpha (trailStrokes w c t) = alphas (map life t).
Proof.
  induction t as [|p1 t IH]; [reflexivity|].
  destruct t as [|p2 t]; [reflexivity|].
  change (map alpha (trailStrokes w c (p1 :: p2 :: t)))
    with ((life p1 + life p2) / 2 :: map alpha (trailStrokes w c (p2 :: t))).
  rewrite IH. reflexivity.
Qed.

Lemma trailStrokes_length (w : World) (c : Planet) (t : list TrailPoint) :
  length (trailStrokes w c t) = (length t - 1)%nat.
Proof.
  induction t as [|p1 t IH]; [reflexivity|].
  destruct t as [|p2 t]; [reflexivity|].
  change (length (trailStrokes w c (p1 :: p2 :: t)))
    with (S (length (trailStrokes w c (p2 :: t)))).
  rewrite IH. simpl. lia.
Qed.

Lemma drawTrail_trailStrokes (w : World) (p c : Planet) :
  drawTrail w p c = trailStrokes w c (trail p).
Proof.
  unfold drawTrail. destruct (Nat.ltb_spec (length (trail p)) 2) as [H|H]; [|reflexivity].
  destruct (trail p) as [|p1 [|p2 t]]; try reflexivity. simpl in H. lia.
Qed.

Lemma alphas_aged (n : nat) (s : float) :
  s ∈ alphas (agedLives n) ->
  exists k, (1 <= k < n)%nat /\ s = (lifeAfter (S k) + lifeAfter k) / 2.
Proof.
  induction n as [|n IH]; [intros H; apply elem_of_nil in H; destruct H|].
  destruct n as [|n]; [intros H; apply elem_of_nil in H; destruct H|].
  change (alphas (agedLives (S (S n))))
    with ((lifeAfter (S (S n)) + lifeAfter (S n)) / 2 :: alphas (agedLives (S n))).
  intros [-> | Hs]%elem_of_cons.
  - exists (S n). split; [lia | reflexivity].
  - destruct (IH Hs) as (k & Hk & ->). exists k. split; [lia | reflexivity].
Qed.

(** Every opacity between two live points is in (0, 1], by evaluation. *)
Lemma alpha_table :
  forallb (fun k => (0 <? (lifeAfter (S k) + lifeAfter k) / 2)
                    && ((lifeAfter (S k) + lifeAfter k) / 2 <=? 1))%bool
          (seq 1 198) = true.
Proof. vm_compute. reflexivity. Qed.

(** X20. In every world the page can reach, [drawTrail] strokes one line
    per pair of consecutive trail points (none for a trail of fewer than
    two points), and every line's opacity is greater than 0 and at most 1,
    a valid alpha for [rgba]. *)
Theorem drawTrail_opacities (Math : MathLib) (w : World) (p c : Planet) :
  reachable Math w -> p ∈ heap w ->
  length (drawTrail w p c) = (length (trail p) - 1)%nat /\
  forall s, s ∈ drawTrail w p c -> (0 <? alpha s) = true /\ (alpha s <=? 1) = true.
Proof.
  intros Hr Hp. rewrite drawTrail_trailStrokes. split; [apply trailStrokes_length|].
  intros s Hs.
  pose proof (reachable_worldAged Math w Hr) as Hw.
  unfold worldAged in Hw. rewrite Forall_forall in Hw.
  destruct (Hw p Hp) as [_ (n & Hn & Ht)].
  assert (Ha : alpha s ∈ alphas (agedLives n)).
  { rewrite <- Ht, <- (trailStrokes_alphas w c). apply list_elem_of_fmap_2, Hs. }
  destruct (alphas_aged n _ Ha) as (k & Hk & ->).
  pose proof alpha_table as Htab. rewrite forallb_forall in Htab.
  specialize (Htab k ltac:(apply in_seq; lia)).
  apply andb_true_iff in Htab. exact Htab.
Qed.

(** The spawned planet after two frames: two trail points, one line. *)
Lemma drawTrail_opacities_witness :
  length (drawTrail (animate sampleMath wframe).2
            (integrate 86400 (integrate 86400
               (newPlanet (800 / 2 + 150 * distanceScale) (600 / 2) 5 "rgb(1,2,3)" 5e24
                          {| vel_x := 0; vel_y := 30000 |} "Earth"))) moving) = 1%nat /\
  forall s,
    s ∈ drawTrail (animate sampleMath wframe).2
          (integrate 86400 (integrate 86400
             (newPlanet (800 / 2 + 150 * distanceScale) (600 / 2) 5 "rgb(1,2,3)" 5e24
                        {| vel_x := 0; vel_y := 30000 |} "Earth"))) moving ->
    (0 <? alpha s) = true /\ (alpha s <=? 1) = true.
Proof.
  assert (Hin : integrate 86400 (integrate 86400
             (newPlanet (800 / 2 + 150 * distanceScale) (600 / 2) 5 "rgb(1,2,3)" 5e24
                        {| vel_x := 0; vel_y := 30000 |} "Earth"))
                ∈ heap (animate sampleMath wframe).2)
    by (vm_compute; apply list_elem_of_here).
  exact (drawTrail_opacities sampleMath (animate sampleMath wframe).2 _ moving
           (reach_animate _ _ wframe_reachable) Hin).
Defined.
